(** * Sigma-point generators of [filterpy/kalman/sigma_points.py]

    A shallow embedding of the four generator classes
    [MerweScaledSigmaPoints], [JulierSigmaPoints], [SimplexSigmaPoints] and
    [GeneralizedSigmaPoints], and the properties of their weights and points.

    Numbers.  The Python code computes on binary64 floats.  Every definition
    below is written once, over a type [F] with the operations the code uses
    (class [Num]), and is read at three instances:
    - [R], the real numbers: the exact arithmetic that the algebraic
      properties (moment reconstruction) are about;
    - [option R], the real numbers with undefined operations, where a
      division by zero or the square root of a negative number has no value;
    - [float], the kernel's binary64 numbers: the definitions then run, and a
      concrete call is evaluated with the rounding of the Python program.
    Properties that only depend on the control flow and on the shape of the
    data are proved for every [F].

    Python values.  A mean argument is [None], a scalar, a Python list or
    tuple, or a one-dimensional NumPy array; a covariance argument is a
    scalar or a two-dimensional array (a list of rows).  Exceptions are the
    constructors of [exn]; a call returns [Ok v] or [Raise e]. *)

From Stdlib Require Import Floats.PrimFloat Numbers.Cyclic.Int63.Uint63.
From Stdlib Require Import Reals Lra Lia ZArith.
From stdpp Require Import base list.

(** ** Exceptions and results *)

Inductive exn : Set :=
  | ValueError | IndexError | TypeError | ZeroDivisionError | OverflowError
  | AttributeError | LinAlgError | Warning.

Inductive res (A : Type) : Type :=
  | Ok (a : A)
  | Raise (e : exn).
Arguments Ok {A} a.
Arguments Raise {A} e.

#[export] Instance res_ret : MRet res := λ A a, Ok a.
#[export] Instance res_bind : MBind res :=
  λ A B f m, match m with Ok a => f a | Raise e => Raise e end.

Definition is_Raise {A} (r : res A) : Prop := ∃ e, r = Raise e.

(** ** The arithmetic of the program *)

Class Num (F : Type) := {
  f0 : F;                      (* the literal 0. *)
  f1 : F;                      (* the literal 1. *)
  fhalf : F;                   (* the literal .5 *)
  fnat : nat → F;              (* an int used in a float expression *)
  fadd : F → F → F;
  fsub : F → F → F;
  fmul : F → F → F;
  fdiv : F → F → F;
  fopp : F → F;
  fsqrt : F → F;               (* np.sqrt on one number *)
  feqb : F → F → bool;         (* == *)
  fltb : F → F → bool;         (* < *)
  fpow2 : F → res F;           (* x**2 on a Python float: the platform's pow,
                                  [OverflowError] when it is out of range *)
}.

Declare Scope num_scope.
Delimit Scope num_scope with num.
Notation "a + b" := (fadd a b) : num_scope.
Notation "a - b" := (fsub a b) : num_scope.
Notation "a * b" := (fmul a b) : num_scope.
Notation "a / b" := (fdiv a b) : num_scope.
Notation "- a" := (fopp a) : num_scope.

Definition Reqb (a b : R) : bool := if Req_dec_T a b then true else false.
Definition Rltb (a b : R) : bool := if Rlt_dec a b then true else false.

#[export] Instance Num_R : Num R := {|
  f0 := 0%R; f1 := 1%R; fhalf := (/ 2)%R; fnat := INR;
  fadd := Rplus; fsub := Rminus; fmul := Rmult; fdiv := Rdiv; fopp := Ropp;
  fsqrt := R_sqrt.sqrt; feqb := Reqb; fltb := Rltb;
  fpow2 := λ x, Ok (x * x)%R |}.

(** On binary64 numbers [x**2] is read as the correctly rounded square, which
    C's [pow] returns whenever the square is a binary64 number; Python raises
    [OverflowError] when the power of a finite number is infinite. *)
Definition float_pow2 (x : float) : res float :=
  let y := PrimFloat.mul x x in
  if PrimFloat.is_infinity y && negb (PrimFloat.is_infinity x)
  then Raise OverflowError else Ok y.

#[export] Instance Num_float : Num float := {|
  f0 := 0%float; f1 := 1%float; fhalf := 0.5%float;
  fnat := λ n, PrimFloat.of_uint63 (Uint63.of_Z (Z.of_nat n));
  fadd := PrimFloat.add; fsub := PrimFloat.sub; fmul := PrimFloat.mul;
  fdiv := PrimFloat.div; fopp := PrimFloat.opp; fsqrt := PrimFloat.sqrt;
  feqb := PrimFloat.eqb; fltb := PrimFloat.ltb; fpow2 := float_pow2 |}.

(** Exact arithmetic in which an operation can be undefined: a number is a
    real, or has no value ([None]).  A division by zero and the square root
    of a negative number have no value; an operation on an operand without
    a value has none; a comparison with one is false. *)
#[export] Instance Num_exact : Num (option R) := {|
  f0 := Some 0%R; f1 := Some 1%R; fhalf := Some (/ 2)%R;
  fnat := λ n, Some (INR n);
  fadd := λ a b, x ← a; y ← b; Some (x + y)%R;
  fsub := λ a b, x ← a; y ← b; Some (x - y)%R;
  fmul := λ a b, x ← a; y ← b; Some (x * y)%R;
  fdiv := λ a b, x ← a; y ← b; if Reqb y 0 then None else Some (x / y)%R;
  fopp := λ a, x ← a; Some (- x)%R;
  fsqrt := λ a, x ← a; if Rltb x 0 then None else Some (R_sqrt.sqrt x);
  feqb := λ a b, match a, b with
                 | Some x, Some y => Reqb x y
                 | _, _ => false
                 end;
  fltb := λ a b, match a, b with
                 | Some x, Some y => Rltb x y
                 | _, _ => false
                 end;
  fpow2 := λ a, Ok (x ← a; Some (x * x)%R) |}.

(** ** Python and NumPy values *)

Section values.
Context {F : Type} `{Num F}.

(** A mean argument ([x]). *)
Inductive pyvalue : Type :=
  | PyNone
  | PyScalar (v : F)
  | PyList (l : list F)
  | PyTuple (l : list F)
  | NdArray (l : list F).

(** A covariance argument ([P]): a scalar, or a two-dimensional array given
    by its rows. *)
Inductive pycov : Type :=
  | CovScalar (p : F)
  | CovMatrix (m : list (list F)).

(** [np.size(x)] *)
Definition np_size (x : pyvalue) : nat :=
  match x with
  | PyNone | PyScalar _ => 1
  | PyList l | PyTuple l | NdArray l => length l
  end.

(** A NumPy array, as opposed to a Python list or tuple. *)
Definition is_ndarray (x : pyvalue) : Prop :=
  match x with
  | NdArray _ => True
  | _ => False
  end.

(** [if np.isscalar(x): x = np.asarray([x])] *)
Definition asarray_if_scalar (x : pyvalue) : pyvalue :=
  match x with
  | PyScalar v => NdArray [v]
  | _ => x
  end.

(** The numbers of a sequence used as an operand of array arithmetic or
    assigned to a row; [None] is no such operand. *)
Definition items (x : pyvalue) : res (list F) :=
  match x with
  | PyNone => Raise TypeError
  | PyScalar v => Ok [v]
  | PyList l | PyTuple l | NdArray l => Ok l
  end.

(** [np.eye(n)] and [np.zeros((r, c))] *)
Definition eye (n : nat) : list (list F) :=
  map (λ i, map (λ j, if decide (i = j) then f1 else f0) (seq 0 n)) (seq 0 n).
Definition zeros (r c : nat) : list (list F) := replicate r (replicate c f0).

(** [if np.isscalar(P): P = np.eye(n)*P else: P = np.atleast_2d(P)] *)
Definition as_matrix (n : nat) (P : pycov) : list (list F) :=
  match P with
  | CovScalar p => map (map (λ e, e * p)%num) (eye n)
  | CovMatrix m => m
  end.

(** [c * M], [c * v] and [-v] for a scalar [c]. *)
Definition mscale (c : F) (m : list (list F)) : list (list F) :=
  map (map (fmul c)) m.
Definition vscale (c : F) (v : list F) : list F := map (fmul c) v.
Definition vneg (v : list F) : list F := map fopp v.

(** An elementwise operation on two one-dimensional arrays, with NumPy's
    broadcasting: equal lengths, or one operand of length one. *)
Definition broadcast {C} (op : F → F → C) (a b : list F) : res (list C) :=
  if decide (length a = length b) then Ok (zip_with op a b)
  else match a, b with
       | [a0], _ => Ok (map (op a0) b)
       | _, [b0] => Ok (map (λ v, op v b0) a)
       | _, _ => Raise ValueError
       end.

(** [np.subtract] on one-dimensional operands, the default [subtract]. *)
Definition np_subtract (a b : list F) : res (list F) := broadcast fsub a b.

(** [l[i]] for an index in range. *)
Definition getitem {A} (l : list A) (i : nat) : res A :=
  match l !! i with
  | Some a => Ok a
  | None => Raise IndexError
  end.

(** [m[i] = v]: the row is replaced; a one-element [v] is broadcast. *)
Definition set_row (i : nat) (v : list F) (m : list (list F))
  : res (list (list F)) :=
  match m !! i with
  | None => Raise IndexError
  | Some r =>
      if decide (length v = length r) then Ok (<[i := v]> m)
      else match v with
           | [v0] => Ok (<[i := replicate (length r) v0]> m)
           | _ => Raise ValueError
           end
  end.

(** [a / b] on Python floats. *)
Definition pydiv (a b : F) : res F :=
  if feqb b f0 then Raise ZeroDivisionError else Ok (a / b)%num.

(** [np.sum(w)], added from left to right. *)
Definition np_sum (w : list F) : F := foldl fadd f0 w.

(** [np.min(v)]; it raises on an empty array, and a NaN (a number with
    [m != m]) is the minimum of an array that has one. *)
Definition np_min (v : list F) : res F :=
  match v with
  | [] => Raise ValueError
  | a :: v' =>
      Ok (foldl (λ m b, if negb (feqb m m) then m
                        else if negb (feqb b b) then b
                        else if fltb b m then b else m) a v')
  end.

(** An index as Python reads it: a negative one counts from the end. *)
Definition py_index (len : nat) (i : Z) : res nat :=
  if decide (0 ≤ i < Z.of_nat len)%Z then Ok (Z.to_nat i)
  else if decide (- Z.of_nat len ≤ i < 0)%Z then Ok (Z.to_nat (Z.of_nat len + i))
  else Raise IndexError.

(** [m[:, j]], column [j] of a two-dimensional array. *)
Definition column (m : list (list F)) (j : Z) : res (list F) :=
  mapM (λ r, k ← py_index (length r) j; getitem r k) m.

(** [np.diag(m)] of a two-dimensional array: its main diagonal. *)
Fixpoint diag_from (k : nat) (m : list (list F)) : list F :=
  match m with
  | [] => []
  | r :: m' => match r !! k with
               | Some v => v :: diag_from (S k) m'
               | None => []
               end
  end.
Definition np_diag (m : list (list F)) : list F := diag_from 0 m.

(** [m.T] and [a.dot(b)] on two-dimensional arrays. *)
Definition ncols (m : list (list F)) : nat :=
  match m with [] => 0 | r :: _ => length r end.
Definition transpose (m : list (list F)) : list (list F) :=
  map (λ j, map (λ r, default f0 (r !! j)) m) (seq 0 (ncols m)).
Definition dot (a b : list (list F)) : res (list (list F)) :=
  if decide (Forall (λ r, length r = length b) a) then
    Ok (map (λ r, map (λ c, np_sum (zip_with fmul r c)) (transpose b)) a)
  else Raise ValueError.

(** An elementwise operation on two two-dimensional arrays, broadcasting
    along both axes. *)
Definition broadcast2 (op : F → F → F) (a b : list (list F))
  : res (list (list F)) :=
  if decide (length a = length b) then
    mapM (λ '(r, q), broadcast op r q) (zip a b)
  else match a, b with
       | [r], _ => mapM (λ q, broadcast op r q) b
       | _, [q] => mapM (λ r, broadcast op r q) a
       | _, _ => Raise ValueError
       end.
Definition np_subtract2 (a b : list (list F)) : res (list (list F)) :=
  broadcast2 fsub a b.

(** The result of [x != y] on mean values, and its use as a condition. *)
Inductive pybool : Set :=
  | PyBool (b : bool)
  | BoolArray (l : list bool).

Definition list_ne (a b : list F) : bool :=
  negb (bool_decide (length a = length b) && forallb (λ e, e) (zip_with feqb a b)).

Definition py_ne (x y : pyvalue) : res pybool :=
  let elementwise a b := l ← broadcast (λ u v, negb (feqb u v)) a b;
                         Ok (BoolArray l) in
  match x, y with
  | PyNone, PyNone => Ok (PyBool false)
  | PyNone, NdArray b => Ok (BoolArray (map (λ _, true) b))
  | NdArray a, PyNone => Ok (BoolArray (map (λ _, true) a))
  | PyNone, _ | _, PyNone => Ok (PyBool true)
  | PyScalar u, PyScalar v => Ok (PyBool (negb (feqb u v)))
  | PyScalar _, (PyList _ | PyTuple _) | (PyList _ | PyTuple _), PyScalar _ =>
      Ok (PyBool true)
  | PyList a, PyList b | PyTuple a, PyTuple b => Ok (PyBool (list_ne a b))
  | PyList _, PyTuple _ | PyTuple _, PyList _ => Ok (PyBool true)
  | PyScalar u, NdArray b => elementwise [u] b
  | NdArray a, PyScalar v => elementwise a [v]
  | (PyList a | PyTuple a), NdArray b | NdArray a, (PyList b | PyTuple b)
  | NdArray a, NdArray b =>
      elementwise a b
  end.

(** [if c:] on the result of a comparison: an array of one element has the
    truth value of that element, any other array has none. *)
Definition truth (c : pybool) : res bool :=
  match c with
  | PyBool b => Ok b
  | BoolArray [b] => Ok b
  | BoolArray _ => Raise ValueError
  end.

(** [for a in l: body], threading the variables the body assigns. *)
Fixpoint for_in {A S} (l : list A) (body : A → S → res S) (s : S) : res S :=
  match l with
  | [] => Ok s
  | a :: l' => s' ← body a s; for_in l' body s'
  end.

(** Entry [(i, j)] of a two-dimensional array whose shape was checked. *)
Definition entry (m : list (list F)) (i j : nat) : F :=
  default f0 (m !! i ≫= (.!! j)).

(** Modelled from the spec: [scipy.linalg.cholesky], the default of
    [sqrt_method], is a library function outside the repository.  The spec
    gives its contract, the upper-triangular [U] with [U.T @ U = a]; this is
    the factorisation that computes it, one row of [U] after the other.  It
    raises [ValueError] when [a] is not square and [LinAlgError] when a pivot
    is not positive ([a] is not positive definite). *)
Definition chol_dot (U : list (list F)) (j i : nat) : F :=
  np_sum (map (λ r, default f0 (r !! j) * default f0 (r !! i))%num U).

Definition chol_row (a U : list (list F)) (n j : nat) : res (list F) :=
  let d := (entry a j j - chol_dot U j j)%num in
  if fltb f0 d then
    let ujj := fsqrt d in
    Ok (map (λ i, if (i <? j)%nat then f0
                  else if (i =? j)%nat then ujj
                  else ((entry a j i - chol_dot U j i) / ujj)%num) (seq 0 n))
  else Raise LinAlgError.

Definition cholesky (a : list (list F)) : res (list (list F)) :=
  let n := length a in
  if decide (Forall (λ r, length r = n) a) then
    for_in (seq 0 n) (λ j U, r ← chol_row a U n j; Ok (U ++ [r])) []
  else Raise ValueError.

End values.
Arguments pyvalue F : clear implicits.
Arguments pycov F : clear implicits.
Arguments np_sum {F _} w : simpl never.

(** ** [class MerweScaledSigmaPoints] *)

Module MerweScaledSigmaPoints.
Section code.
Context {F : Type} `{Num F}.

Record t : Type := {
  self_n : nat;
  self_alpha : F;
  self_beta : F;
  self_kappa : F;
  self_sqrt : list (list F) → res (list (list F));
  self_subtract : list F → list F → res (list F);
  self_Wm : list F;
  self_Wc : list F;
}.

(** [self.alpha**2] is evaluated where the source writes it, in
    [lambda_ = self.alpha**2 * (n + self.kappa) - n] and in [Wc[0]]. *)
Definition _compute_weights (n : nat) (alpha beta kappa : F)
  : res (list F * list F) :=
  a2 ← fpow2 alpha;
  let lambda_ := (a2 * (fnat n + kappa) - fnat n)%num in
  c ← pydiv fhalf (fnat n + lambda_)%num;
  let Wc := replicate (2 * n + 1) c in
  let Wm := replicate (2 * n + 1) c in
  q ← pydiv lambda_ (fnat n + lambda_)%num;
  a2 ← fpow2 alpha;
  let Wc := <[0 := (q + (f1 - a2 + beta))%num]> Wc in
  q ← pydiv lambda_ (fnat n + lambda_)%num;
  let Wm := <[0 := q]> Wm in
  Ok (Wm, Wc).

Definition __init__ (n : nat) (alpha beta kappa : F)
    (sqrt_method : option (list (list F) → res (list (list F))))
    (subtract : option (list F → list F → res (list F))) : res t :=
  let sqrt := default cholesky sqrt_method in
  let subtract := default np_subtract subtract in
  '(Wm, Wc) ← _compute_weights n alpha beta kappa;
  Ok {| self_n := n; self_alpha := alpha; self_beta := beta;
        self_kappa := kappa; self_sqrt := sqrt; self_subtract := subtract;
        self_Wm := Wm; self_Wc := Wc |}.

Definition num_sigmas (self : t) : nat := 2 * self_n self + 1.

Definition sigma_points (self : t) (x : pyvalue F) (P : pycov F)
  : res (list (list F)) :=
  if decide (self_n self ≠ np_size x) then Raise ValueError else
  let n := self_n self in
  let x := asarray_if_scalar x in
  let P := as_matrix n P in
  a2 ← fpow2 (self_alpha self);
  let lambda_ := (a2 * (fnat n + self_kappa self) - fnat n)%num in
  U ← self_sqrt self (mscale (lambda_ + fnat n)%num P);
  let sigmas := zeros (2 * n + 1) n in
  xv ← items x;
  sigmas ← set_row 0 xv sigmas;
  for_in (seq 0 n) (λ k sigmas,
    Uk ← getitem U k;
    r ← self_subtract self xv (vneg Uk);
    sigmas ← set_row (k + 1) r sigmas;
    Uk ← getitem U k;
    r ← self_subtract self xv Uk;
    set_row (n + k + 1) r sigmas) sigmas.

End code.
Arguments t F : clear implicits.
End MerweScaledSigmaPoints.

(** ** [class JulierSigmaPoints] *)

Module JulierSigmaPoints.
Section code.
Context {F : Type} `{Num F}.

Record t : Type := {
  self_n : nat;
  self_kappa : F;
  self_sqrt : list (list F) → res (list (list F));
  self_subtract : list F → list F → res (list F);
  self_Wm : list F;
  self_Wc : list F;
}.

Definition _compute_weights (n : nat) (kappa : F) : res (list F * list F) :=
  let k := kappa in
  c ← pydiv fhalf (fnat n + k)%num;
  let Wm := replicate (2 * n + 1) c in
  q ← pydiv k (fnat n + k)%num;
  let Wm := <[0 := q]> Wm in
  let Wc := Wm in
  Ok (Wm, Wc).

Definition __init__ (n : nat) (kappa : F)
    (sqrt_method : option (list (list F) → res (list (list F))))
    (subtract : option (list F → list F → res (list F))) : res t :=
  let sqrt := default cholesky sqrt_method in
  let subtract := default np_subtract subtract in
  '(Wm, Wc) ← _compute_weights n kappa;
  Ok {| self_n := n; self_kappa := kappa; self_sqrt := sqrt;
        self_subtract := subtract; self_Wm := Wm; self_Wc := Wc |}.

Definition num_sigmas (self : t) : nat := 2 * self_n self + 1.

Definition sigma_points (self : t) (x : pyvalue F) (P : pycov F)
  : res (list (list F)) :=
  if decide (self_n self ≠ np_size x) then Raise ValueError else
  let x := asarray_if_scalar x in
  let n := np_size x in
  let P := as_matrix n P in
  let sigmas := zeros (2 * n + 1) n in
  U ← self_sqrt self (mscale (fnat n + self_kappa self)%num P);
  xv ← items x;
  sigmas ← set_row 0 xv sigmas;
  for_in (seq 0 n) (λ k sigmas,
    Uk ← getitem U k;
    r ← self_subtract self xv (vneg Uk);
    sigmas ← set_row (k + 1) r sigmas;
    Uk ← getitem U k;
    r ← self_subtract self xv Uk;
    set_row (n + k + 1) r sigmas) sigmas.

End code.
Arguments t F : clear implicits.
End JulierSigmaPoints.

(** ** [class SimplexSigmaPoints] *)

Module SimplexSigmaPoints.
Section code.
Context {F : Type} `{Num F}.

Record t : Type := {
  self_n : nat;
  self_alpha : F;
  self_sqrt : list (list F) → res (list (list F));
  (* called on the column vector [x] and the scaled direction matrix *)
  self_subtract : list (list F) → list (list F) → res (list (list F));
  self_Wm : list F;
  self_Wc : list F;
}.

Definition _compute_weights (n : nat) : list F * list F :=
  let c := (f1 / fnat (n + 1))%num in
  let Wm := replicate (n + 1) c in
  let Wc := Wm in
  (Wm, Wc).

Definition __init__ (n : nat) (alpha : F)
    (sqrt_method : option (list (list F) → res (list (list F))))
    (subtract : option (list (list F) → list (list F) → res (list (list F))))
  : t :=
  let sqrt := default cholesky sqrt_method in
  let subtract := default np_subtract2 subtract in
  let '(Wm, Wc) := _compute_weights n in
  {| self_n := n; self_alpha := alpha; self_sqrt := sqrt;
     self_subtract := subtract; self_Wm := Wm; self_Wc := Wc |}.

Definition num_sigmas (self : t) : nat := self_n self + 1.

(** [x = x.reshape(-1, 1)]: only an array has the method. *)
Definition reshape_column (x : pyvalue F) : res (list (list F)) :=
  match x with
  | NdArray l => Ok (map (λ v, [v]) l)
  | _ => Raise AttributeError
  end.

(** The body of [for d in range(2, n+1)]: one more column of zeros, one more
    row. *)
Definition Istar_step (lambda_ : F) (d : nat) (Istar : list (list F))
  : list (list F) :=
  let den := fsqrt (lambda_ * fnat d * fnat (d + 1))%num in
  let row := replicate (ncols Istar + 1) (f1 * f1 / den)%num in
  let row := <[ncols Istar := (- fnat d / den)%num]> row in
  map (λ r, r ++ [f0]) Istar ++ [row].

Definition sigma_points (self : t) (x : pyvalue F) (P : pycov F)
  : res (list (list F)) :=
  if decide (self_n self ≠ np_size x) then Raise ValueError else
  let n := self_n self in
  let x := asarray_if_scalar x in
  x ← reshape_column x;
  let P := as_matrix n P in
  U ← self_sqrt self P;
  let lambda_ := (fnat n / fnat (n + 1))%num in
  let Istar := [[(- f1 / fsqrt (fnat 2 * lambda_))%num;
                 (f1 / fsqrt (fnat 2 * lambda_))%num]] in
  let Istar := foldl (λ Istar d, Istar_step lambda_ d Istar) Istar
                     (seq 2 (n - 1)) in
  let I := mscale (fsqrt (fnat n)) Istar in
  scaled_unitary ← dot (transpose U) I;
  sigmas ← self_subtract self x (map vneg scaled_unitary);
  Ok (transpose sigmas).

End code.
Arguments t F : clear implicits.
End SimplexSigmaPoints.

(** ** [class GeneralizedSigmaPoints]

    The only class whose methods assign attributes after construction
    ([self.s], [self.Wm], [self.Wc]).  A method is a function from the
    instance to a result and the instance as the call leaves it, also when the
    call raises. *)

Module GeneralizedSigmaPoints.
Section code.
Context {F : Type} `{Num F}.

Record t : Type := {
  self_n : nat;
  self_x : pyvalue F;
  self_P : list (list F);
  self_S : pyvalue F;
  self_K : pyvalue F;
  self_k : option F;
  self_positively_constrained : bool;
  self_s : list F;
  self_Wm : list F;
  self_Wc : list F;
}.

Definition M (A : Type) : Type := t → res A * t.

#[export] Instance M_ret : MRet M := λ A a self, (Ok a, self).
#[export] Instance M_bind : MBind M :=
  λ A B f m self,
    match m self with
    | (Ok a, self') => f a self'
    | (Raise e, self') => (Raise e, self')
    end.

Definition get : M t := λ self, (Ok self, self).
Definition lift {A} (r : res A) : M A := λ self, (r, self).
Definition raise {A} (e : exn) : M A := lift (Raise e).

(** The instance with [self.s], or with [self.Wm] and [self.Wc],
    assigned. *)
Definition with_s (self : t) (s : list F) : t :=
  {| self_n := self_n self; self_x := self_x self; self_P := self_P self;
     self_S := self_S self; self_K := self_K self; self_k := self_k self;
     self_positively_constrained := self_positively_constrained self;
     self_s := s; self_Wm := self_Wm self; self_Wc := self_Wc self |}.
Definition with_weights (self : t) (Wm Wc : list F) : t :=
  {| self_n := self_n self; self_x := self_x self; self_P := self_P self;
     self_S := self_S self; self_K := self_K self; self_k := self_k self;
     self_positively_constrained := self_positively_constrained self;
     self_s := self_s self; self_Wm := Wm; self_Wc := Wc |}.

(** [self.s[i]] and [self.s[i] = v] *)
Definition get_s (i : nat) : M F := self ← get; lift (getitem (self_s self) i).
Definition set_s (i : nat) (v : F) : M unit :=
  λ self,
    match self_s self !! i with
    | None => (Raise IndexError, self)
    | Some _ => (Ok (), with_s self (<[i := v]> (self_s self)))
    end.

(** [self.Wm = w; self.Wc = w] *)
Definition set_weights (w : list F) : M unit :=
  λ self, (Ok (), with_weights self w w).

(** [w[i] = v] on the local array [w]. *)
Definition setitem (w : list F) (i : nat) (v : F) : M (list F) :=
  match w !! i with
  | None => raise IndexError
  | Some _ => mret (<[i := v]> w)
  end.

(** [for a in l: body] in a method. *)
Fixpoint for_M {A S} (l : list A) (body : A → S → M S) (s : S) : M S :=
  match l with
  | [] => mret s
  | a :: l' => s' ← body a s; for_M l' body s'
  end.

Definition _compute_weights (compute_free_parameter : bool) : M unit :=
  self ← get;
  let n := self_n self in
  let std := map fsqrt (np_diag (self_P self)) in
  Sv ← lift (items (self_S self));
  S_ ← lift (broadcast fdiv Sv (map (λ v, v * v * v)%num std));
  Kv ← lift (items (self_K self));
  K_ ← lift (broadcast fdiv Kv (map (λ v, v * v * v * v)%num std));
  let w := replicate (2 * n + 1) f0 in
  w ← for_M (seq 1 n) (λ i w,
    let i_ := i - 1 in
    (if compute_free_parameter then
       Si ← lift (getitem S_ i_);
       Ki ← lift (getitem K_ i_);
       set_s i (fhalf * (- Si + fsqrt (fnat 4 * Ki - fnat 3 * (Si * Si))))%num
     else mret ());;
    si ← get_s i;
    Si ← lift (getitem S_ i_);
    set_s (i + n) (si + Si)%num;;
    sin ← get_s (i + n);
    si ← get_s i;
    w ← setitem w (i + n) (f1 / (sin * (si + sin)))%num;
    win ← lift (getitem w (i + n));
    setitem w i (sin / si * win)%num) w;
  w ← setitem w 0 (f1 - np_sum w)%num;
  set_weights w.

(** The loop that [sigma_points] runs, and runs again after the correction:
    [[
    for i in range(1, self.n+1):
        i_ = i-1
        sigmas[0]   = x
        sigmas[i]   = x - self.s[i  ]*np.sqrt(P[:, i_])
        sigmas[i+n] = x + self.s[i+n]*np.sqrt(P[:, i_])
    ]] *)
Definition fill_sigmas (x : pyvalue F) (P : list (list F))
    (sigmas : list (list F)) : M (list (list F)) :=
  self ← get;
  let n := self_n self in
  for_M (seq 1 n) (λ i sigmas,
    let i_ := i - 1 in
    xv ← lift (items x);
    sigmas ← lift (set_row 0 xv sigmas);
    si ← get_s i;
    c ← lift (column P (Z.of_nat i_));
    r ← lift (broadcast fsub xv (vscale si (map fsqrt c)));
    sigmas ← lift (set_row i r sigmas);
    sin ← get_s (i + n);
    c ← lift (column P (Z.of_nat i_));
    r ← lift (broadcast fadd xv (vscale sin (map fsqrt c)));
    lift (set_row (i + n) r sigmas)) sigmas.

Definition _redefine_scale_param (sigmas : list (list F)) : M unit :=
  for_M (seq 0 (length sigmas)) (λ i (_ : unit),
    let i_ := (Z.of_nat i - 1)%Z in
    row ← lift (getitem sigmas i);
    m ← lift (np_min row);
    if fltb m f0 then
      self ← get;
      c ← lift (column (map (map fsqrt) (self_P self)) i_);
      xv ← lift (items (self_x self));
      q ← lift (broadcast fdiv xv c);
      m ← lift (np_min q);
      k ← lift (from_option Ok (Raise TypeError) (self_k self));
      set_s i (k * m)%num
    else mret ()) ().

Definition sigma_points (x : pyvalue F) (P : pycov F) : M (list (list F)) :=
  self ← get;
  if decide (self_n self ≠ np_size x) then raise ValueError else
  let n := self_n self in
  let x := asarray_if_scalar x in
  let P := as_matrix n P in
  c ← lift (py_ne x (self_x self) ≫= truth);
  if c : bool then raise Warning else
  c ← lift (py_ne x (self_x self) ≫= truth);
  if c : bool then raise Warning else
  let sigmas := zeros (2 * n + 1) n in
  sigmas ← fill_sigmas x P sigmas;
  if self_positively_constrained self then
    _redefine_scale_param sigmas;;
    _compute_weights false;;
    fill_sigmas x P sigmas
  else mret sigmas.

(** The attributes that [__init__] assigns before its first method call;
    [Wm] and [Wc] do not exist yet. *)
Definition attributes (n : nat) (P : list (list F)) (S K : pyvalue F)
    (positively_constrained : bool) (k : option F) (x : pyvalue F) : t :=
  {| self_n := n; self_x := x; self_P := P; self_S := S; self_K := K;
     self_k := k; self_positively_constrained := positively_constrained;
     self_s := replicate (2 * n + 1) f0; self_Wm := []; self_Wc := [] |}.

Definition __init__ (n : nat) (P : pycov F) (S K : pyvalue F)
    (positively_constrained : bool) (k : option F) (x : pyvalue F)
  : res t :=
  let x := asarray_if_scalar x in
  let P := as_matrix n P in
  let S := asarray_if_scalar S in
  let K := asarray_if_scalar K in
  let self := attributes n P S K positively_constrained k x in
  match (_compute_weights true;;
         if positively_constrained
         then sigma_points x (CovMatrix P);; mret ()
         else mret ()) self with
  | (Ok _, self) => Ok self
  | (Raise e, _) => Raise e
  end.

Definition num_sigmas (self : t) : nat := 2 * self_n self + 1.

(** What a method call does, as a predicate on the instance it is called
    on: when the call returns [a] the instance it leaves satisfies [post a],
    and when it raises [e] the instance it leaves satisfies [exc e]. *)
Definition wp {A} (m : M A) (post : A → t → Prop) (exc : exn → t → Prop)
    (self : t) : Prop :=
  match m self with
  | (Ok a, self') => post a self'
  | (Raise e, self') => exc e self'
  end.

(** The rows that the loop of [sigma_points] assigns, for an [n]-by-[n]
    covariance: row [0] is the mean, and for [1 <= i <= n] row [i] is
    [x - s[i] * sqrt(P[:, i-1])] and row [i+n] is
    [x + s[i+n] * sqrt(P[:, i-1])]. *)
Definition filled (self : t) (P : list (list F)) (xv : list F)
    (j : nat) (sig : list (list F)) : Prop :=
  let n := self_n self in
  length sig = 2 * n + 1 ∧
  Forall (λ r, length r = n) sig ∧
  (1 ≤ j → sig !! 0 = Some xv) ∧
  ∀ i, 1 ≤ i ≤ j →
    ∃ si sin c,
      self_s self !! i = Some si ∧
      self_s self !! (i + n) = Some sin ∧
      column P (Z.of_nat (i - 1)) = Ok c ∧
      sig !! i = Some (zip_with fsub xv (vscale si (map fsqrt c))) ∧
      sig !! (i + n) = Some (zip_with fadd xv (vscale sin (map fsqrt c))).

(** What [_redefine_scale_param] leaves in [self.s[i]] for a row
    [1 <= i <= n] of the first pass: [k * min(self.x / sqrt(self.P)[:, i-1])]
    when the row has a negative minimum, and the former value otherwise. *)
Definition redefined (self : t) (sig : list (list F)) (xv : list F)
    (k : F) (s' : list F) (i : nat) : Prop :=
  ∃ row m,
    sig !! i = Some row ∧ np_min row = Ok m ∧
    if fltb m f0 then
      ∃ c q mq,
        column (map (map fsqrt) (self_P self)) (Z.of_nat i - 1) = Ok c ∧
        broadcast fdiv xv c = Ok q ∧ np_min q = Ok mq ∧
        s' !! i = Some (k * mq)%num
    else s' !! i = self_s self !! i.

End code.
Arguments t F : clear implicits.
End GeneralizedSigmaPoints.

(** ** The four generators behind their common interface

    The classes share no base class; a caller uses any of them through
    [sigma_points], [num_sigmas], [Wm] and [Wc]. *)

Section interface.
Context {F : Type} `{Num F}.

Inductive generator : Type :=
  | Scaled (g : MerweScaledSigmaPoints.t F)
  | Symmetric (g : JulierSigmaPoints.t F)
  | Simplex (g : SimplexSigmaPoints.t F)
  | MomentMatched (g : GeneralizedSigmaPoints.t F).

Definition dimension (gen : generator) : nat :=
  match gen with
  | Scaled g => MerweScaledSigmaPoints.self_n g
  | Symmetric g => JulierSigmaPoints.self_n g
  | Simplex g => SimplexSigmaPoints.self_n g
  | MomentMatched g => GeneralizedSigmaPoints.self_n g
  end.

Definition Wm (gen : generator) : list F :=
  match gen with
  | Scaled g => MerweScaledSigmaPoints.self_Wm g
  | Symmetric g => JulierSigmaPoints.self_Wm g
  | Simplex g => SimplexSigmaPoints.self_Wm g
  | MomentMatched g => GeneralizedSigmaPoints.self_Wm g
  end.

Definition Wc (gen : generator) : list F :=
  match gen with
  | Scaled g => MerweScaledSigmaPoints.self_Wc g
  | Symmetric g => JulierSigmaPoints.self_Wc g
  | Simplex g => SimplexSigmaPoints.self_Wc g
  | MomentMatched g => GeneralizedSigmaPoints.self_Wc g
  end.

(** A call [gen.sigma_points(x, P)]: its result, and the generator after
    the call. *)
Definition sigma_points (gen : generator) (x : pyvalue F) (P : pycov F)
  : res (list (list F)) * generator :=
  match gen with
  | Scaled g => (MerweScaledSigmaPoints.sigma_points g x P, gen)
  | Symmetric g => (JulierSigmaPoints.sigma_points g x P, gen)
  | Simplex g => (SimplexSigmaPoints.sigma_points g x P, gen)
  | MomentMatched g =>
      let '(r, g') := GeneralizedSigmaPoints.sigma_points x P g in
      (r, MomentMatched g')
  end.

(** The generators a program can hold: built by a constructor that returned,
    and then used through [sigma_points] any number of times, calls that
    raise included. *)
Inductive reachable : generator → Prop :=
  | reach_Scaled n alpha beta kappa sqrt_method subtract g :
      MerweScaledSigmaPoints.__init__ n alpha beta kappa sqrt_method subtract
        = Ok g →
      reachable (Scaled g)
  | reach_Symmetric n kappa sqrt_method subtract g :
      JulierSigmaPoints.__init__ n kappa sqrt_method subtract = Ok g →
      reachable (Symmetric g)
  | reach_Simplex n alpha sqrt_method subtract :
      reachable
        (Simplex (SimplexSigmaPoints.__init__ n alpha sqrt_method subtract))
  | reach_MomentMatched n P S K positively_constrained k x g :
      GeneralizedSigmaPoints.__init__ n P S K positively_constrained k x
        = Ok g →
      reachable (MomentMatched g)
  | reach_call gen x P r gen' :
      reachable gen →
      sigma_points gen x P = (r, gen') →
      reachable gen'.

(** The sums that the unscented transform forms from the points and the
    weights, entry by entry: the mean [sum_k W[k] * sigmas[k]], and the
    covariance [sum_k W[k] * outer(sigmas[k] - x, sigmas[k] - x)]. *)
Definition at_ (v : list F) (j : nat) : F := default f0 (v !! j).

Definition weighted_mean (n : nat) (W : list F) (sigmas : list (list F))
  : list F :=
  map (λ j, np_sum (zip_with (λ w s, w * at_ s j)%num W sigmas)) (seq 0 n).

Definition weighted_covariance (n : nat) (W : list F)
    (sigmas : list (list F)) (x : list F) : list (list F) :=
  map (λ i,
    map (λ j,
      np_sum (zip_with
                (λ w s, w * ((at_ s i - at_ x i) * (at_ s j - at_ x j)))%num
                W sigmas))
      (seq 0 n))
    (seq 0 n).

End interface.
Arguments generator F : clear implicits.

(** ** Notions used in the statements of the properties *)

Section notions.
Context {F : Type} `{Num F}.

(** [gen.num_sigmas()] *)
Definition num_sigmas (gen : generator F) : nat :=
  match gen with
  | Scaled g => MerweScaledSigmaPoints.num_sigmas g
  | Symmetric g => JulierSigmaPoints.num_sigmas g
  | Simplex g => SimplexSigmaPoints.num_sigmas g
  | MomentMatched g => GeneralizedSigmaPoints.num_sigmas g
  end.

(** A two-dimensional array of [r] rows and [c] columns. *)
Definition shape (r c : nat) (m : list (list F)) : Prop :=
  length m = r ∧ Forall (λ row, length row = c) m.

(** The matrix [Istar] that [SimplexSigmaPoints.sigma_points] builds for the
    dimension [n], when its loop ends. *)
Definition simplex_Istar (n : nat) : list (list F) :=
  let lambda_ := (fnat n / fnat (n + 1))%num in
  foldl (λ Istar d, SimplexSigmaPoints.Istar_step lambda_ d Istar)
        [[(- f1 / fsqrt (fnat 2 * lambda_))%num;
          (f1 / fsqrt (fnat 2 * lambda_))%num]]
        (seq 2 (n - 1)).

(** The product [a . b] of two one-dimensional arrays. *)
Definition rdot (a b : list F) : F := np_sum (zip_with fmul a b).

(** The rows of a matrix are pairwise orthogonal, each with square norm
    [g]. *)
Fixpoint orthogonal_rows (g : F) (m : list (list F)) : Prop :=
  match m with
  | [] => True
  | r :: m' =>
      rdot r r = g ∧ Forall (λ r', rdot r r' = f0) m' ∧ orthogonal_rows g m'
  end.

Import GeneralizedSigmaPoints.

(** Weights of which the first is one minus the sum of the others, as
    [w[0] = 1 - np.sum(w)] leaves them when [w[0]] was zero. *)
Definition normalised (W : list F) : Prop :=
  ∃ w, w !! 0 = Some f0 ∧ W = <[0 := (f1 - np_sum w)%num]> w.

(** The weights of a [GeneralizedSigmaPoints] that a program can hold:
    [2n+1] of them, [Wc] the same array as [Wm]. *)
Definition weights_ok (g : t F) : Prop :=
  length (self_Wm g) = 2 * self_n g + 1 ∧ self_Wc g = self_Wm g.

(** The scale parameters and weights of an instance as [_compute_weights]
    leaves them: [2n+1] of each and, for [1 <= i <= n],
    [Wm[i+n] = 1/(s[i+n]*(s[i] + s[i+n]))] and
    [Wm[i] = s[i+n]/s[i] * Wm[i+n]]; [Wm[0]] is one minus the sum of the
    other weights, and [Wc] is the same array as [Wm]. *)
Definition balanced (g : t F) : Prop :=
  let n := self_n g in
  length (self_s g) = 2 * n + 1 ∧
  length (self_Wm g) = 2 * n + 1 ∧
  self_Wc g = self_Wm g ∧
  self_Wm g !! 0
    = Some (f1 - np_sum (<[0 := f0]> (self_Wm g)))%num ∧
  ∀ i, 1 ≤ i ≤ n → ∃ si sin win,
    self_s g !! i = Some si ∧ self_s g !! (i + n) = Some sin ∧
    self_Wm g !! (i + n) = Some win ∧
    self_Wm g !! i = Some (sin / si * win)%num ∧
    win = (f1 / (sin * (si + sin)))%num.

(** The instance with the same attributes, but
    [positively_constrained = False]. *)
Definition unconstrained (self : t F) : t F :=
  {| self_n := self_n self; self_x := self_x self; self_P := self_P self;
     self_S := self_S self; self_K := self_K self; self_k := self_k self;
     self_positively_constrained := false;
     self_s := self_s self; self_Wm := self_Wm self; self_Wc := self_Wc self |}.

(** An instance that [_compute_weights(False)] reproduces: the call returns
    and leaves [s], [Wm] and [Wc] as they are; and [s] has [2n+1]
    elements. *)
Definition settled (g : t F) : Prop :=
  _compute_weights false g = (Ok (), g) ∧
  length (self_s g) = 2 * self_n g + 1.
End notions.

Section example_instance.
Import GeneralizedSigmaPoints.
Open Scope R_scope.

(** An unconstrained instance of dimension one over the reals, with the
    values that [_compute_weights] gives for [P=1], [S=0], [K=1]:
    [s = [0, 1, 1]] and [Wm = Wc = [0, 1/2, 1/2]]; its stored mean is
    [5]. *)
Definition unit_instance : t R :=
  {| self_n := 1; self_x := NdArray [5]; self_P := [[1]];
     self_S := NdArray [0]; self_K := NdArray [1]; self_k := None;
     self_positively_constrained := false;
     self_s := [0; 1; 1]; self_Wm := [0; / 2; / 2]; self_Wc := [0; / 2; / 2] |}.

End example_instance.

(** * Properties *)

(** Evaluates the tests [decide P] of the goal whose [P] is settled by
    computation or linear arithmetic. *)
Ltac decide_eval :=
  repeat match goal with
    | |- context [decide ?P] =>
        first [ rewrite (decide_True (P := P))
                  by (cbn; first [lia | done | repeat constructor])
              | rewrite (decide_False (P := P)) by (cbn; first [lia | done]) ]
    end.

(** ** Weights of [MerweScaledSigmaPoints] *)

Section merwe_weights.
Context {F : Type} `{Num F}.
Import MerweScaledSigmaPoints.

(** C3. When [alpha**2] has the value [a2] and [n + lambda] is not zero, for
    [lambda = a2*(n + kappa) - n], the constructor returns, and the weights
    it computed are: [Wm[0] = lambda/(n+lambda)],
    [Wc[0] = lambda/(n+lambda) + (1 - a2 + beta)], and
    [Wm[i] = Wc[i] = c = .5/(n+lambda)] for every [i >= 1]; both arrays have
    [2n+1] entries. *)
Theorem merwe_weights_formula (n : nat) (alpha beta kappa a2 : F)
    sqrt_method subtract :
  let lam := (a2 * (fnat n + kappa) - fnat n)%num in
  let c := (fhalf / (fnat n + lam))%num in
  fpow2 alpha = Ok a2 →
  feqb (fnat n + lam)%num f0 = false →
  ∃ g, __init__ n alpha beta kappa sqrt_method subtract = Ok g ∧
       length (self_Wm g) = 2 * n + 1 ∧
       length (self_Wc g) = 2 * n + 1 ∧
       self_Wm g !! 0 = Some (lam / (fnat n + lam))%num ∧
       self_Wc g !! 0
         = Some (lam / (fnat n + lam) + (f1 - a2 + beta))%num ∧
       ∀ i, 1 ≤ i ≤ 2 * n →
            self_Wm g !! i = Some c ∧ self_Wc g !! i = Some c.
Proof.
  intros lam c Hpow Hnz.
  unfold __init__, _compute_weights, pydiv. rewrite Hpow.
  cbn [mbind res_bind]. fold lam. rewrite Hnz. cbn [mbind res_bind].
  eexists. split; [reflexivity|]. cbn [self_Wm self_Wc].
  rewrite !length_insert, !length_replicate.
  repeat split; try lia.
  - apply list_lookup_insert_eq. rewrite length_replicate. lia.
  - apply list_lookup_insert_eq. rewrite length_replicate. lia.
  - rewrite list_lookup_insert_ne by lia.
    apply lookup_replicate_2. lia.
  - rewrite list_lookup_insert_ne by lia.
    apply lookup_replicate_2. lia.
Qed.

End merwe_weights.

(** An instance on binary64 numbers: [n=1], [alpha=0.5], [beta=2],
    [kappa=1], for which [lambda = -0.5]. *)
Lemma merwe_weights_formula_witness :
  ∃ g, MerweScaledSigmaPoints.__init__ 1 0.5%float 2%float 1%float None None
         = Ok g ∧
       MerweScaledSigmaPoints.self_Wm g !! 0 = Some (-1)%float ∧
       MerweScaledSigmaPoints.self_Wc g !! 0 = Some 1.75%float ∧
       MerweScaledSigmaPoints.self_Wm g !! 1 = Some 1%float.
Proof.
  destruct (merwe_weights_formula 1 0.5%float 2%float 1%float 0.25%float
              None None)
    as (g & Hg & _ & _ & Hm & Hc & Hi).
  - reflexivity.
  - reflexivity.
  - exists g. split; [exact Hg|]. split; [exact Hm|]. split; [exact Hc|].
    apply (Hi 1). lia.
Defined.

(** With [alpha = 1e200] the power is out of range, and the constructor
    raises [OverflowError]. *)
Lemma merwe_constructor_overflow :
  MerweScaledSigmaPoints.__init__ 1 1e200%float 2%float 0%float None None
  = Raise OverflowError.
Proof. vm_compute. reflexivity. Qed.

(** ** The dimension check *)

Section dimension_check.
Context {F : Type} `{Num F}.

(** C5. Each of the four generators, called with a mean whose element count
    is not its dimension [n], raises [ValueError]; nothing else has been
    computed (the injected [sqrt] and [subtract] are not called, and the
    generator is left as it was). *)
Theorem dimension_mismatch_raises (gen : generator F) (x : pyvalue F)
    (P : pycov F) :
  np_size x ≠ dimension gen →
  sigma_points gen x P = (Raise ValueError, gen).
Proof.
  intros Hsize. destruct gen as [g|g|g|g]; cbn in *.
  - unfold MerweScaledSigmaPoints.sigma_points.
    case_decide; [reflexivity|congruence].
  - unfold JulierSigmaPoints.sigma_points.
    case_decide; [reflexivity|congruence].
  - unfold SimplexSigmaPoints.sigma_points.
    case_decide; [reflexivity|congruence].
  - unfold GeneralizedSigmaPoints.sigma_points, mbind,
      GeneralizedSigmaPoints.M_bind, GeneralizedSigmaPoints.get. cbn.
    case_decide; [reflexivity|congruence].
Qed.

End dimension_check.

Lemma dimension_mismatch_raises_witness :
  sigma_points
    (Simplex (SimplexSigmaPoints.__init__ 2 1%float None None))
    (NdArray [1%float; 2%float; 3%float]) (CovScalar 1%float)
  = (Raise ValueError,
     Simplex (SimplexSigmaPoints.__init__ 2 1%float None None)).
Proof.
  apply dimension_mismatch_raises. cbn. lia.
Defined.

Section julier_example.
Import JulierSigmaPoints.
Open Scope R_scope.

Lemma Rltb_true (a b : R) : a < b → Rltb a b = true.
Proof. intros. unfold Rltb. destruct (Rlt_dec a b); [reflexivity|lra]. Qed.
Lemma Rltb_false (a b : R) : b <= a → Rltb a b = false.
Proof. intros. unfold Rltb. destruct (Rlt_dec a b); [lra|reflexivity]. Qed.
Lemma Reqb_true (a b : R) : a = b → Reqb a b = true.
Proof. intros. unfold Reqb. destruct (Req_dec_T a b); [reflexivity|lra]. Qed.
Lemma Reqb_false (a b : R) : a ≠ b → Reqb a b = false.
Proof. intros. unfold Reqb. destruct (Req_dec_T a b); [contradiction|reflexivity]. Qed.

Lemma cholesky_diag2 (a : R) :
  0 < a → cholesky [[a; 0]; [0; a]] = Ok [[sqrt a; 0]; [0; sqrt a]].
Proof.
  intros Ha. unfold cholesky.
  case_decide as Hsq; [|exfalso; apply Hsq; repeat constructor].
  cbn. unfold chol_row, chol_dot, entry, np_sum. cbn.
  rewrite Rltb_true by lra. cbn.
  replace ((0 - 0) / sqrt (a - 0)) with 0 by (unfold Rdiv; ring).
  replace (a - (0 + 0 * 0)) with a by ring.
  replace (a - 0) with a by ring.
  rewrite Rltb_true by lra. reflexivity.
Qed.

(** C8. [JulierSigmaPoints(n=2, kappa=0)] with the default [sqrt] and
    [subtract]: the weights are [0] for the mean point and [0.25] for the
    four others, for [Wm] and for [Wc]; [sigma_points([0,0], identity)]
    returns five points, the mean [[0,0]] first, then [+sqrt(2)] along the
    first and the second axis, then [-sqrt(2)] along the first and the second
    axis. *)
Theorem julier_example :
  ∃ g, __init__ 2 0 None None = Ok g ∧
       self_Wm g = [0; 0.25; 0.25; 0.25; 0.25] ∧
       self_Wc g = [0; 0.25; 0.25; 0.25; 0.25] ∧
       sigma_points g (PyList [0; 0]) (CovMatrix [[1; 0]; [0; 1]])
       = Ok [[0; 0]; [sqrt 2; 0]; [0; sqrt 2]; [- sqrt 2; 0]; [0; - sqrt 2]].
Proof.
  unfold __init__, _compute_weights, pydiv. cbn.
  rewrite Reqb_false by lra. cbn.
  eexists. split; [reflexivity|]. cbn.
  split; [|split].
  - repeat f_equal; lra.
  - repeat f_equal; lra.
  - unfold sigma_points. cbn.
    match goal with
    | |- context [cholesky ?m] =>
        replace m with [[2; 0]; [0; 2]] by (repeat f_equal; lra)
    end.
    rewrite cholesky_diag2 by lra.
    repeat (progress (unfold np_subtract, broadcast; cbn; decide_eval)).
    repeat f_equal; lra.
Qed.

End julier_example.

(** ** Sums of real numbers *)

Section sum_of_weights.
Open Scope R_scope.

Lemma foldl_Rplus (a : R) (l : list R) : foldl Rplus a l = a + np_sum l.
Proof.
  unfold np_sum. revert a. induction l as [|b l IH]; intros a; cbn.
  - lra.
  - rewrite (IH (a + b)), (IH (0 + b)). lra.
Qed.

Lemma np_sum_cons (a : R) (l : list R) : np_sum (a :: l) = a + np_sum l.
Proof. unfold np_sum at 1. cbn. rewrite foldl_Rplus. lra. Qed.

Lemma np_sum_replicate (k : nat) (c : R) : np_sum (replicate k c) = INR k * c.
Proof.
  induction k as [|k IH].
  - unfold np_sum. cbn. lra.
  - rewrite S_INR. cbn [replicate]. rewrite np_sum_cons, IH. lra.
Qed.

Lemma np_sum_full_insert (k : nat) (q c : R) :
  np_sum (<[0%nat := q]> (replicate (2 * k + 1) c)) = q + 2 * INR k * c.
Proof.
  replace (2 * k + 1)%nat with (S (2 * k)) by lia. cbn [replicate insert list_insert].
  rewrite np_sum_cons, np_sum_replicate, mult_INR. cbn. lra.
Qed.

Lemma Reqb_false_inv (a b : R) : Reqb a b = false → a ≠ b.
Proof. unfold Reqb. destruct (Req_dec_T a b); [discriminate|done]. Qed.

End sum_of_weights.

(** ** Reasoning about the methods of [GeneralizedSigmaPoints] *)

Section method_rules.
Context {F : Type} `{Num F}.
Import GeneralizedSigmaPoints.
Implicit Types (self : t F) (E : exn → t F → Prop).

Lemma wp_bind {A B} (m : M A) (f : A → M B) Q E self :
  wp m (λ a self', wp (f a) Q E self') E self → wp (m ≫= f) Q E self.
Proof.
  unfold wp, mbind, M_bind. destruct (m self) as [[a|e] self']; done.
Qed.

Lemma wp_mono {A} (m : M A) (Q Q' : A → t F → Prop) E E' self :
  wp m Q E self →
  (∀ a self', Q a self' → Q' a self') →
  (∀ e self', E e self' → E' e self') →
  wp m Q' E' self.
Proof.
  unfold wp. destruct (m self) as [[a|e] self']; auto.
Qed.

Lemma wp_ret {A} (a : A) (Q : A → t F → Prop) E self :
  Q a self → wp (mret a) Q E self.
Proof. done. Qed.

Lemma wp_get (Q : t F → t F → Prop) E self : Q self self → wp get Q E self.
Proof. done. Qed.

Lemma wp_lift {A} (r : res A) (Q : A → t F → Prop) E self :
  match r with Ok a => Q a self | Raise e => E e self end →
  wp (lift r) Q E self.
Proof. unfold wp, lift. destruct r; done. Qed.

Lemma wp_raise {A} e (Q : A → t F → Prop) E self :
  E e self → wp (raise e) Q E self.
Proof. done. Qed.

Lemma wp_get_s i (Q : F → t F → Prop) E self :
  match self_s self !! i with
  | Some v => Q v self
  | None => E IndexError self
  end →
  wp (get_s i) Q E self.
Proof.
  intros HQ. unfold get_s. apply wp_bind, wp_get, wp_lift.
  unfold getitem. destruct (self_s self !! i); done.
Qed.

Lemma wp_set_s i v (Q : unit → t F → Prop) E self :
  match self_s self !! i with
  | Some _ => Q () (with_s self (<[i := v]> (self_s self)))
  | None => E IndexError self
  end →
  wp (set_s i v) Q E self.
Proof. unfold wp, set_s. destruct (self_s self !! i); done. Qed.

Lemma wp_setitem (w : list F) i v (Q : list F → t F → Prop) E self :
  match w !! i with
  | Some _ => Q (<[i := v]> w) self
  | None => E IndexError self
  end →
  wp (setitem w i v) Q E self.
Proof. unfold setitem. destruct (w !! i); done. Qed.

Lemma wp_set_weights w (Q : unit → t F → Prop) E self :
  Q () (with_weights self w w) → wp (set_weights w) Q E self.
Proof. done. Qed.

(** A loop, by an invariant of the elements already visited, the variables
    of the loop and the instance. *)
Lemma wp_for_prefix {A S} (body : A → S → M S)
    (I : list A → S → t F → Prop) E (l done : list A) s self :
  (∀ done' a s self, (∃ rest, done ++ l = done' ++ a :: rest) →
     I done' s self →
     wp (body a s) (λ s' self', I (done' ++ [a]) s' self') E self) →
  I done s self →
  wp (for_M l body s) (I (done ++ l)) E self.
Proof.
  revert done s self. induction l as [|a l IH]; intros done s self Hbody HI.
  - rewrite app_nil_r. exact HI.
  - cbn [for_M]. apply wp_bind.
    eapply wp_mono; [apply (Hbody done a s self); eauto| |done].
    intros s' self' HI'. cbn beta in HI'.
    replace (done ++ a :: l) with ((done ++ [a]) ++ l)
      by (rewrite <- app_assoc; done).
    apply IH; [|exact HI'].
    intros done' a' s0 self0 [rest Hrest]. apply Hbody.
    exists rest. rewrite <- Hrest, <- app_assoc. done.
Qed.

Lemma wp_for {A S} (body : A → S → M S) (I : S → t F → Prop) E
    (l : list A) s self :
  (∀ a s self, a ∈ l → I s self → wp (body a s) I E self) →
  I s self →
  wp (for_M l body s) I E self.
Proof.
  intros Hbody HI.
  apply (wp_for_prefix body (λ _, I) E l [] s self); [|exact HI].
  intros done' a s0 self0 [rest Hrest] HI0. apply Hbody; [|exact HI0].
  cbn in Hrest. rewrite Hrest. apply elem_of_app. right. left.
Qed.

(** The use of a [wp] fact on a call whose outcome is known. *)
Lemma wp_returns {A} (m : M A) (Q : A → t F → Prop) E self a self' :
  wp m Q E self → m self = (Ok a, self') → Q a self'.
Proof. unfold wp. intros HQ Hm. rewrite Hm in HQ. exact HQ. Qed.

Lemma wp_raises {A} (m : M A) (Q : A → t F → Prop) E self e self' :
  wp m Q E self → m self = (Raise e, self') → E e self'.
Proof. unfold wp. intros HQ Hm. rewrite Hm in HQ. exact HQ. Qed.

End method_rules.

(** One step of a method: the rule of its first instruction. *)
Ltac wp_step :=
  lazymatch goal with
  | |- GeneralizedSigmaPoints.wp (mbind _ _) _ _ _ => apply wp_bind
  | |- GeneralizedSigmaPoints.wp GeneralizedSigmaPoints.get _ _ _ =>
      apply wp_get
  | |- GeneralizedSigmaPoints.wp (mret _) _ _ _ => apply wp_ret
  | |- GeneralizedSigmaPoints.wp (GeneralizedSigmaPoints.raise _) _ _ _ =>
      apply wp_raise
  | |- GeneralizedSigmaPoints.wp (GeneralizedSigmaPoints.get_s _) _ _ _ =>
      apply wp_get_s;
      lazymatch goal with |- match ?o with _ => _ end => destruct o eqn:? end
  | |- GeneralizedSigmaPoints.wp (GeneralizedSigmaPoints.set_s _ _) _ _ _ =>
      apply wp_set_s;
      lazymatch goal with |- match ?o with _ => _ end => destruct o eqn:? end
  | |- GeneralizedSigmaPoints.wp (GeneralizedSigmaPoints.setitem _ _ _) _ _ _ =>
      apply wp_setitem;
      lazymatch goal with |- match ?o with _ => _ end => destruct o eqn:? end
  | |- GeneralizedSigmaPoints.wp (GeneralizedSigmaPoints.set_weights _) _ _ _ =>
      apply wp_set_weights
  | |- GeneralizedSigmaPoints.wp (GeneralizedSigmaPoints.lift ?r) _ _ _ =>
      apply wp_lift; destruct r eqn:?
  | |- GeneralizedSigmaPoints.wp (if ?b then _ else _) _ _ _ =>
      destruct b eqn:?
  end.

Section generalized_frame.
Context {F : Type} `{Num F}.
Import GeneralizedSigmaPoints.

(** [fill_sigmas] assigns no attribute. *)
Lemma fill_sigmas_pure x P sigmas (self : t F) :
  wp (fill_sigmas x P sigmas) (λ _ g, g = self) (λ _ g, g = self) self.
Proof.
  unfold fill_sigmas. do 2 wp_step.
  apply (wp_for _ (λ _ g, g = self)); [|done].
  intros i sig g _ ->. repeat (wp_step; try done).
Qed.

(** [_redefine_scale_param] assigns [self.s] only. *)
Lemma redefine_scale_param_frame (I : t F → Prop) sigmas (self : t F) :
  (∀ g s, I g → I (with_s g s)) →
  I self →
  wp (_redefine_scale_param sigmas) (λ _ g, I g) (λ _ g, I g) self.
Proof.
  intros Hs HI. unfold _redefine_scale_param.
  apply (wp_for _ (λ _ g, I g)); [|done].
  intros i [] g _ Hg. repeat (wp_step; try done). apply Hs, Hg.
Qed.

End generalized_frame.

(** ** The mean weights sum to one *)

Section normalised_weights.
Context {F : Type} `{Num F}.
Import GeneralizedSigmaPoints.

(** [_compute_weights] leaves [Wm[0]] equal to one minus the sum of the
    other weights when it returns, and [Wm] as it was when it raises. *)
Lemma compute_weights_normalised (b : bool) (W : list F) (self : t F) :
  self_Wm self = W →
  wp (_compute_weights b) (λ _ g, normalised (self_Wm g))
     (λ _ g, self_Wm g = W) self.
Proof.
  intros HW. unfold _compute_weights.
  do 2 wp_step. do 8 (wp_step; try done). wp_step.
  eapply wp_mono;
    [apply (wp_for _ (λ w g, self_Wm g = W ∧ w !! 0 = Some f0)
                     (λ _ g, self_Wm g = W))| |].
  - intros i w g Hi [Hg Hw]. apply elem_of_seq in Hi.
    wp_step.
    eapply wp_mono with (Q := λ _ g, self_Wm g = W)
                        (E := λ _ g, self_Wm g = W).
    { destruct b; repeat (wp_step; try done). }
    2: done.
    intros _ g1 Hg1. cbn beta.
    repeat (wp_step; try done).
    split; [done|].
    rewrite !list_lookup_insert_ne by lia. exact Hw.
  - split; [done|]. apply lookup_replicate_2. lia.
  - cbn beta. intros w g [Hg Hw].
    repeat (wp_step; try done).
    cbn [self_Wm with_weights]. exists w. split; [congruence|reflexivity].
  - cbn beta. tauto.
Qed.

Lemma sigma_points_normalised x P (self : t F) :
  normalised (self_Wm self) →
  wp (GeneralizedSigmaPoints.sigma_points x P)
     (λ _ g, normalised (self_Wm g)) (λ _ g, normalised (self_Wm g)) self.
Proof.
  intros Hsum. unfold GeneralizedSigmaPoints.sigma_points.
  do 2 wp_step. case_decide; [by wp_step|].
  repeat (wp_step; try done).
  eapply wp_mono; [apply fill_sigmas_pure| |]; cbn beta; [|by intros ? ? ->].
  intros sigmas ? ->.
  destruct (self_positively_constrained self); [|by wp_step].
  wp_step.
  eapply wp_mono;
    [apply (redefine_scale_param_frame (λ g, self_Wm g = self_Wm self))| |];
    cbn beta; [done|done| |by intros ? ? ->].
  intros _ g1 Hg1. wp_step.
  eapply wp_mono;
    [apply (compute_weights_normalised false (self_Wm g1)); done| |];
    cbn beta; [|by intros ? ? ->; rewrite Hg1].
  intros _ g2 Hg2.
  eapply wp_mono; [apply fill_sigmas_pure| |]; cbn beta; by intros; subst.
Qed.

Lemma generalized_init_normalised n P S K pc k x (g : t F) :
  __init__ n P S K pc k x = Ok g → normalised (self_Wm g).
Proof.
  unfold __init__.
  set (self0 := attributes _ _ _ _ _ _ _).
  set (m := (_ ;; _)).
  assert (Hwp : wp m (λ _ g, normalised (self_Wm g)) (λ _ _, True) self0).
  { unfold m. wp_step.
    eapply wp_mono; [apply (compute_weights_normalised true []); done| |done].
    cbn beta. intros _ g1 Hg1. destruct pc; [|by wp_step].
    wp_step. eapply wp_mono; [apply sigma_points_normalised, Hg1| |done].
    cbn beta. intros _ g2 Hg2. by wp_step. }
  unfold wp in Hwp. destruct (m self0) as [[[]|e] g']; [|done].
  by intros [= <-].
Qed.

(** The mean weights that the constructors of [MerweScaledSigmaPoints] and
    [JulierSigmaPoints] leave. *)
Lemma merwe_init_Wm n (alpha beta kappa : F) sqrt_method subtract g :
  MerweScaledSigmaPoints.__init__ n alpha beta kappa sqrt_method subtract
    = Ok g →
  ∃ a2, fpow2 alpha = Ok a2 ∧
    let lam := (a2 * (fnat n + kappa) - fnat n)%num in
    MerweScaledSigmaPoints.self_Wm g
    = <[0 := (lam / (fnat n + lam))%num]>
        (replicate (2 * n + 1) (fhalf / (fnat n + lam))%num).
Proof.
  unfold MerweScaledSigmaPoints.__init__,
    MerweScaledSigmaPoints._compute_weights, pydiv.
  destruct (fpow2 alpha) as [a2|] eqn:Hpow; cbn [mbind res_bind]; [|done].
  destruct (feqb _ f0); cbn [mbind res_bind]; [done|].
  intros [= <-]. by exists a2.
Qed.

Lemma julier_init_Wm n (kappa : F) sqrt_method subtract g :
  JulierSigmaPoints.__init__ n kappa sqrt_method subtract = Ok g →
  JulierSigmaPoints.self_Wm g
  = <[0 := (kappa / (fnat n + kappa))%num]>
      (replicate (2 * n + 1) (fhalf / (fnat n + kappa))%num).
Proof.
  unfold JulierSigmaPoints.__init__, JulierSigmaPoints._compute_weights,
    pydiv.
  destruct (feqb _ f0); cbn [mbind res_bind]; [done|].
  by intros [= <-].
Qed.

(** The mean weights of every generator a program can hold: [Wm[0]] is one
    minus the sum of the others for a [GeneralizedSigmaPoints], and the
    other three have the weights of their constructors. *)
Lemma reachable_Wm (gen : generator F) :
  reachable gen →
  match gen with
  | Scaled g =>
      ∃ n a2 kappa,
        let lam := (a2 * (fnat n + kappa) - fnat n)%num in
        MerweScaledSigmaPoints.self_Wm g
        = <[0 := (lam / (fnat n + lam))%num]>
            (replicate (2 * n + 1) (fhalf / (fnat n + lam))%num)
  | Symmetric g =>
      ∃ n kappa,
        JulierSigmaPoints.self_Wm g
        = <[0 := (kappa / (fnat n + kappa))%num]>
            (replicate (2 * n + 1) (fhalf / (fnat n + kappa))%num)
  | Simplex g =>
      ∃ n, SimplexSigmaPoints.self_Wm g
           = replicate (n + 1) (f1 / fnat (n + 1))%num
  | MomentMatched g => normalised (self_Wm g)
  end.
Proof.
  induction 1 as [n alpha beta kappa sq sub g Hg|n kappa sq sub g Hg
                 |n alpha sq sub|n P S K pc k x g Hg|gen x P r gen' _ IH Hcall].
  - destruct (merwe_init_Wm _ _ _ _ _ _ _ Hg) as (a2 & _ & HWm).
    by exists n, a2, kappa.
  - exists n, kappa. by apply (julier_init_Wm _ _ sq sub).
  - by exists n.
  - by eapply generalized_init_normalised.
  - destruct gen as [g|g|g|g]; cbn in Hcall; try (by injection Hcall as _ <-).
    pose proof (sigma_points_normalised x P g IH) as Hwp. unfold wp in Hwp.
    destruct (GeneralizedSigmaPoints.sigma_points x P g) as [[sig|e] g'];
      by injection Hcall as _ <-.
Qed.

End normalised_weights.

Section sum_of_weights_theorem.
Open Scope R_scope.

Lemma np_sum_insert_0 (w : list R) :
  w !! 0%nat = Some 0 → np_sum (<[0%nat := 1 - np_sum w]> w) = 1.
Proof.
  destruct w as [|a w]; [done|]. intros [= ->]. cbn [insert list_insert].
  rewrite !np_sum_cons. lra.
Qed.

(** Numbers that all have a value, and their sum. *)
Lemma exact_values (W : list (option R)) :
  Forall is_Some W → ∃ rs, W = map Some rs.
Proof.
  induction 1 as [|a W [r ->] _ [rs ->]]; [by exists []|].
  by exists (r :: rs).
Qed.

Lemma np_sum_exact (rs : list R) : np_sum (map Some rs) = Some (np_sum rs).
Proof.
  unfold np_sum. change f0 with (Some 0) at 1. change f0 with 0.
  generalize 0. induction rs as [|r rs IH]; intros a; [done|].
  cbn [map foldl]. exact (IH (a + r)).
Qed.

Lemma normalised_exact_sum (W : list (option R)) :
  normalised W → Forall is_Some W → np_sum W = Some 1.
Proof.
  intros (w & Hw0 & ->) HW.
  destruct w as [|w0 w']; [done|]. injection Hw0 as ->.
  cbn [insert list_insert] in *.
  inversion HW as [|? ? Hhead Htail]; subst.
  destruct (exact_values _ Htail) as [rs ->].
  change (Some 0 :: map Some rs) with (map Some (0 :: rs)) in *.
  rewrite np_sum_exact in *.
  change (np_sum (map Some ((1 - np_sum (0 :: rs)) :: rs)) = Some 1).
  rewrite np_sum_exact, !np_sum_cons. f_equal. lra.
Qed.

(** A first weight [q = l/d] and [2n] weights [.5/d], with [d = n + l]. *)
Lemma full_insert_exact_sum (n : nat) (l : option R) :
  let d := (fnat n + l)%num in
  Forall is_Some (<[0%nat := (l / d)%num]>
                    (replicate (2 * n + 1) (fhalf / d)%num)) →
  np_sum (<[0%nat := (l / d)%num]> (replicate (2 * n + 1) (fhalf / d)%num))
  = Some 1.
Proof.
  intros d. unfold d.
  replace (2 * n + 1)%nat with (S (2 * n)) by lia.
  cbn [replicate insert list_insert]. intros HW.
  inversion HW as [|? ? [q Hq] _]; subst. clear HW.
  destruct l as [l|]; [|done]. cbn in Hq |- *.
  destruct (Reqb (INR n + l) 0) eqn:Hnz; [done|].
  apply Reqb_false_inv in Hnz.
  change (Some (l / (INR n + l)) :: replicate (2 * n) (Some (/ 2 / (INR n + l))))
    with (Some (l / (INR n + l))
            :: (Some <$> replicate (2 * n) (/ 2 / (INR n + l)))).
  rewrite <- fmap_replicate.
  change (np_sum (map Some (l / (INR n + l)
                             :: replicate (2 * n) (/ 2 / (INR n + l))))
          = Some 1).
  rewrite np_sum_exact, np_sum_cons, np_sum_replicate, mult_INR.
  f_equal. cbn. field. exact Hnz.
Qed.

(** C2, in exact arithmetic.  For every generator that a constructor
    returned, and for a [GeneralizedSigmaPoints] also after any number of
    calls of [sigma_points], which recompute the weights of a constrained
    instance: when every mean weight has a value, that is when no division
    by zero and no square root of a negative number was met on the way to
    it, the mean weights [Wm] sum to one. *)
Theorem mean_weights_sum_to_one (gen : generator (option R)) :
  reachable gen → Forall is_Some (Wm gen) → np_sum (Wm gen) = Some 1.
Proof.
  intros Hreach HW. pose proof (reachable_Wm gen Hreach) as Hform.
  destruct gen as [g|g|g|g]; cbn [Wm] in *.
  - destruct Hform as (n & a2 & kappa & Hform). cbn zeta in Hform.
    rewrite Hform in *. by apply full_insert_exact_sum.
  - destruct Hform as (n & kappa & Hform).
    rewrite Hform in *. by apply full_insert_exact_sum.
  - destruct Hform as (n & Hform). rewrite Hform in *. clear Hform HW.
    cbn. rewrite Reqb_false by (apply not_0_INR; lia).
    rewrite <- fmap_replicate.
    change (np_sum (map Some (replicate (n + 1) (1 / INR (n + 1)))) = Some 1).
    rewrite np_sum_exact, np_sum_replicate. f_equal. field.
    apply not_0_INR. lia.
  - by apply normalised_exact_sum.
Qed.

End sum_of_weights_theorem.


(** ** The points of [MerweScaledSigmaPoints] *)

Section loops.
Context {F : Type} `{Num F}.

(** A [for k in range(n0, n0+n)] loop whose body returns, by an invariant of
    the number of iterations done. *)
Lemma for_range_returns {S} (body : nat → S → res S) (I : nat → S → Prop)
    (n n0 : nat) (s : S) :
  (∀ j s, j < n → I j s → ∃ s', body (n0 + j) s = Ok s' ∧ I (Datatypes.S j) s') →
  I 0 s →
  ∃ s', for_in (seq n0 n) body s = Ok s' ∧ I n s'.
Proof.
  revert n0 I s. induction n as [|n IH]; intros n0 I s Hbody HI.
  - exists s. done.
  - destruct (Hbody 0 s) as (s1 & Hs1 & HI1); [lia|done|].
    rewrite Nat.add_0_r in Hs1. cbn [seq for_in]. rewrite Hs1. cbn.
    apply (IH (Datatypes.S n0) (λ j, I (Datatypes.S j))); [|done].
    intros j s2 Hj HI2. destruct (Hbody (Datatypes.S j) s2) as (s3 & Hs3 & HI3);
      [lia|done|].
    exists s3. split; [|done]. rewrite <- Hs3. f_equal. lia.
Qed.

Lemma set_row_returns (i : nat) (v r : list F) (m : list (list F)) :
  m !! i = Some r → length v = length r → set_row i v m = Ok (<[i := v]> m).
Proof.
  intros Hr Hlen. unfold set_row. rewrite Hr. by rewrite decide_True.
Qed.

Lemma items_length (x : pyvalue F) (xv : list F) :
  items (asarray_if_scalar x) = Ok xv → length xv = np_size x.
Proof. destruct x; cbn; intros [= <-]; done. Qed.

(** The loop of [MerweScaledSigmaPoints.sigma_points] and of
    [JulierSigmaPoints.sigma_points]: it returns when [U] has [n] rows and
    [subtract] returns rows of length [n], and it has then assigned the rows
    [k+1] and [n+k+1] for every [k < n], and no other. *)
Lemma points_loop_returns (n : nat) (U : list (list F)) (xv : list F)
    (subtract : list F → list F → res (list F)) (sigmas : list (list F)) :
  length sigmas = 2 * n + 1 →
  Forall (λ r, length r = n) sigmas →
  (∀ k, k < n → ∃ Uk rp rm,
      U !! k = Some Uk ∧
      subtract xv (vneg Uk) = Ok rp ∧ length rp = n ∧
      subtract xv Uk = Ok rm ∧ length rm = n) →
  ∃ sigmas',
    for_in (seq 0 n) (λ k sigmas,
      Uk ← getitem U k;
      r ← subtract xv (vneg Uk);
      sigmas ← set_row (k + 1) r sigmas;
      Uk ← getitem U k;
      r ← subtract xv Uk;
      set_row (n + k + 1) r sigmas) sigmas = Ok sigmas' ∧
    length sigmas' = 2 * n + 1 ∧
    Forall (λ r, length r = n) sigmas' ∧
    sigmas' !! 0 = sigmas !! 0 ∧
    ∀ k Uk, k < n → U !! k = Some Uk →
      getitem sigmas' (k + 1) = subtract xv (vneg Uk) ∧
      getitem sigmas' (n + k + 1) = subtract xv Uk.
Proof.
  intros Hlen Hrows HU.
  apply (for_range_returns _ (λ j sig,
    length sig = 2 * n + 1 ∧ Forall (λ r, length r = n) sig ∧
    sig !! 0 = sigmas !! 0 ∧
    ∀ k Uk, k < j → U !! k = Some Uk →
      getitem sig (k + 1) = subtract xv (vneg Uk) ∧
      getitem sig (n + k + 1) = subtract xv Uk)).
  2: { split_and!; try done; lia. }
  intros j sig Hj (Hl & Hr & H0 & Hdone). cbn [Nat.add].
  destruct (HU j Hj) as (Uk & rp & rm & HUk & Hp & Hlp & Hm & Hlm).
  unfold getitem at 1 2. rewrite HUk. cbn. rewrite Hp. cbn.
  destruct (lookup_lt_is_Some_2 sig (j + 1)) as [r1 Hr1]; [lia|].
  rewrite (set_row_returns _ _ r1) by
    (try done; rewrite Hlp; symmetry; exact (Forall_lookup_1 _ _ _ _ Hr Hr1)).
  cbn. rewrite Hm. cbn.
  destruct (lookup_lt_is_Some_2 (<[j + 1 := rp]> sig) (n + j + 1)) as [r2 Hr2];
    [rewrite length_insert; lia|].
  assert (Hr' : Forall (λ r, length r = n) (<[j + 1 := rp]> sig))
    by (apply Forall_insert; done).
  rewrite (set_row_returns _ _ r2) by
    (try done; rewrite Hlm; symmetry; exact (Forall_lookup_1 _ _ _ _ Hr' Hr2)).
  eexists. split; [reflexivity|].
  rewrite !length_insert. split_and!; [done|by apply Forall_insert| |].
  - rewrite !list_lookup_insert_ne by lia. done.
  - intros k Uk' Hk HUk'. unfold getitem.
    destruct (decide (k = j)) as [->|Hne].
    + assert (Uk' = Uk) as -> by congruence.
      rewrite list_lookup_insert_eq by (rewrite length_insert; lia).
      rewrite list_lookup_insert_ne by lia.
      rewrite list_lookup_insert_eq by lia. done.
    + rewrite !list_lookup_insert_ne by lia.
      apply Hdone; [lia|done].
Qed.

End loops.

Section merwe_points.
Context {F : Type} `{Num F}.
Import MerweScaledSigmaPoints.


End merwe_points.


Section merwe_closed_form.
Context {F : Type} `{Num F}.
Import MerweScaledSigmaPoints.

Lemma np_subtract_same_length (a b : list F) :
  length a = length b → np_subtract a b = Ok (zip_with fsub a b).
Proof. intros Hlen. unfold np_subtract, broadcast. by rewrite decide_True. Qed.

(** With the default [subtract] and a square [U], the points are the mean,
    then [x - (-U[k])] for each row of [U], then [x - U[k]] for each row. *)
Lemma merwe_points_closed_form (self : t F) (x : pyvalue F) (P : pycov F)
    (xv : list F) (U : list (list F)) (a2 : F) :
  let n := self_n self in
  let lam := (a2 * (fnat n + self_kappa self) - fnat n)%num in
  fpow2 (self_alpha self) = Ok a2 →
  self_subtract self = np_subtract →
  np_size x = n →
  items (asarray_if_scalar x) = Ok xv →
  self_sqrt self (mscale (lam + fnat n)%num (as_matrix n P)) = Ok U →
  length U = n →
  Forall (λ r, length r = n) U →
  sigma_points self x P
  = Ok (xv :: map (λ u, zip_with fsub xv (vneg u)) U
           ++ map (λ u, zip_with fsub xv u) U).
Proof.
  intros n lam Hpow Hsub Hsize Hx HU HlenU HrowsU. unfold sigma_points.
  rewrite decide_False by (fold n; lia).
  rewrite Hpow. cbn [mbind res_bind].
  fold n lam. rewrite HU. cbn. rewrite Hx. cbn.
  assert (Hlen : length xv = n) by (rewrite <- Hsize; by apply items_length).
  assert (Hz : zeros (2 * n + 1) n !! 0 = Some (replicate n f0))
    by (apply lookup_replicate_2; lia).
  rewrite (set_row_returns _ _ _ _ Hz) by (by rewrite length_replicate).
  cbn. rewrite Hsub.
  assert (HUk : ∀ k Uk, U !! k = Some Uk → length Uk = n)
    by (intros k Uk; apply (Forall_lookup_1 _ _ _ _ HrowsU)).
  destruct (points_loop_returns n U xv np_subtract
              (<[0 := xv]> (zeros (2 * n + 1) n)))
    as (sigmas & Hloop & Hl & Hr & H0 & Hk).
  - rewrite length_insert. apply length_replicate.
  - apply Forall_insert; [|done]. apply Forall_replicate, length_replicate.
  - intros k Hk. destruct (lookup_lt_is_Some_2 U k) as [Uk HUk']; [lia|].
    pose proof (HUk _ _ HUk') as HlenUk.
    exists Uk, (zip_with fsub xv (vneg Uk)), (zip_with fsub xv Uk).
    unfold vneg. rewrite !np_subtract_same_length
      by (rewrite ?length_map; congruence).
    rewrite !length_zip_with, !length_map. split_and!; try done; lia.
  - transitivity (Ok sigmas); [exact Hloop|].
    f_equal. apply list_eq. intros i.
    destruct (decide (i = 0)) as [->|Hi0].
    { rewrite H0. cbn. apply list_lookup_insert_eq.
      unfold zeros. rewrite length_replicate. lia. }
    destruct i as [|i]; [done|]. rewrite (lookup_cons _ _ (S i)). cbn match.
    destruct (decide (i < n)) as [Hlt|Hge].
    + destruct (lookup_lt_is_Some_2 U i) as [Uk HUk']; [lia|].
      destruct (Hk i Uk Hlt HUk') as [Hp _].
      pose proof (HUk _ _ HUk') as HlenUk.
      rewrite np_subtract_same_length in Hp
        by (unfold vneg; rewrite length_map; congruence).

      unfold getitem in Hp. replace (i + 1) with (S i) in Hp by lia.
      rewrite lookup_app_l by (rewrite length_map; lia).
      rewrite list_lookup_fmap, HUk'. cbn.
      destruct (sigmas !! S i); congruence.
    + rewrite lookup_app_r by (rewrite length_map; lia).
      rewrite length_map, list_lookup_fmap.
      destruct (decide (i - length U < n)) as [Hlt|Hge'].
      * destruct (lookup_lt_is_Some_2 U (i - length U)) as [Uk HUk']; [lia|].
        destruct (Hk (i - length U) Uk Hlt HUk') as [_ Hm].
        pose proof (HUk _ _ HUk') as HlenUk.
        rewrite np_subtract_same_length in Hm by congruence.
        unfold getitem in Hm.
        replace (n + (i - length U) + 1) with (S i) in Hm by lia.
        rewrite HUk'. cbn. destruct (sigmas !! S i); congruence.
      * rewrite (lookup_ge_None_2 U) by lia. cbn.
        apply lookup_ge_None_2. lia.
Qed.

End merwe_closed_form.

(** ** The points and weights of [MerweScaledSigmaPoints] reproduce the mean
       and the covariance *)

Section merwe_moments.
Import MerweScaledSigmaPoints.
Open Scope R_scope.

Lemma np_sum_nil : np_sum (@nil R) = 0.
Proof. done. Qed.

Lemma np_sum_app (a b : list R) : np_sum (a ++ b) = np_sum a + np_sum b.
Proof.
  induction a as [|x a IH]; cbn [app].
  - rewrite np_sum_nil. lra.
  - rewrite !np_sum_cons, IH. lra.
Qed.

Lemma np_sum_zip_replicate {A} (g : A → R) (c : R) (U : list A) (m : nat) :
  length U = m →
  np_sum (zip_with (λ w u, w * g u) (replicate m c) U)
  = c * np_sum (map g U).
Proof.
  intros <-. induction U as [|u U IH]; cbn [length replicate zip_with map].
  - rewrite np_sum_nil. lra.
  - rewrite !np_sum_cons, IH. lra.
Qed.

Lemma np_sum_map_ext {A} (f g : A → R) (U : list A) :
  (∀ u, u ∈ U → f u = g u) → np_sum (map f U) = np_sum (map g U).
Proof.
  induction U as [|u U IH]; intros Hfg; [done|]. cbn [map].
  rewrite !np_sum_cons, IH, (Hfg u); [done|left|].
  intros v Hv. apply Hfg. by right.
Qed.

Lemma sum_plus_minus {A} (a : R) (f : A → R) (U : list A) :
  np_sum (map (λ u, a - - f u) U) + np_sum (map (λ u, a - f u) U)
  = 2 * INR (length U) * a.
Proof.
  induction U as [|u U IH]; cbn [map length].
  - rewrite np_sum_nil. cbn. lra.
  - rewrite !np_sum_cons, S_INR. lra.
Qed.

Lemma sum_outer_plus_minus {A} (a b : R) (f g : A → R) (U : list A) :
  np_sum (map (λ u, (a - - f u - a) * (b - - g u - b)) U)
  + np_sum (map (λ u, (a - f u - a) * (b - g u - b)) U)
  = 2 * np_sum (map (λ u, f u * g u) U).
Proof.
  induction U as [|u U IH]; cbn [map].
  - rewrite np_sum_nil. lra.
  - rewrite !np_sum_cons. lra.
Qed.

Lemma at_zip_with (op : R → R → R) (a b : list R) (j : nat) :
  (j < length a)%nat → length a = length b →
  at_ (zip_with op a b) j = op (at_ a j) (at_ b j).
Proof.
  intros Hj Hlen. unfold at_. rewrite lookup_zip_with.
  destruct (lookup_lt_is_Some_2 a j) as [u ->]; [done|].
  destruct (lookup_lt_is_Some_2 b j) as [v ->]; [lia|]. done.
Qed.

Lemma at_map (f : R → R) (a : list R) (j : nat) :
  (j < length a)%nat → at_ (map f a) j = f (at_ a j).
Proof.
  intros Hj. unfold at_. rewrite list_lookup_fmap.
  destruct (lookup_lt_is_Some_2 a j) as [u ->]; done.
Qed.

Lemma map_at_seq (v : list R) :
  map (at_ v) (seq 0 (length v)) = v.
Proof.
  apply list_eq. intros j. rewrite list_lookup_fmap.
  destruct (decide (j < length v)%nat) as [Hj|Hj].
  - rewrite lookup_seq_lt by done. cbn. unfold at_.
    destruct (lookup_lt_is_Some_2 v j) as [u ->]; done.
  - rewrite lookup_seq_ge, lookup_ge_None_2 by lia. done.
Qed.

Lemma map_entry_seq (n : nat) (m : list (list R)) :
  length m = n → Forall (λ r, length r = n) m →
  map (λ i, map (λ j, entry m i j) (seq 0 n)) (seq 0 n) = m.
Proof.
  intros Hlen Hrows. apply list_eq. intros i. rewrite list_lookup_fmap.
  destruct (decide (i < n)%nat) as [Hi|Hi].
  - rewrite lookup_seq_lt by done. cbn.
    destruct (lookup_lt_is_Some_2 m i) as [r Hr]; [lia|]. rewrite Hr. f_equal.
    rewrite <- (map_at_seq r), (Forall_lookup_1 _ _ _ _ Hrows Hr).
    apply map_ext. intros j. unfold entry, at_. rewrite Hr. done.
  - rewrite lookup_seq_ge, lookup_ge_None_2 by lia. done.
Qed.

Lemma entry_mscale (c : R) (m : list (list R)) (i j : nat) :
  (i < length m)%nat → (∀ r, m !! i = Some r → (j < length r)%nat) →
  entry (mscale c m) i j = c * entry m i j.
Proof.
  intros Hi Hj. unfold entry, mscale. rewrite list_lookup_fmap.
  destruct (lookup_lt_is_Some_2 m i) as [r Hr]; [done|]. rewrite Hr. cbn.
  rewrite list_lookup_fmap.
  destruct (lookup_lt_is_Some_2 r j) as [v ->]; [by apply Hj|]. done.
Qed.

(** The entries of [U.T @ U]. *)
Lemma entry_gram (n : nat) (U M : list (list R)) (i j : nat) :
  length U = n → Forall (λ r, length r = n) U →
  dot (transpose U) U = Ok M →
  (i < n)%nat → (j < n)%nat →
  entry M i j = np_sum (map (λ u, at_ u i * at_ u j) U).
Proof.
  intros Hlen Hrows Hdot Hi Hj. unfold dot in Hdot.
  case_decide; [|done]. injection Hdot as <-.
  assert (Hn : ncols U = n).
  { destruct U as [|r U]; [done|]. cbn. by inversion Hrows. }
  unfold transpose, entry. rewrite Hn, !list_lookup_fmap.
  rewrite lookup_seq_lt by done. cbn. rewrite list_lookup_fmap.
  rewrite list_lookup_fmap, lookup_seq_lt by done. cbn. f_equal.
  change (@map (list R)) with (@fmap list _ (list R)).
  rewrite zip_with_fmap_l, zip_with_fmap_r.
  clear. induction U as [|u U IH]; [done|]. cbn. by rewrite IH.
Qed.

(** The weights that the constructor computed. *)
Lemma merwe_init_weights n alpha beta kappa sqrt_method subtract (g : t R) :
  __init__ n alpha beta kappa sqrt_method subtract = Ok g →
  let lam := alpha * alpha * (INR n + kappa) - INR n in
  let c := / 2 / (INR n + lam) in
  INR n + lam ≠ 0 ∧
  self_n g = n ∧ self_alpha g = alpha ∧ self_kappa g = kappa ∧
  self_sqrt g = default cholesky sqrt_method ∧
  self_subtract g = default np_subtract subtract ∧
  self_Wm g = lam / (INR n + lam) :: replicate n c ++ replicate n c ∧
  self_Wc g = lam / (INR n + lam) + (1 - alpha * alpha + beta)
                :: replicate n c ++ replicate n c.
Proof.
  unfold __init__, _compute_weights, pydiv.
  cbn [fpow2 Num_R mbind res_bind].
  destruct (feqb _ f0) eqn:Hnz; cbn [mbind res_bind]; [discriminate|].
  intros [= <-]. cbn [self_n self_alpha self_kappa self_sqrt self_subtract
                       self_Wm self_Wc].
  apply Reqb_false_inv in Hnz. split_and!; try done.
  all: match goal with
       | |- context [replicate ?k _] => replace k with (S (n + n)) by lia
       end.
  all: cbn [replicate insert list_insert]; by rewrite replicate_add.
Qed.

(** C1, in exact arithmetic.  For a [MerweScaledSigmaPoints] built with the
    default [subtract] and any [sqrt_method], a mean [x] of [n] elements and
    an [n]-by-[n] covariance [P]: when [sqrt_method] returns, for
    [(lambda + n) * P] with [lambda = alpha^2 * (n + kappa) - n], a square
    [n]-by-[n] matrix [U] with [U.T @ U] equal to its argument, the points
    that [sigma_points(x, P)] returns and the weights satisfy
    [sum_k Wm[k] * sigmas[k] = x] and
    [sum_k Wc[k] * outer(sigmas[k] - x, sigmas[k] - x) = P], over the reals.
    ([n + lambda] is not zero, as the constructor returned.) *)
Theorem merwe_reconstructs_moments (n : nat) (alpha beta kappa : R)
    sqrt_method (g : t R) (x : pyvalue R) (P : pycov R)
    (xv : list R) (U : list (list R)) :
  let lam := alpha * alpha * (INR n + kappa) - INR n in
  let Pm := as_matrix n P in
  __init__ n alpha beta kappa sqrt_method None = Ok g →
  np_size x = n →
  items (asarray_if_scalar x) = Ok xv →
  length Pm = n → Forall (λ r, length r = n) Pm →
  self_sqrt g (mscale (lam + INR n) Pm) = Ok U →
  length U = n → Forall (λ r, length r = n) U →
  dot (transpose U) U = Ok (mscale (lam + INR n) Pm) →
  ∃ sigmas,
    sigma_points g x P = Ok sigmas ∧
    weighted_mean n (self_Wm g) sigmas = xv ∧
    weighted_covariance n (self_Wc g) sigmas xv = Pm.
Proof.
  intros lam Pm Hinit Hsize Hx HlenP HrowsP Hsqrt HlenU HrowsU Hgram.
  destruct (merwe_init_weights _ _ _ _ _ _ _ Hinit)
    as (Hnz & Hn & Ha & Hk & _ & Hsub & HWm & HWc).
  fold lam in Hnz, HWm, HWc.
  assert (Hxlen : length xv = n) by (rewrite <- Hsize; by apply items_length).
  assert (HUk : ∀ u, u ∈ U → length u = n) by (by apply Forall_forall).
  eexists. split; [|split].
  - apply (merwe_points_closed_form g x P xv U (alpha * alpha));
      rewrite ?Hn, ?Ha, ?Hk; done.
  - rewrite HWm. unfold weighted_mean.
    etrans; [|apply (map_at_seq xv)]. rewrite Hxlen.
    apply map_ext_in. intros j Hj%in_seq.
    cbn [zip_with]. rewrite np_sum_cons.
    rewrite zip_with_app by (rewrite length_replicate, length_map; done).
    rewrite np_sum_app.
    change (@map (list R)) with (@fmap list _ (list R)).
    rewrite !zip_with_fmap_r.
    rewrite !(np_sum_zip_replicate _ _ U n HlenU).
    rewrite (np_sum_map_ext _ (λ u, at_ xv j - - at_ u j)).
    2: { intros u Hu. unfold vneg. rewrite at_zip_with, at_map;
           rewrite ?length_map, ?Hxlen, ?(HUk u Hu); try done; lia. }
    rewrite (np_sum_map_ext (λ u, at_ (zip_with fsub xv u) j)
               (λ u, at_ xv j - at_ u j)).
    2: { intros u Hu. rewrite at_zip_with;
           rewrite ?Hxlen, ?(HUk u Hu); try done; lia. }
    rewrite <- Rmult_plus_distr_l, sum_plus_minus, HlenU. cbn. field.
    exact Hnz.
  - rewrite HWc. unfold weighted_covariance.
    etrans; [|apply (map_entry_seq n Pm HlenP HrowsP)].
    apply map_ext_in. intros i Hi%in_seq.
    apply map_ext_in. intros j Hj%in_seq.
    cbn [zip_with]. rewrite np_sum_cons.
    rewrite zip_with_app by (rewrite length_replicate, length_map; done).
    rewrite np_sum_app.
    change (@map (list R)) with (@fmap list _ (list R)).
    rewrite !zip_with_fmap_r.
    rewrite (np_sum_zip_replicate
               (λ u, (at_ (zip_with fsub xv (vneg u)) i - at_ xv i)
                     * (at_ (zip_with fsub xv (vneg u)) j - at_ xv j))
               _ U n HlenU).
    rewrite (np_sum_zip_replicate
               (λ u, (at_ (zip_with fsub xv u) i - at_ xv i)
                     * (at_ (zip_with fsub xv u) j - at_ xv j))
               _ U n HlenU).
    rewrite (np_sum_map_ext _
               (λ u, (at_ xv i - - at_ u i - at_ xv i)
                     * (at_ xv j - - at_ u j - at_ xv j))).
    2: { intros u Hu. unfold vneg. rewrite !at_zip_with, !at_map;
           rewrite ?length_map, ?Hxlen, ?(HUk u Hu); try done; lia. }
    rewrite (np_sum_map_ext
               (λ u, (at_ (zip_with fsub xv u) i - at_ xv i)
                     * (at_ (zip_with fsub xv u) j - at_ xv j))
               (λ u, (at_ xv i - at_ u i - at_ xv i)
                     * (at_ xv j - at_ u j - at_ xv j))).
    2: { intros u Hu. rewrite !at_zip_with;
           rewrite ?Hxlen, ?(HUk u Hu); try done; lia. }
    rewrite <- Rmult_plus_distr_l, sum_outer_plus_minus.
    rewrite <- (entry_gram n U _ i j HlenU HrowsU Hgram) by lia.
    rewrite entry_mscale.
    + cbn. field. exact Hnz.
    + lia.
    + intros r Hr. rewrite (Forall_lookup_1 _ _ _ _ HrowsP Hr). lia.
Qed.

Lemma cholesky_1x1 (a : R) : 0 < a → cholesky [[a]] = Ok [[sqrt a]].
Proof.
  intros Ha. unfold cholesky.
  case_decide as Hsq; [|exfalso; apply Hsq; repeat constructor].
  cbn. unfold chol_row, chol_dot, entry, np_sum. cbn.
  replace (a - 0) with a by ring.
  rewrite Rltb_true by lra. reflexivity.
Qed.

Lemma merwe_reconstructs_moments_witness :
  ∃ g sigmas,
    __init__ 1 1 0 0 None None = Ok g ∧
    sigma_points g (PyScalar 3) (CovScalar 4) = Ok sigmas ∧
    weighted_mean 1 (self_Wm g) sigmas = [3] ∧
    weighted_covariance 1 (self_Wc g) sigmas [3] = [[1 * 4]].
Proof.
  destruct (__init__ 1 1 0 0 None None) as [g|e] eqn:Hinit.
  2: { unfold __init__, _compute_weights, pydiv in Hinit.
       cbn [fpow2 Num_R mbind res_bind] in Hinit.
       rewrite Reqb_false in Hinit; [discriminate|].
       cbn. lra. }
  exists g.
  assert (Hsqrt : self_sqrt g = cholesky)
    by apply (merwe_init_weights _ _ _ _ _ _ _ Hinit).
  destruct (merwe_reconstructs_moments 1 1 0 0 None g (PyScalar 3)
              (CovScalar 4) [3]
              [[sqrt ((1 * 1 * (INR 1 + 0) - INR 1 + INR 1) * (1 * 4))]]
              Hinit)
    as (sigmas & Hcall & Hmean & Hcov).
  - reflexivity.
  - reflexivity.
  - reflexivity.
  - by repeat constructor.
  - rewrite Hsqrt. apply cholesky_1x1. cbn.
    match goal with |- 0 < ?e => replace e with 4 by ring end. lra.
  - reflexivity.
  - by repeat constructor.
  - unfold dot. rewrite decide_True by (by repeat constructor).
    unfold np_sum. cbn. decide_eval. repeat f_equal.
    rewrite Rplus_0_l. apply sqrt_sqrt. cbn.
    match goal with |- 0 <= ?e => replace e with 4 by ring end. lra.
  - exists sigmas. done.
Defined.

End merwe_moments.

(** C1 as it was stated does not hold.  On binary64 numbers the sums are
    rounded: [MerweScaledSigmaPoints(n=1, alpha=1., beta=2., kappa=0.)] has
    [lambda = 0] and the weights [Wm = [0, .5, .5]]; for [x = [0.1]] and
    [P = [[4.]]] the default [sqrt] returns [U = [[2.]]], with [U.T @ U]
    equal to [(lambda + n) * P], the points are [0.1], [2.1], [-1.9], and
    their weighted mean is [0.10000000000000009], which is not [x].  And in
    exact arithmetic, a [sqrt] whose result is not square: for the same
    parameters and [P = [[2]]], [U = [[1], [1]]] has [U.T @ U = [[2]]], the
    code uses its first row only, and the weighted covariance of the points
    is [[[1]]], which is not [P]. *)
Lemma merwe_moments_rounded_or_not_square :
  (∃ g U sigmas m,
     MerweScaledSigmaPoints.__init__ 1 1%float 2%float 0%float None None
       = Ok g ∧
     MerweScaledSigmaPoints.self_sqrt g [[4%float]] = Ok U ∧
     dot (transpose U) U = Ok [[4%float]] ∧
     MerweScaledSigmaPoints.sigma_points g (PyList [0.1%float])
       (CovMatrix [[4%float]]) = Ok sigmas ∧
     weighted_mean 1 (MerweScaledSigmaPoints.self_Wm g) sigmas = [m] ∧
     feqb m 0.1%float = false) ∧
  (∃ g sigmas,
     MerweScaledSigmaPoints.__init__ 1 1%R 2%R 0%R
       (Some (λ _, Ok [[1%R]; [1%R]])) None = Ok g ∧
     dot (transpose [[1%R]; [1%R]]) [[1%R]; [1%R]]
       = Ok (mscale (1 * 1 * (INR 1 + 0) - INR 1 + INR 1)%R [[2%R]]) ∧
     MerweScaledSigmaPoints.sigma_points g (PyList [0%R]) (CovMatrix [[2%R]])
       = Ok sigmas ∧
     weighted_covariance 1 (MerweScaledSigmaPoints.self_Wc g) sigmas [0%R]
       ≠ [[2%R]]).
Proof.
  split.
  - eexists _, _, _, _.
    split_and!; [vm_compute; reflexivity|..]; vm_compute; reflexivity.
  - destruct (MerweScaledSigmaPoints.__init__ 1 1%R 2%R 0%R
                (Some (λ _, Ok [[1%R]; [1%R]])) None) as [g|e] eqn:Hinit.
    2: { unfold MerweScaledSigmaPoints.__init__,
           MerweScaledSigmaPoints._compute_weights, pydiv in Hinit.
         cbn [fpow2 Num_R mbind res_bind] in Hinit.
         rewrite Reqb_false in Hinit; [discriminate|]. cbn. lra. }
    destruct (merwe_init_weights _ _ _ _ _ _ _ Hinit)
      as (Hnz & Hn & Ha & Hk & Hsqrt & Hsub & _ & HWc).
    eexists g, _. split_and!; [reflexivity| | |].
    + unfold dot. rewrite decide_True by (by repeat constructor).
      unfold np_sum. cbn. repeat f_equal. lra.
    + unfold MerweScaledSigmaPoints.sigma_points.
      rewrite Hn, Ha, Hk, Hsqrt, Hsub. cbn.
      unfold np_subtract, broadcast. cbn. decide_eval. cbn. decide_eval.
      reflexivity.
    + rewrite HWc. unfold weighted_covariance, np_sum, at_. cbn.
      intros [= Hcov]. cbn in Hnz.
      assert (Hc : (/ 2 / (1 + (1 * 1 * (1 + 0) - 1)))%R = (/ 2)%R)
        by (field; lra).
      rewrite Hc in Hcov. lra.
Qed.

(** ** The consistency test of [GeneralizedSigmaPoints.sigma_points] *)

Section consistency_test.
Context {F : Type} `{Num F}.
Import GeneralizedSigmaPoints.

Lemma truth_array_raises (l : list bool) :
  2 ≤ length l → truth (BoolArray l) = Raise ValueError.
Proof. destruct l as [|? [|? ?]]; cbn; [lia|lia|done]. Qed.

Lemma broadcast_length {C} (op : F → F → C) (a b : list F) (l : list C) :
  2 ≤ length a → broadcast op a b = Ok l → length l = length a.
Proof.
  intros Ha. unfold broadcast. case_decide as Hlen.
  - intros [= <-]. rewrite length_zip_with. lia.
  - destruct a as [|a0 [|a1 a]]; cbn in Ha; [lia|lia|].
    destruct b as [|b0 [|b1 b]]; [done| |done].
    intros [= <-]. cbn. by rewrite length_map.
Qed.

(** The test [x != self.x] on a mean of two or more elements, when one of
    the two is a NumPy array or no mean was stored: taking its truth value
    raises, or it is true. *)
Lemma py_ne_not_false (x y : pyvalue F) :
  2 ≤ np_size x →
  is_ndarray x ∨ is_ndarray y ∨ y = PyNone →
  py_ne (asarray_if_scalar x) y ≫= truth ≠ Ok false.
Proof.
  intros Hsize Hcase.
  assert (Helem : ∀ a b, 2 ≤ length a →
            (l ← broadcast (λ u v, negb (feqb u v)) a b; Ok (BoolArray l))
              ≫= truth ≠ Ok false).
  { intros a b Ha.
    destruct (broadcast _ a b) as [l|e] eqn:Hl; [|done]. cbn [mbind res_bind].
    rewrite truth_array_raises; [done|].
    rewrite (broadcast_length _ _ _ _ Ha Hl). done. }
  destruct x as [|v|a|a|a]; cbn in Hsize; try lia; cbn [asarray_if_scalar].
  - destruct y as [|v|b|b|b]; cbn [py_ne]; try done;
      try (by apply Helem); destruct Hcase as [[]|[[]|?]]; done.
  - destruct y as [|v|b|b|b]; cbn [py_ne]; try done;
      try (by apply Helem); destruct Hcase as [[]|[[]|?]]; done.
  - destruct y as [|v|b|b|b]; cbn [py_ne]; try (by apply Helem).
    cbn [mbind res_bind]. rewrite truth_array_raises; [done|].
    by rewrite length_map.
Qed.

(** The test [x != self.x] raises nothing but [ValueError]. *)
Lemma py_ne_truth_raises (x y : pyvalue F) (e : exn) :
  py_ne x y ≫= truth = Raise e → e = ValueError.
Proof.
  assert (Helem : ∀ a b,
            (l ← broadcast (λ u v, negb (feqb u v)) a b; Ok (BoolArray l))
              ≫= truth = Raise e → e = ValueError).
  { intros a b. unfold broadcast. case_decide.
    - cbn [mbind res_bind]. destruct (zip_with _ a b) as [|? [|? ?]]; cbn;
        congruence.
    - destruct a as [|a0 [|a1 a]], b as [|b0 [|b1 b]]; cbn;
        try congruence;
        repeat match goal with
        | |- context [map ?f ?l] => destruct l as [|? ?]; cbn
        end; congruence. }
  destruct x as [|u|a|a|a], y as [|v|b|b|b]; cbn [py_ne];
    try (by apply Helem); cbn; try congruence.
  - destruct b as [|? [|? ?]]; cbn; congruence.
  - destruct a as [|? [|? ?]]; cbn; congruence.
Qed.

(** [_compute_weights] assigns [self.s], [self.Wm] and [self.Wc] only. *)
Lemma compute_weights_frame (I : t F → Prop) (b : bool) (self : t F) :
  (∀ g s, I g → I (with_s g s)) →
  (∀ g w, I g → I (with_weights g w w)) →
  I self →
  wp (_compute_weights b) (λ _ g, I g) (λ _ g, I g) self.
Proof.
  intros Hs Hw HI. unfold _compute_weights.
  do 2 wp_step. do 8 (wp_step; try done). wp_step.
  eapply wp_mono; [apply (wp_for _ (λ _ g, I g) (λ _ g, I g))| |];
    cbn beta; [|done| |done].
  - intros i w g _ Hg. wp_step.
    eapply wp_mono with (Q := λ _ g, I g) (E := λ _ g, I g).
    { destruct b; repeat (wp_step; try done). by apply Hs. }
    2: done.
    intros _ g1 Hg1. cbn beta.
    repeat (wp_step; try done); by apply Hs.
  - intros w g Hg. repeat (wp_step; try done). by apply Hw.
Qed.

(** C9, as the code has it.  On an instance of dimension [n >= 2], a call
    of [sigma_points] raises [ValueError] or [Warning] and leaves the
    instance as it was, whatever the values of the mean and of the
    covariance, when the mean given or the mean stored at construction is a
    NumPy array, or when no mean was stored: the mean has another size, or
    [x != self.x] is an array of [n] booleans whose truth value is taken, or
    no mean was stored and the test is true.  Constructing with
    [positively_constrained=True] and a mean that is a NumPy array, a
    scalar, or absent raises in the constructor. *)
Theorem generalized_array_mean_raises :
  (∀ (self : t F) (x : pyvalue F) (P : pycov F),
     2 ≤ self_n self →
     is_ndarray x ∨ is_ndarray (self_x self) ∨ self_x self = PyNone →
     ∃ e, (e = ValueError ∨ e = Warning) ∧
          GeneralizedSigmaPoints.sigma_points x P self = (Raise e, self)) ∧
  (∀ n (P : pycov F) (S K : pyvalue F) k (x : pyvalue F),
     2 ≤ n →
     is_ndarray (asarray_if_scalar x) ∨ x = PyNone →
     is_Raise (__init__ n P S K true k x)).
Proof.
  assert (Hcall : ∀ (self : t F) (x : pyvalue F) (P : pycov F),
     2 ≤ self_n self →
     is_ndarray x ∨ is_ndarray (self_x self) ∨ self_x self = PyNone →
     ∃ e, (e = ValueError ∨ e = Warning) ∧
          GeneralizedSigmaPoints.sigma_points x P self = (Raise e, self)).
  { intros self x P Hn Hcase.
    assert (Hwp : wp (GeneralizedSigmaPoints.sigma_points x P)
                     (λ _ _, False)
                     (λ e g, g = self ∧ (e = ValueError ∨ e = Warning))
                     self).
    { unfold GeneralizedSigmaPoints.sigma_points. do 2 wp_step.
      case_decide as Hsize; [wp_step; by auto|].
      assert (Hsize' : 2 ≤ np_size x) by lia.
      pose proof (py_ne_not_false x (self_x self) Hsize' Hcase) as Hne.
      wp_step. apply wp_lift.
      destruct (py_ne (asarray_if_scalar x) (self_x self) ≫= truth)
        as [[|]|e] eqn:Htest; [wp_step; by auto|done|].
      apply py_ne_truth_raises in Htest as ->. by auto. }
    unfold wp in Hwp.
    destruct (GeneralizedSigmaPoints.sigma_points x P self) as [[?|e] g'];
      [done|]. destruct Hwp as [-> He]. by exists e. }
  split; [exact Hcall|].
  intros n P S K k x Hn Hcase. unfold __init__.
  set (x' := asarray_if_scalar x).
  set (self0 := attributes _ _ _ _ _ _ _).
  set (m := (_ ;; _)).
  assert (Hwp : wp m (λ _ _, False) (λ _ _, True) self0).
  { unfold m. wp_step.
    eapply wp_mono;
      [apply (compute_weights_frame (λ g, self_n g = n ∧ self_x g = x'));
       done| |done].
    cbn beta. intros _ g1 [Hn1 Hx1]. wp_step.
    destruct (Hcall g1 x' (CovMatrix (as_matrix n P))) as (e & _ & He).
    - lia.
    - rewrite Hx1. destruct Hcase as [Harr| ->]; [by left|].
      right. by right.
    - unfold wp. by rewrite He. }
  unfold wp in Hwp. destruct (m self0) as [[[]|e] g']; [done|by eexists].
Qed.

End consistency_test.

Lemma generalized_array_mean_raises_witness :
  ∃ e,
    (e = ValueError ∨ e = Warning) ∧
    GeneralizedSigmaPoints.sigma_points (NdArray [1%float; 1%float])
      (CovScalar 1%float)
      (GeneralizedSigmaPoints.attributes 2
         [[1%float; 0%float]; [0%float; 1%float]]
         (NdArray [0%float; 0%float]) (NdArray [1%float; 1%float])
         false None (NdArray [1%float; 1%float]))
    = (Raise e,
       GeneralizedSigmaPoints.attributes 2
         [[1%float; 0%float]; [0%float; 1%float]]
         (NdArray [0%float; 0%float]) (NdArray [1%float; 1%float])
         false None (NdArray [1%float; 1%float])).
Proof.
  apply (proj1 generalized_array_mean_raises).
  - cbn. lia.
  - left. exact I.
Defined.

(** The claim C9 as it was stated does not hold: with means given as Python
    lists, as the docstring of [sigma_points] allows ([[1,2]]), [x != self.x]
    is the inequality of two lists, and a call with the values of the
    construction returns.  Here [n = 2], on binary64 numbers: a call on an
    unconstrained instance returns its five points, and the constructor of a
    constrained instance returns. *)
Lemma generalized_list_mean_returns :
  (∃ g sigmas g',
     GeneralizedSigmaPoints.__init__ 2 (CovScalar 1%float)
       (PyList [0%float; 0%float]) (PyList [1%float; 1%float])
       false None (PyList [1%float; 1%float]) = Ok g ∧
     GeneralizedSigmaPoints.self_n g = 2 ∧
     GeneralizedSigmaPoints.sigma_points (PyList [1%float; 1%float])
       (CovScalar 1%float) g = (Ok sigmas, g')) ∧
  (∃ g,
     GeneralizedSigmaPoints.__init__ 2
       (CovMatrix [[4%float; 1%float]; [1%float; 4%float]])
       (PyList [0%float; 0%float]) (PyList [16%float; 16%float])
       true (Some 1%float) (PyList [1%float; 1%float]) = Ok g).
Proof.
  split.
  - eexists _, _, _. split_and!; [vm_compute; reflexivity|reflexivity|].
    vm_compute. reflexivity.
  - eexists. vm_compute. reflexivity.
Qed.

(** ** The column index of [_redefine_scale_param] *)

Section column_index.
Context {F : Type} `{Num F}.
Import GeneralizedSigmaPoints.

Lemma py_index_in_range (len : nat) (z : Z) :
  (- Z.of_nat len ≤ z < Z.of_nat len)%Z →
  ∃ k, py_index len z = Ok k ∧ k < len.
Proof.
  intros Hz. unfold py_index. case_decide.
  - eexists. split; [done|]. lia.
  - rewrite decide_True by lia. eexists. split; [done|]. lia.
Qed.

Lemma py_index_out_of_range (len : nat) (z : Z) :
  (Z.of_nat len ≤ z)%Z → py_index len z = Raise IndexError.
Proof.
  intros Hz. unfold py_index. by rewrite !decide_False by lia.
Qed.

Lemma py_index_last (len : nat) :
  1 ≤ len → py_index len (0 - 1) = py_index len (Z.of_nat len - 1).
Proof.
  intros Hlen. unfold py_index.
  rewrite decide_False, decide_True by lia.
  rewrite (decide_True (P := (0 ≤ Z.of_nat len - 1 < Z.of_nat len)%Z)) by lia.
  f_equal; lia.
Qed.

Lemma column_cons (r : list F) (m : list (list F)) (z : Z) :
  column (r :: m) z
  = v ← (k ← py_index (length r) z; getitem r k);
    c ← column m z; Ok (v :: c).
Proof. reflexivity. Qed.

Lemma column_in_range (m : list (list F)) (n : nat) (z : Z) :
  Forall (λ r, length r = n) m →
  (- Z.of_nat n ≤ z < Z.of_nat n)%Z →
  ∃ c, column m z = Ok c ∧ length c = length m.
Proof.
  intros Hrows Hz. induction Hrows as [|r m Hr _ IH].
  - by exists [].
  - destruct IH as (c & Hc & Hlen).
    destruct (py_index_in_range (length r) z) as (k & Hk & Hlt); [lia|].
    destruct (lookup_lt_is_Some_2 r k) as [v Hv]; [done|].
    exists (v :: c). rewrite column_cons, Hk. cbn [mbind res_bind].
    unfold getitem. rewrite Hv, Hc. cbn. by rewrite Hlen.
Qed.

Lemma column_out_of_range (m : list (list F)) (n : nat) (z : Z) :
  m ≠ [] →
  Forall (λ r, length r = n) m →
  (Z.of_nat n ≤ z)%Z →
  column m z = Raise IndexError.
Proof.
  intros Hne Hrows Hz. destruct m as [|r m]; [done|].
  inversion Hrows as [|? ? Hr _]; subst.
  rewrite column_cons. by rewrite py_index_out_of_range.
Qed.

Lemma column_last (m : list (list F)) (n : nat) :
  1 ≤ n →
  Forall (λ r, length r = n) m →
  column m (0 - 1) = column m (Z.of_nat n - 1).
Proof.
  intros Hn Hrows. induction Hrows as [|r m Hr _ IH]; [done|].
  rewrite !column_cons, IH, py_index_last by lia. by rewrite Hr.
Qed.

Lemma np_min_nonempty (v : list F) : 1 ≤ length v → ∃ m, np_min v = Ok m.
Proof. destruct v; cbn; [lia|by eexists]. Qed.

Lemma broadcast_same_length {C} (op : F → F → C) (a b : list F) :
  length a = length b → broadcast op a b = Ok (zip_with op a b).
Proof. intros Hlen. unfold broadcast. by rewrite decide_True. Qed.

(** C10. [_redefine_scale_param] on an instance of dimension [n >= 1] with
    an [n]-by-[n] covariance, a mean of [n] elements and a slack [k], given
    the [2n+1] rows of a first pass: the column index [i-1] is, for row [0],
    the index [-1], which reads the last column [n-1]; for every row
    [i >= n+1] it is [>= n], out of the bounds of [np.sqrt(self.P)]; and when
    a row [i >= n+1] has a negative minimum, the call raises [IndexError]. *)
Theorem redefine_scale_param_out_of_range (self : t F)
    (sigmas : list (list F)) (xv : list F) (k : F) :
  let n := self_n self in
  let sqrtP := map (map fsqrt) (self_P self) in
  1 ≤ n →
  length (self_P self) = n →
  Forall (λ r, length r = n) (self_P self) →
  items (self_x self) = Ok xv →
  length xv = n →
  self_k self = Some k →
  length (self_s self) = 2 * n + 1 →
  length sigmas = 2 * n + 1 →
  Forall (λ r, length r = n) sigmas →
  column sqrtP (Z.of_nat 0 - 1) = column sqrtP (Z.of_nat n - 1) ∧
  (∀ i, n + 1 ≤ i → column sqrtP (Z.of_nat i - 1) = Raise IndexError) ∧
  ((∃ i row m, n + 1 ≤ i ∧ sigmas !! i = Some row ∧
               np_min row = Ok m ∧ fltb m f0 = true) →
   ∃ self', _redefine_scale_param sigmas self = (Raise IndexError, self')).
Proof.
  intros n sqrtP Hn HlenP HrowsP Hx Hxlen Hk Hs Hsig Hsigrows.
  assert (HrowsQ : Forall (λ r, length r = n) sqrtP).
  { unfold sqrtP. apply Forall_fmap.
    eapply Forall_impl; [exact HrowsP|]. intros r Hr. cbn.
    by rewrite length_map. }
  assert (HlenQ : length sqrtP = n) by (unfold sqrtP; by rewrite length_map).
  assert (Hout : ∀ i, n + 1 ≤ i →
            column sqrtP (Z.of_nat i - 1) = Raise IndexError).
  { intros i Hi. apply (column_out_of_range _ n); [|done|lia].
    intros Hnil. rewrite Hnil in HlenQ. cbn in HlenQ. lia. }
  split_and!; [by apply column_last|exact Hout|].
  intros (ibad & rbad & mbad & Hibad & Hrbad & Hmbad & Hneg).
  set (inv := λ (done : list nat) (_ : ()) (g : t F),
    self_P g = self_P self ∧ self_x g = self_x self ∧
    self_k g = self_k self ∧ length (self_s g) = 2 * n + 1 ∧
    ∀ i row m, i ∈ done → n + 1 ≤ i → sigmas !! i = Some row →
               np_min row = Ok m → fltb m f0 = false).
  assert (Hwp : wp (_redefine_scale_param sigmas) (λ _ _, False)
                   (λ e _, e = IndexError) self).
  { unfold _redefine_scale_param.
    eapply wp_mono;
      [apply (wp_for_prefix _ inv (λ e _, e = IndexError) _ [])| |done].
    - intros done i [] g [rest Hrest] (HP & HX & HK & HS & Hdone).
      assert (Hi : i < 2 * n + 1).
      { assert (Hin : i ∈ seq 0 (length sigmas))
          by (cbn in Hrest; rewrite Hrest; apply elem_of_app; right; left).
        apply elem_of_seq in Hin. lia. }
      destruct (lookup_lt_is_Some_2 sigmas i) as [row Hrow]; [lia|].
      destruct (np_min_nonempty row) as [m Hm].
      { rewrite (Forall_lookup_1 _ _ _ _ Hsigrows Hrow). lia. }
      wp_step. apply wp_lift. unfold getitem. rewrite Hrow.
      wp_step. apply wp_lift. rewrite Hm.
      destruct (fltb m f0) eqn:Hlt.
      + do 3 wp_step. apply wp_lift. rewrite HP. fold sqrtP.
        destruct (decide (n + 1 ≤ i)) as [Hup|Hlow]; [by rewrite Hout|].
        destruct (column_in_range sqrtP n (Z.of_nat i - 1)) as (c & -> & Hc);
          [done|lia|].
        wp_step. apply wp_lift. rewrite HX, Hx.
        wp_step. apply wp_lift.
        rewrite broadcast_same_length by lia.
        destruct (np_min_nonempty (zip_with fdiv xv c)) as [mq Hmq].
        { rewrite length_zip_with. lia. }
        wp_step. apply wp_lift. rewrite Hmq.
        wp_step. apply wp_lift. rewrite HK, Hk. cbn.
        apply wp_set_s.
        destruct (lookup_lt_is_Some_2 (self_s g) i) as [si ->]; [lia|].
        unfold inv. cbn. rewrite length_insert. split_and!; try done.
        intros j rj mj [Hj|Hj%list_elem_of_singleton]%elem_of_app ? ? ?;
          [by eapply Hdone|lia].
      + wp_step. unfold inv. split_and!; try done.
        intros j rj mj [Hj|Hj%list_elem_of_singleton]%elem_of_app ? ? ?;
          [by eapply Hdone|]. subst j. congruence.
    - unfold inv. split_and!; try done. intros ? ? ? Hin. by inversion Hin.
    - cbn beta. intros [] g (_ & _ & _ & _ & Hdone).
      assert (fltb mbad f0 = false); [|congruence].
      apply (Hdone ibad rbad); try done.
      apply elem_of_seq. apply lookup_lt_Some in Hrbad. lia. }
  unfold wp in Hwp.
  destruct (_redefine_scale_param sigmas self) as [[[]|e] self']; [done|].
  subst e. by eexists.
Qed.

End column_index.

Lemma redefine_scale_param_out_of_range_witness :
  ∃ self',
    GeneralizedSigmaPoints._redefine_scale_param
      [[0.5%float]; [(-1.5)%float]; [(-0.5)%float]]
      (GeneralizedSigmaPoints.with_s
         (GeneralizedSigmaPoints.attributes 1 [[1%float]]
            (NdArray [(-3)%float]) (NdArray [7%float]) true (Some 1%float)
            (NdArray [0.5%float]))
         [0%float; 2%float; (-1)%float])
    = (Raise IndexError, self').
Proof.
  edestruct (redefine_scale_param_out_of_range
               (GeneralizedSigmaPoints.with_s
                  (GeneralizedSigmaPoints.attributes 1 [[1%float]]
                     (NdArray [(-3)%float]) (NdArray [7%float]) true
                     (Some 1%float) (NdArray [0.5%float]))
                  [0%float; 2%float; (-1)%float])
               [[0.5%float]; [(-1.5)%float]; [(-0.5)%float]]
               [0.5%float] 1%float) as (_ & _ & Hraise);
    [cbn; lia|reflexivity|by repeat constructor|reflexivity|reflexivity
    |reflexivity|reflexivity|reflexivity|by repeat constructor|].
  apply Hraise.
  exists 2, [(-0.5)%float], (-0.5)%float. split_and!; reflexivity.
Defined.

(** A constrained construction that reaches the out-of-range access, on
    binary64 numbers: [n=1], [P=1], [S=-3], [K=7], [k=1], [x=0.5].  The first
    pass gives the rows [[0.5]], [[-1.5]], [[-0.5]]; the last one is negative
    and its column index is [1]. *)
Example constrained_constructor_index_error :
  GeneralizedSigmaPoints.__init__ 1 (CovScalar 1%float) (PyScalar (-3)%float)
    (PyScalar 7%float) true (Some 1%float) (PyScalar 0.5%float)
  = Raise IndexError.
Proof. vm_compute. reflexivity. Qed.

(** ** The points of [GeneralizedSigmaPoints] and the correction pass *)

Section fill_rows.
Context {F : Type} `{Num F}.
Import GeneralizedSigmaPoints.

Lemma wp_for_range {S} (body : nat → S → M S)
    (I : nat → S → t F → Prop) (E : exn → t F → Prop)
    (n n0 : nat) (s : S) (self : t F) :
  (∀ j s self, j < n → I j s self →
     wp (body (n0 + j) s) (I (Datatypes.S j)) E self) →
  I 0 s self →
  wp (for_M (seq n0 n) body s) (I n) E self.
Proof.
  revert n0 I s self. induction n as [|n IH]; intros n0 I s self Hbody HI.
  - exact HI.
  - cbn [seq for_M]. apply wp_bind.
    eapply wp_mono; [|clear HI; intros s1 g1 HI1|done].
    { specialize (Hbody 0 s self). rewrite Nat.add_0_r in Hbody.
      apply Hbody; [lia|exact HI]. }
    cbn beta. apply (IH (Datatypes.S n0) (λ j, I (Datatypes.S j))); [|done].
    intros j s2 g2 Hj HI2.
    replace (Datatypes.S n0 + j) with (n0 + Datatypes.S j) by lia.
    apply Hbody; [lia|done].
Qed.

Lemma column_length (m : list (list F)) (z : Z) (c : list F) :
  column m z = Ok c → length c = length m.
Proof.
  revert c. induction m as [|r m IH]; intros c.
  - by intros [= <-].
  - rewrite column_cons.
    destruct (py_index (length r) z ≫= _) as [v|]; [|done].
    cbn [mbind res_bind]. destruct (column m z) as [c'|]; [|done].
    intros [= <-]. cbn. by rewrite (IH c').
Qed.

Lemma fill_sigmas_rows (self : t F) (x : pyvalue F) (P : list (list F))
    (xv : list F) (sigmas : list (list F)) :
  let n := self_n self in
  items x = Ok xv →
  length xv = n →
  length P = n →
  length sigmas = 2 * n + 1 →
  Forall (λ r, length r = n) sigmas →
  wp (fill_sigmas x P sigmas)
     (λ sig g, g = self ∧ filled self P xv n sig) (λ _ g, g = self) self.
Proof.
  intros n Hx Hxlen HlenP Hlen Hrows. unfold fill_sigmas. do 2 wp_step.
  fold n.
  apply (wp_for_range _ (λ j sig g, g = self ∧ filled self P xv j sig)).
  2: { split; [done|]. unfold filled. fold n. split_and!; try done; lia. }
  intros j sig g Hj [-> (Hl & Hr & H0 & Hdone)]. fold n in Hl, Hr, Hdone.
  set (i := 1 + j).
  wp_step. apply wp_lift. rewrite Hx.
  destruct (lookup_lt_is_Some_2 sig 0) as [r0 Hr0]; [lia|].
  wp_step. apply wp_lift.
  rewrite (set_row_returns _ _ r0)
    by (try done; rewrite Hxlen; symmetry;
        exact (Forall_lookup_1 _ _ _ _ Hr Hr0)).
  assert (Hr1 : Forall (λ r, length r = n) (<[0 := xv]> sig))
    by (by apply Forall_insert).
  wp_step. apply wp_get_s. destruct (self_s self !! i) as [si|] eqn:Hsi;
    [|done].
  wp_step. apply wp_lift.
  destruct (column P (Z.of_nat (i - 1))) as [c|] eqn:Hc; [|done].
  pose proof (column_length _ _ _ Hc) as Hclen.
  wp_step. apply wp_lift.
  rewrite broadcast_same_length
    by (unfold vscale; rewrite !length_map; lia).
  set (rl := zip_with fsub xv (vscale si (map fsqrt c))).
  assert (Hrl : length rl = n)
    by (unfold rl, vscale; rewrite length_zip_with, !length_map; lia).
  destruct (lookup_lt_is_Some_2 (<[0 := xv]> sig) i) as [ri Hri];
    [rewrite length_insert; lia|].
  wp_step. apply wp_lift.
  rewrite (set_row_returns _ _ ri)
    by (try done; rewrite Hrl; symmetry;
        exact (Forall_lookup_1 _ _ _ _ Hr1 Hri)).
  assert (Hr2 : Forall (λ r, length r = n) (<[i := rl]> (<[0 := xv]> sig)))
    by (by apply Forall_insert).
  wp_step. apply wp_get_s.
  destruct (self_s self !! (i + n)) as [sin|] eqn:Hsin; [|done].
  wp_step. apply wp_lift.
  wp_step. apply wp_lift.
  rewrite broadcast_same_length
    by (unfold vscale; rewrite !length_map; lia).
  set (ru := zip_with fadd xv (vscale sin (map fsqrt c))).
  assert (Hru : length ru = n)
    by (unfold ru, vscale; rewrite length_zip_with, !length_map; lia).
  destruct (lookup_lt_is_Some_2 (<[i := rl]> (<[0 := xv]> sig)) (i + n))
    as [rn Hrn]; [rewrite !length_insert; lia|].
  apply wp_lift.
  rewrite (set_row_returns _ _ rn)
    by (try done; rewrite Hru; symmetry;
        exact (Forall_lookup_1 _ _ _ _ Hr2 Hrn)).
  split; [done|]. unfold filled. fold n.
  rewrite !length_insert. split_and!; [done|by apply Forall_insert| |].
  - intros _. rewrite !list_lookup_insert_ne by lia.
    apply list_lookup_insert_eq. lia.
  - intros i' Hi'. destruct (decide (i' = i)) as [->|Hne].
    + exists si, sin, c. split_and!; try done.
      * rewrite list_lookup_insert_ne by lia.
        apply list_lookup_insert_eq. rewrite length_insert. lia.
      * apply list_lookup_insert_eq. rewrite !length_insert. lia.
    + destruct (Hdone i') as (si' & sin' & c' & ? & ? & ? & Hlo & Hup);
        [lia|].
      exists si', sin', c'. split_and!; try done.
      * rewrite !list_lookup_insert_ne by lia. done.
      * rewrite !list_lookup_insert_ne by lia. done.
Qed.

End fill_rows.

Section correction_pass.
Context {F : Type} `{Num F}.
Import GeneralizedSigmaPoints.

Lemma column_fmap (f : F → F) (m : list (list F)) (z : Z) :
  column (map (map f) m) z = c ← column m z; Ok (map f c).
Proof.
  induction m as [|r m IH]; [done|]. cbn [map].
  rewrite !column_cons, IH, length_map.
  destruct (py_index (length r) z) as [k|]; [|done]. cbn [mbind res_bind].
  unfold getitem. rewrite list_lookup_fmap.
  destruct (r !! k); [|done]. cbn. by destruct (column m z).
Qed.

Lemma column_Forall (Q : F → Prop) (m : list (list F)) (z : Z) (c : list F) :
  Forall (Forall Q) m → column m z = Ok c → Forall Q c.
Proof.
  intros Hm. revert c. induction Hm as [|r m Hr _ IH]; intros c.
  - by intros [= <-].
  - rewrite column_cons.
    destruct (py_index (length r) z) as [k|]; [|done]. cbn [mbind res_bind].
    unfold getitem. destruct (r !! k) as [v|] eqn:Hv; [|done]. cbn.
    destruct (column m z) as [c'|]; [|done]. intros [= <-].
    constructor; [|by apply IH].
    exact (Forall_lookup_1 _ _ _ _ Hr Hv).
Qed.

Lemma redefine_scale_param_spec (self : t F) (sig : list (list F))
    (xv : list F) (k : F) :
  items (self_x self) = Ok xv →
  self_k self = Some k →
  wp (_redefine_scale_param sig)
     (λ _ g, ∃ s', g = with_s self s' ∧
                   ∀ i, i < length sig → redefined self sig xv k s' i)
     (λ _ _, True) self.
Proof.
  intros Hx Hk. unfold _redefine_scale_param.
  eapply wp_mono;
    [apply (wp_for_range _ (λ j _ g,
       ∃ s', g = with_s self s' ∧
             (∀ i, j ≤ i → s' !! i = self_s self !! i) ∧
             ∀ i, i < j → redefined self sig xv k s' i)
       (λ _ _, True))| |done].
  - intros j [] g Hj (s' & -> & Hrest & Hdone). cbn [Nat.add].
    wp_step. apply wp_lift. unfold getitem.
    destruct (sig !! j) as [row|] eqn:Hrow; [|done].
    wp_step. apply wp_lift. destruct (np_min row) as [m|] eqn:Hm; [|done].
    destruct (fltb m f0) eqn:Hlt.
    + do 3 wp_step. apply wp_lift. cbn [self_P with_s].
      destruct (column _ _) as [c|] eqn:Hc; [|done].
      wp_step. apply wp_lift. cbn [self_x with_s]. rewrite Hx.
      wp_step. apply wp_lift.
      destruct (broadcast fdiv xv c) as [q|] eqn:Hq; [|done].
      wp_step. apply wp_lift. destruct (np_min q) as [mq|] eqn:Hmq; [|done].
      wp_step. apply wp_lift. cbn [self_k with_s]. rewrite Hk. cbn.
      apply wp_set_s. cbn [self_s with_s].
      destruct (s' !! j) as [sj|] eqn:Hsj; [|done].
      exists (<[j := (k * mq)%num]> s'). split_and!; [done| |].
      * intros i Hi. rewrite list_lookup_insert_ne by lia. apply Hrest. lia.
      * intros i Hi. destruct (decide (i = j)) as [->|Hne].
        -- exists row, m. rewrite Hlt. split_and!; try done.
           exists c, q, mq. split_and!; try done.
           apply list_lookup_insert_eq. by eapply lookup_lt_Some.
        -- destruct (Hdone i) as (row' & m' & Hrow' & Hm' & Hi'); [lia|].
           exists row', m'. split_and!; try done.
           destruct (fltb m' f0); [|by rewrite list_lookup_insert_ne by lia].
           destruct Hi' as (c' & q' & mq' & ? & ? & ? & ?).
           exists c', q', mq'.
           by rewrite list_lookup_insert_ne by lia.
    + wp_step. exists s'. split_and!; [done| |].
      * intros i Hi. apply Hrest. lia.
      * intros i Hi. destruct (decide (i = j)) as [->|Hne].
        -- exists row, m. rewrite Hlt. split_and!; try done.
           apply Hrest. lia.
        -- apply Hdone. lia.
  - exists (self_s self). split_and!; [by destruct self|done|lia].
  - cbn beta. intros [] g (s' & -> & _ & Hdone). by exists s'.
Qed.

(** [_compute_weights(compute_free_parameter=False)] keeps [self.s[i]] for
    [i <= n]. *)
Lemma compute_weights_keeps_scale (self : t F) :
  wp (_compute_weights false)
     (λ _ g, ∃ s' w, g = with_weights (with_s self s') w w ∧
                     ∀ i, i ≤ self_n self → s' !! i = self_s self !! i)
     (λ _ _, True) self.
Proof.
  unfold _compute_weights.
  do 2 wp_step. do 8 (wp_step; try done). wp_step.
  eapply wp_mono;
    [apply (wp_for _ (λ _ g,
       ∃ s', g = with_s self s' ∧
             ∀ i, i ≤ self_n self → s' !! i = self_s self !! i)
       (λ _ _, True))| |done].
  - intros i w g Hi%elem_of_seq (s' & -> & Hkeep).
    wp_step. apply wp_ret. wp_step. apply wp_get_s. cbn [self_s with_s].
    destruct (s' !! i) as [si|]; [|done].
    wp_step. apply wp_lift. destruct (getitem _ _) as [Si|]; [|done].
    wp_step. apply wp_set_s. cbn [self_s with_s].
    destruct (s' !! (i + self_n self)); [|done].
    repeat (wp_step; try done).
    all: eexists; split; [reflexivity|]; intros i' Hi';
      rewrite list_lookup_insert_ne by lia; by apply Hkeep.
  - exists (self_s self). split; [by destruct self|done].
  - cbn beta. intros w g (s' & -> & Hkeep).
    repeat (wp_step; try done). by exists s', (<[0 := (f1 - np_sum w)%num]> w).
Qed.

End correction_pass.

Section constrained_points.
Import GeneralizedSigmaPoints.
Open Scope R_scope.

Lemma Rltb_false_inv (a b : R) : Rltb a b = false → b <= a.
Proof. unfold Rltb. destruct (Rlt_dec a b); [discriminate|lra]. Qed.

Lemma Reqb_true_inv (a b : R) : Reqb a b = true → a = b.
Proof. unfold Reqb. destruct (Req_dec_T a b); [done|discriminate]. Qed.

(** Over the reals no number is a NaN, and the minimum is the least
    element. *)
Lemma foldl_min_spec (a m : R) (v : list R) :
  foldl (λ m b, if negb (feqb m m) then m
                else if negb (feqb b b) then b
                else if fltb b m then b else m) a v = m →
  m <= a ∧ Forall (λ b, m <= b) v ∧ m ∈ a :: v.
Proof.
  revert a. induction v as [|b v IH]; intros a; cbn [foldl].
  - intros <-. split_and!; [lra|done|left].
  - intros Hm. destruct (IH _ Hm) as (Hle & Hall & Hin).
    cbn in Hle, Hin. rewrite !Reqb_true in Hle, Hin by done.
    cbn [negb] in Hle, Hin.
    unfold Rltb in Hle, Hin. destruct (Rlt_dec b a).
    + split_and!; [lra|constructor; [lra|done]|].
      apply elem_of_cons in Hin as [->|Hin]; [right; left|by do 2 right].
    + split_and!; [lra|constructor; [lra|done]|].
      apply elem_of_cons in Hin as [->|Hin]; [left|by do 2 right].
Qed.

Lemma np_min_le (v : list R) (m : R) :
  np_min v = Ok m → Forall (λ b, m <= b) v.
Proof.
  destruct v as [|a v]; [done|]. intros [= Hm].
  destruct (foldl_min_spec a m v Hm) as (Hle & Hall & _). by constructor.
Qed.

Lemma np_min_in (v : list R) (m : R) : np_min v = Ok m → m ∈ v.
Proof.
  destruct v as [|a v]; [done|]. intros [= Hm].
  by destruct (foldl_min_spec a m v Hm) as (_ & _ & Hin).
Qed.

Lemma list_ne_false (a b : list R) : list_ne a b = false → a = b.
Proof.
  unfold list_ne. intros Hne%negb_false_iff.
  apply andb_true_iff in Hne as [Hlen%bool_decide_eq_true Hall].
  revert b Hlen Hall. induction a as [|u a IH]; intros [|v b] Hlen Hall;
    try done.
  cbn in Hall. apply andb_true_iff in Hall as [->%Reqb_true_inv Hall].
  f_equal. apply IH; [by injection Hlen|done].
Qed.

Lemma elementwise_ne_false (a b : list R) :
  (l ← broadcast (λ u v, negb (feqb u v)) a b; Ok (BoolArray l)) ≫= truth
    = Ok false →
  a = b.
Proof.
  unfold broadcast. case_decide as Hlen; cbn [mbind res_bind].
  - destruct a as [|u [|u' a]], b as [|v [|v' b]]; try done.
    cbn. intros [= ->%negb_false_iff%Reqb_true_inv]. done.
  - destruct a as [|u [|u' a]], b as [|v [|v' b]]; done.
Qed.

(** When the test [x != self.x] is false, the mean given and the mean stored
    have the same elements. *)
Lemma py_ne_false_items (x y : pyvalue R) (xv : list R) :
  py_ne (asarray_if_scalar x) y ≫= truth = Ok false →
  items (asarray_if_scalar x) = Ok xv →
  items y = Ok xv.
Proof.
  assert (Harray : ∀ a, py_ne (NdArray a) y ≫= truth = Ok false →
                        items y = Ok a).
  { intros a Hne. destruct y as [|v|b|b|b]; cbn [py_ne] in Hne.
    - cbn in Hne. by destruct a as [|? [|? ?]].
    - by apply elementwise_ne_false in Hne as ->.
    - by apply elementwise_ne_false in Hne as ->.
    - by apply elementwise_ne_false in Hne as ->.
    - by apply elementwise_ne_false in Hne as ->. }
  destruct x as [|u|a|a|a]; cbn [asarray_if_scalar items]; [done| | | |].
  - intros Hne [= <-]. by apply Harray.
  - intros Hne [= <-]. destruct y as [|v|b|b|b]; cbn [py_ne] in Hne;
      try done.
    + cbn in Hne. injection Hne as Hne. by apply list_ne_false in Hne as ->.
    + by apply elementwise_ne_false in Hne as ->.
  - intros Hne [= <-]. destruct y as [|v|b|b|b]; cbn [py_ne] in Hne;
      try done.
    + cbn in Hne. injection Hne as Hne. by apply list_ne_false in Hne as ->.
    + by apply elementwise_ne_false in Hne as ->.
  - intros Hne [= <-]. by apply Harray.
Qed.

(** An entry of a lower row after the correction. *)
Lemma corrected_entry_nonnegative (k mq x c : R) :
  k <= 1 → 0 <= mq → mq <= x / sqrt c → 0 < c → 0 <= x - k * mq * sqrt c.
Proof.
  intros Hk Hmq Hle Hc.
  assert (Hs : 0 < sqrt c) by (by apply sqrt_lt_R0).
  assert (Ht : mq * sqrt c <= x).
  { apply (Rmult_le_compat_r (sqrt c)) in Hle; [|lra].
    unfold Rdiv in Hle. rewrite Rmult_assoc, Rinv_l in Hle; lra. }
  assert (0 <= mq * sqrt c) by (apply Rmult_le_pos; lra).
  assert (k * (mq * sqrt c) <= 1 * (mq * sqrt c))
    by (apply Rmult_le_compat_r; lra).
  lra.
Qed.

End constrained_points.

Section constrained_theorem.
Import GeneralizedSigmaPoints.
Open Scope R_scope.

(** X18. What the correction pass achieves.  On a constrained instance with
    slack [k <= 1], for a mean [x] with no negative element and a covariance
    argument equal to the stored [n]-by-[n] covariance, with positive
    entries: when [sigma_points(x, P)] returns, the mean row [0] and the
    lower rows [1..n], whose scales [s[i]] the correction pass redefines,
    have no negative entry, over the reals.  (The upper rows [n+1..2n] are
    computed from [s[i+n] = s[i] + S_[i-1]] and are not covered.) *)
Theorem constrained_lower_rows_nonnegative (self self' : t R)
    (x : pyvalue R) (P : pycov R) (k : R) (xv : list R)
    (sigmas : list (list R)) :
  let n := self_n self in
  self_positively_constrained self = true →
  self_k self = Some k →
  k <= 1 →
  items (asarray_if_scalar x) = Ok xv →
  Forall (λ v, 0 <= v) xv →
  as_matrix n P = self_P self →
  length (self_P self) = n →
  Forall (Forall (λ v, 0 < v)) (self_P self) →
  GeneralizedSigmaPoints.sigma_points x P self = (Ok sigmas, self') →
  ∀ i row, (i ≤ n)%nat → sigmas !! i = Some row → Forall (λ v, 0 <= v) row.
Proof.
  intros n Hpc Hk Hk1 Hx Hxpos HP HlenP HPpos Hcall.
  enough (Hwp : wp (GeneralizedSigmaPoints.sigma_points x P)
                   (λ sig _, ∀ i row, (i ≤ n)%nat → sig !! i = Some row →
                                      Forall (λ v, 0 <= v) row)
                   (λ _ _, True) self)
    by exact (wp_returns _ _ _ _ _ _ Hwp Hcall).
  clear Hcall.
  unfold GeneralizedSigmaPoints.sigma_points. do 2 wp_step.
  case_decide as Hsize; [by wp_step|]. fold n. rewrite HP.
  assert (Hxlen : length xv = n).
  { rewrite (items_length _ _ Hx). fold n in Hsize.
    destruct (decide (n = np_size x)); [done|contradiction]. }
  wp_step. apply wp_lift.
  destruct (py_ne _ _ ≫= truth) as [[|]|] eqn:Hne; [by wp_step| |done].
  wp_step. apply wp_lift. wp_step.
  pose proof (py_ne_false_items _ _ _ Hne Hx) as Hsx.
  eapply wp_mono; [apply (fill_sigmas_rows self _ _ xv)| |done]; try done.
  { apply length_replicate. }
  { apply Forall_replicate, length_replicate. }
  cbn beta. fold n. intros sig1 ? [-> Hfill1]. rewrite Hpc. wp_step.
  eapply wp_mono; [apply (redefine_scale_param_spec self sig1 xv k)| |done];
    try done.
  cbn beta. intros [] ? (s1 & -> & Hred). wp_step.
  eapply wp_mono; [apply compute_weights_keeps_scale| |done].
  cbn beta. intros [] ? (s2 & w & -> & Hkeep).
  cbn [self_n self_s with_s] in Hkeep. fold n in Hkeep.
  destruct Hfill1 as (Hl1 & Hr1 & H01 & Hrows1). fold n in Hl1, Hr1, Hrows1.
  set (g2 := with_weights (with_s (with_s self s1) s2) w w).
  eapply wp_mono; [apply (fill_sigmas_rows g2 _ _ xv)| |done]; try done.
  cbn beta. intros sig2 ? [-> (Hl2 & Hr2 & H02 & Hrows2)].
  change (self_n g2) with n in Hl2, Hr2, H02, Hrows2.
  change (self_s g2) with s2 in Hrows2.
  intros i row Hi Hrow.
  destruct (decide (i = 0)%nat) as [->|Hi0].
  { destruct (decide (1 ≤ n)%nat) as [Hn|Hn].
    - rewrite (H02 Hn) in Hrow. by injection Hrow as <-.
    - pose proof (Forall_lookup_1 _ _ _ _ Hr2 Hrow) as Hlen.
      destruct row; [done|]. cbn in Hlen. lia. }
  destruct (Hrows2 i) as (si & _ & c & Hsi & _ & Hc & Hrowi & _); [lia|].
  rewrite Hrowi in Hrow. injection Hrow as <-.
  destruct (Hrows1 i) as (si0 & _ & c0 & Hsi0 & _ & Hc0 & Hrow1 & _); [lia|].
  assert (c0 = c) as -> by congruence.
  assert (Hcpos : Forall (λ v, 0 < v) c) by (by eapply column_Forall).
  assert (Hclen : length c = n)
    by (by rewrite (column_length _ _ _ Hc)).
  rewrite Hkeep in Hsi by lia.
  destruct (Hred i) as (row1 & m & Hrow1' & Hm & Hcase); [lia|].
  rewrite Hrow1 in Hrow1'. injection Hrow1' as <-.
  destruct (fltb m f0) eqn:Hlt.
  - destruct Hcase as (c' & q & mq & Hc' & Hq & Hmq & Hs1).
    assert (si = k * mq) as -> by (cbn in Hs1; congruence).
    rewrite column_fmap in Hc'.
    replace (Z.of_nat i - 1)%Z with (Z.of_nat (i - 1)) in Hc' by lia.
    rewrite Hc in Hc'. injection Hc' as <-.
    rewrite broadcast_same_length in Hq by (rewrite length_map; lia).
    injection Hq as <-.
    pose proof (np_min_le _ _ Hmq) as Hmin.
    pose proof (np_min_in _ _ Hmq) as Hin.
    assert (Hq0 : Forall (λ v, 0 <= v) (zip_with fdiv xv (map fsqrt c))).
    { apply Forall_lookup_2. intros j v Hv.
      apply lookup_zip_with_Some in Hv as (a & b & -> & Ha & Hb).
      rewrite list_lookup_fmap in Hb.
      destruct (c !! j) as [cj|] eqn:Hcj; [|done]. injection Hb as <-.
      pose proof (Forall_lookup_1 _ _ _ _ Hxpos Ha).
      pose proof (Forall_lookup_1 _ _ _ _ Hcpos Hcj) as Hcj0.
      apply sqrt_lt_R0 in Hcj0. cbn.
      apply Rmult_le_pos; [done|]. left. by apply Rinv_0_lt_compat. }
    assert (Hmq0 : 0 <= mq)
      by (by apply (proj1 (Forall_forall _ _) Hq0)).
    apply Forall_lookup_2. intros j v Hv.
    apply lookup_zip_with_Some in Hv as (a & b & -> & Ha & Hb).
    unfold vscale in Hb. rewrite !list_lookup_fmap in Hb.
    destruct (c !! j) as [cj|] eqn:Hcj; [|done]. injection Hb as <-. cbn.
    apply corrected_entry_nonnegative; try done.
    + refine (Forall_lookup_1 _ _ j _ Hmin _).
      rewrite lookup_zip_with, Ha. cbn. rewrite list_lookup_fmap, Hcj. done.
    + exact (Forall_lookup_1 _ _ _ _ Hcpos Hcj).
  - assert (si = si0) as -> by (cbn in Hcase; congruence).
    apply Rltb_false_inv in Hlt. cbn in Hlt.
    eapply Forall_impl; [exact (np_min_le _ _ Hm)|].
    intros v Hv. cbn in Hv. lra.
Qed.

End constrained_theorem.

(** *** A call that goes through the correction, evaluated over the reals *)

Section constrained_witness.
Import GeneralizedSigmaPoints.
Open Scope R_scope.

Lemma wp_total {A} (m : M A) (self : t R) :
  wp m (λ _ _, True) (λ _ _, False) self →
  ∃ a self', m self = (Ok a, self').
Proof.
  unfold wp. destruct (m self) as [[a|e] self']; [by eexists _, _|done].
Qed.

(** Evaluation of a closed call, one instruction at a time: the tests on
    real numbers are settled by [lra]. *)
Ltac R_tests :=
  repeat first
    [ rewrite Reqb_true by lra
    | rewrite Reqb_false by lra
    | rewrite Rltb_true by lra
    | rewrite Rltb_false by lra ].

Ltac small_eval :=
  repeat (progress
    (cbn; unfold broadcast, set_row, getitem, py_index, column, vscale,
       mret, res_ret;
     cbn; decide_eval;
     repeat match goal with
       | |- context [Z.to_nat ?z] =>
           let v := eval vm_compute in (Z.to_nat z) in
           change (Z.to_nat z) with v
       end;
     rewrite ?sqrt_1; R_tests)).

Ltac eval_scrutinee :=
  lazymatch goal with
  | |- match ?r with _ => _ end =>
      lazymatch r with
      | Ok _ => idtac
      | Some _ => idtac
      | _ =>
          let E := fresh "E" in
          eassert (E : r = _); [small_eval; reflexivity|rewrite E; clear E]
      end
  | |- _ => idtac
  end;
  lazy beta iota.

Ltac eval_test :=
  lazymatch goal with
  | |- wp (if ?b then _ else _) _ _ _ =>
      let E := fresh "E" in
      first [ assert (E : b = true) by (small_eval; reflexivity)
            | assert (E : b = false) by (small_eval; reflexivity) ];
      rewrite E; clear E
  end.

Ltac wp_eval :=
  lazymatch goal with
  | |- wp (mbind _ _) _ _ _ => apply wp_bind
  | |- wp get _ _ _ => apply wp_get
  | |- wp (mret _) _ _ _ => apply wp_ret
  | |- wp (get_s _) _ _ _ => apply wp_get_s; eval_scrutinee
  | |- wp (set_s _ _) _ _ _ => apply wp_set_s; eval_scrutinee
  | |- wp (setitem _ _ _) _ _ _ => apply wp_setitem; eval_scrutinee
  | |- wp (set_weights _) _ _ _ => apply wp_set_weights
  | |- wp (lift _) _ _ _ => apply wp_lift; eval_scrutinee
  | |- wp (for_M (seq _ _) _ _) _ _ _ =>
      cbn [self_n self_s self_x self_P self_k self_S self_K
           self_positively_constrained with_s with_weights attributes
           length Nat.add Nat.mul];
      cbn [for_M seq]
  | |- wp (if decide _ then _ else _) _ _ _ => decide_eval
  | |- wp (if _ then _ else _) _ _ _ => eval_test
  | |- wp (_redefine_scale_param _) _ _ _ => unfold _redefine_scale_param
  | |- wp (_compute_weights _) _ _ _ => unfold _compute_weights
  | |- wp (fill_sigmas _ _ _) _ _ _ => unfold fill_sigmas
  | |- wp (GeneralizedSigmaPoints.sigma_points _ _) _ _ _ =>
      unfold GeneralizedSigmaPoints.sigma_points
  end.

(** [n = 1], [x = [1]], [P = [[1]]], [k = 1], scales [s = [0, 2, 1]]: the
    first pass gives the rows [[1]], [[-1]], [[2]]; the correction pass sets
    [s[1] = 1], and the call returns. *)
Lemma constrained_call_returns :
  ∃ sigmas self',
    GeneralizedSigmaPoints.sigma_points (NdArray [1]) (CovMatrix [[1]])
      (with_s (attributes 1 [[1]] (NdArray [0]) (NdArray [1]) true (Some 1)
                 (NdArray [1])) [0; 2; 1])
    = (Ok sigmas, self').
Proof. apply wp_total. repeat wp_eval. exact I. Qed.

Lemma constrained_lower_rows_nonnegative_witness :
  ∃ sigmas self',
    GeneralizedSigmaPoints.sigma_points (NdArray [1]) (CovMatrix [[1]])
      (with_s (attributes 1 [[1]] (NdArray [0]) (NdArray [1]) true (Some 1)
                 (NdArray [1])) [0; 2; 1])
    = (Ok sigmas, self') ∧
    ∀ i row, (i ≤ 1)%nat → sigmas !! i = Some row →
             Forall (λ v, 0 <= v) row.
Proof.
  destruct constrained_call_returns as (sigmas & self' & Hcall).
  exists sigmas, self'. split; [exact Hcall|].
  intros i row Hi.
  refine (constrained_lower_rows_nonnegative
            (with_s (attributes 1 [[1]] (NdArray [0]) (NdArray [1]) true
                       (Some 1) (NdArray [1])) [0; 2; 1])
            self' (NdArray [1]) (CovMatrix [[1]]) 1 [1] sigmas
            _ _ _ _ _ _ _ _ Hcall i row Hi).
  - reflexivity.
  - reflexivity.
  - lra.
  - reflexivity.
  - repeat constructor. lra.
  - reflexivity.
  - reflexivity.
  - repeat constructor. lra.
Defined.

(** In exact arithmetic, [n = 1], [P = [[1]]], [S = 0], [K = 1], [x = 5]:
    the constructor of an unconstrained instance returns, and every weight
    has a value ([sqrt(4*K - 3*S^2) = 2], and no divisor is zero). *)
Lemma exact_constructor_returns :
  ∃ g, __init__ 1 (CovMatrix [[Some 1]]) (NdArray [Some 0])
         (NdArray [Some 1]) false None (NdArray [Some 5]) = Ok g ∧
       Forall is_Some (self_Wm g).
Proof.
  unfold __init__. cbn [asarray_if_scalar as_matrix].
  set (self0 := attributes _ _ _ _ _ _ _).
  set (m := (_ ;; _)).
  assert (Hwp : wp m (λ _ g, Forall is_Some (self_Wm g)) (λ _ _, False) self0).
  { unfold m, self0. repeat wp_eval. cbn.
    repeat match goal with
    | |- context [sqrt ?e] =>
        replace (sqrt e) with 2
          by (symmetry; replace e with (2 * 2) by lra; apply sqrt_square; lra)
    end.
    R_tests. cbn. R_tests.
    repeat constructor; by eexists. }
  unfold wp in Hwp. destruct (m self0) as [[[]|e] g']; [|done].
  by exists g'.
Qed.

End constrained_witness.

(** The mean weights of an unconstrained [GeneralizedSigmaPoints] in exact
    arithmetic: they all have a value, and sum to one. *)
Lemma mean_weights_sum_to_one_witness :
  ∃ g, GeneralizedSigmaPoints.__init__ 1 (CovMatrix [[Some 1%R]])
         (NdArray [Some 0%R]) (NdArray [Some 1%R]) false None
         (NdArray [Some 5%R]) = Ok g ∧
       Forall is_Some (Wm (MomentMatched g)) ∧
       np_sum (Wm (MomentMatched g)) = Some 1%R.
Proof.
  destruct exact_constructor_returns as (g & Hg & HW).
  exists g. split_and!; [exact Hg|exact HW|].
  apply mean_weights_sum_to_one; [by eapply reach_MomentMatched|exact HW].
Defined.

(** C2 as it was stated does not hold on binary64 numbers, and the absence
    of a division by zero is not enough.  [JulierSigmaPoints(n=3, kappa=0.)]
    has the weights [0, 1/6, ..., 1/6], which add up to
    [0.99999999999999989], from the left as from the right.
    [GeneralizedSigmaPoints(n=1, P=1, S=3, K=1)] takes the square root of
    [4*K - 3*S**2 = -23]: no division by zero occurs, and every weight is
    NaN. *)
Lemma mean_weights_sum_rounded :
  (∃ g, JulierSigmaPoints.__init__ 3 0%float None None = Ok g ∧
        np_sum (Wm (Symmetric g)) = 0.99999999999999989%float ∧
        foldr PrimFloat.add 0%float (Wm (Symmetric g))
          = 0.99999999999999989%float ∧
        feqb (np_sum (Wm (Symmetric g))) 1%float = false) ∧
  (∃ g, GeneralizedSigmaPoints.__init__ 1 (CovScalar 1%float)
          (PyScalar 3%float) (PyScalar 1%float) false None (PyScalar 5%float)
        = Ok g ∧
        Forall (λ w, PrimFloat.is_nan w = true) (Wm (MomentMatched g)) ∧
        feqb (np_sum (Wm (MomentMatched g))) 1%float = false).
Proof.
  split.
  - eexists. split_and!; [vm_compute; reflexivity|..]; vm_compute; reflexivity.
  - eexists. split_and!; [vm_compute; reflexivity| |vm_compute; reflexivity].
    vm_compute. by repeat constructor.
Qed.

(** C7 fails on the code, whose docstring says that the constrained variant
    recomputes the scale parameters in order to avoid negative sigma points.
    [GeneralizedSigmaPoints(n=1, P=1, S=-3, K=13, positively_constrained=True,
    k=1, x=1)], on binary64 numbers: [_compute_weights] gives
    [s = [0, 4, 1]]; the call of [sigma_points] that the constructor makes
    has the first pass [[1]], [[-3]], [[2]], redefines [s[1] = 1], recomputes
    [s[2] = 1 + (-3) = -2], and returns the rows [[1]], [[0]], [[-1]]: the
    upper row is negative.  The constructor returns the instance so left. *)
Lemma constrained_points_negative :
  ∃ self1 self2 : GeneralizedSigmaPoints.t float,
    GeneralizedSigmaPoints._compute_weights true
      (GeneralizedSigmaPoints.attributes 1 [[1%float]]
         (NdArray [(-3)%float]) (NdArray [13%float]) true (Some 1%float)
         (NdArray [1%float]))
    = (Ok (), self1) ∧
    GeneralizedSigmaPoints.sigma_points (NdArray [1%float])
      (CovMatrix [[1%float]]) self1
    = (Ok [[1%float]; [0%float]; [(-1)%float]], self2) ∧
    GeneralizedSigmaPoints.__init__ 1 (CovScalar 1%float)
      (PyScalar (-3)%float) (PyScalar 13%float) true (Some 1%float)
      (PyScalar 1%float)
    = Ok self2 ∧
    PrimFloat.ltb (-1)%float 0%float = true.
Proof.
  eexists _, _. split_and!.
  - vm_compute. reflexivity.
  - vm_compute. reflexivity.
  - vm_compute. reflexivity.
  - reflexivity.
Qed.

(** ** The covariance argument is not compared *)

(** C6 fails on the code.  [GeneralizedSigmaPoints(n=1, P=1, S=0, K=1,
    positively_constrained=True, k=1, x=5)], on binary64 numbers: the stored
    covariance is [[1]]; a call with the mean of the construction and the
    covariance [4] is not flagged and returns points computed with [4];
    a call with another mean raises [Warning]. *)
Theorem different_covariance_not_flagged :
  ∃ g : GeneralizedSigmaPoints.t float,
    GeneralizedSigmaPoints.__init__ 1 (CovScalar 1%float) (PyScalar 0%float)
      (PyScalar 1%float) true (Some 1%float) (PyScalar 5%float) = Ok g ∧
    GeneralizedSigmaPoints.self_P g = [[1%float]] ∧
    GeneralizedSigmaPoints.sigma_points (PyScalar 5%float) (CovScalar 4%float)
      g
    = (Ok [[5%float]; [3%float]; [7%float]], g) ∧
    GeneralizedSigmaPoints.sigma_points (PyScalar 6%float) (CovScalar 1%float)
      g
    = (Raise Warning, g).
Proof.
  eexists. split_and!.
  - vm_compute. reflexivity.
  - reflexivity.
  - vm_compute. reflexivity.
  - vm_compute. reflexivity.
Qed.

(** * Further properties *)

(** ** [MerweScaledSigmaPoints]: the covariance weights and the parameters
       that the constructor refuses *)

Section merwe_constructor.
Import MerweScaledSigmaPoints.
Open Scope R_scope.

(** X1. The covariance weights of a [MerweScaledSigmaPoints] sum to
    [sum(Wm) + (1 - alpha^2 + beta)], that is to [2 - alpha^2 + beta], over
    the reals: the term added to [Wc[0]] is not compensated. *)
Theorem merwe_Wc_sum n alpha beta kappa sqrt_method subtract (g : t R) :
  __init__ n alpha beta kappa sqrt_method subtract = Ok g →
  np_sum (self_Wc g) = np_sum (self_Wm g) + (1 - alpha * alpha + beta) ∧
  np_sum (self_Wc g) = 2 - alpha * alpha + beta.
Proof.
  intros Hinit.
  destruct (merwe_init_weights _ _ _ _ _ _ _ Hinit)
    as (Hnz & _ & _ & _ & _ & _ & HWm & HWc).
  rewrite HWm, HWc, !np_sum_cons, !np_sum_app, !np_sum_replicate.
  split; [lra|]. field. exact Hnz.
Qed.

Lemma merwe_Wc_sum_witness :
  ∃ g, __init__ 1 1 2 0 None None = Ok g ∧
       np_sum (self_Wc g) = np_sum (self_Wm g) + (1 - 1 * 1 + 2) ∧
       np_sum (self_Wc g) = 2 - 1 * 1 + 2.
Proof.
  destruct (__init__ 1 1 2 0 None None) as [g|e] eqn:Hinit.
  - exists g. split; [reflexivity|]. exact (merwe_Wc_sum _ _ _ _ _ _ _ Hinit).
  - exfalso. unfold __init__, _compute_weights, pydiv in Hinit.
    cbn [fpow2 Num_R mbind res_bind] in Hinit.
    rewrite Reqb_false in Hinit; [discriminate|].
    cbn. lra.
Defined.

(** X2. The constructor of [MerweScaledSigmaPoints] raises
    [ZeroDivisionError] exactly when [alpha = 0] or [kappa = -n], over the
    reals ([n + lambda = alpha^2 * (n + kappa)]); for every other choice of
    the parameters it returns. *)
Theorem merwe_constructor_domain n alpha beta kappa sqrt_method subtract :
  match __init__ n alpha beta kappa sqrt_method subtract with
  | Ok _ => alpha ≠ 0 ∧ INR n + kappa ≠ 0
  | Raise e => e = ZeroDivisionError ∧ (alpha = 0 ∨ INR n + kappa = 0)
  end.
Proof.
  set (lam := alpha * alpha * (INR n + kappa) - INR n).
  assert (Hlam : INR n + lam = alpha * alpha * (INR n + kappa))
    by (unfold lam; ring).
  unfold __init__, _compute_weights, pydiv.
  cbn [fpow2 Num_R mbind res_bind].
  destruct (feqb _ f0) eqn:Hnz; cbn [mbind res_bind].
  - split; [done|]. apply Reqb_true_inv in Hnz.
    change (INR n + lam = 0) in Hnz. rewrite Hlam in Hnz.
    apply Rmult_integral in Hnz as [Hnz|Hnz]; [left|by right].
    apply Rmult_integral in Hnz as [Hnz|Hnz]; done.
  - apply Reqb_false_inv in Hnz.
    change (INR n + lam ≠ 0) in Hnz. rewrite Hlam in Hnz.
    split; intros Hz; apply Hnz; rewrite Hz; ring.
Qed.

End merwe_constructor.

(** ** [JulierSigmaPoints]: weights *)

Section julier_weights.
Context {F : Type} `{Num F}.
Import JulierSigmaPoints.

(** X3. The constructor of [JulierSigmaPoints] raises [ZeroDivisionError]
    when [n + kappa] is zero; otherwise it returns, with
    [Wm[0] = kappa/(n+kappa)], the [2n] other weights equal to
    [.5/(n+kappa)], and [Wc] the same array as [Wm]. *)
Theorem julier_weights_formula (n : nat) (kappa : F) sqrt_method subtract :
  match __init__ n kappa sqrt_method subtract with
  | Ok g =>
      feqb (fnat n + kappa)%num f0 = false ∧
      self_n g = n ∧ self_kappa g = kappa ∧
      self_Wm g = (kappa / (fnat n + kappa))%num
                    :: replicate (2 * n) (fhalf / (fnat n + kappa))%num ∧
      self_Wc g = self_Wm g
  | Raise e =>
      e = ZeroDivisionError ∧ feqb (fnat n + kappa)%num f0 = true
  end.
Proof.
  unfold __init__, _compute_weights, pydiv.
  destruct (feqb _ f0) eqn:Hnz; cbn [mbind res_bind]; [done|].
  cbn [self_n self_kappa self_Wm self_Wc]. split_and!; try done.
  replace (2 * n + 1) with (S (2 * n)) by lia. done.
Qed.

End julier_weights.

(** ** [SimplexSigmaPoints]: a mean given as a list or a tuple *)

Section simplex_list.
Context {F : Type} `{Num F}.
Import SimplexSigmaPoints.

(** X4. [SimplexSigmaPoints.sigma_points] calls [x.reshape]: a mean given as
    a Python list or tuple of [n] numbers raises [AttributeError]. *)
Theorem simplex_list_mean_raises (self : t F) (x : pyvalue F) (l : list F)
    (P : pycov F) :
  x = PyList l ∨ x = PyTuple l →
  length l = self_n self →
  sigma_points self x P = Raise AttributeError.
Proof.
  intros [-> | ->] Hlen; unfold sigma_points; cbn [np_size];
    rewrite decide_False by lia; done.
Qed.

End simplex_list.

Lemma simplex_list_mean_raises_witness :
  SimplexSigmaPoints.sigma_points
    (SimplexSigmaPoints.__init__ 2 1%float None None)
    (PyList [1%float; 2%float]) (CovScalar 1%float)
  = Raise AttributeError.
Proof.
  apply (simplex_list_mean_raises _ _ [1%float; 2%float]);
    [by left|reflexivity].
Defined.

(** ** [GeneralizedSigmaPoints]: the consistency test in dimension one, and
       calls on an unconstrained instance *)

Section generalized_calls.
Context {F : Type} `{Num F}.
Import GeneralizedSigmaPoints.

(** X5. In dimension one, on an instance whose stored mean is the array
    [[a]] (what the constructor stores for a scalar or an array), a call of
    [sigma_points] with a mean [b] that is not equal to [a] raises [Warning]
    and leaves the instance as it was, whatever the covariance and whether
    the instance is constrained or not. *)
Theorem generalized_different_mean_warns (self : t F) (x : pyvalue F)
    (P : pycov F) (a b : F) :
  self_n self = 1 →
  self_x self = NdArray [a] →
  items x = Ok [b] →
  feqb b a = false →
  GeneralizedSigmaPoints.sigma_points x P self = (Raise Warning, self).
Proof.
  intros Hn Ha Hb Hne.
  assert (Hsize : np_size x = 1)
    by (by destruct x as [| |[|? [|? ?]]|[|? [|? ?]]|[|? [|? ?]]]).
  assert (Hcmp : py_ne (asarray_if_scalar x) (self_x self) ≫= truth = Ok true).
  { destruct x as [|u|[|u [|? ?]]|[|u [|? ?]]|[|u [|? ?]]]; try done;
      injection Hb as ->; rewrite Ha; cbn; unfold broadcast; cbn;
      by rewrite Hne. }
  assert (Hwp : wp (GeneralizedSigmaPoints.sigma_points x P)
                   (λ _ _, False) (λ e g, e = Warning ∧ g = self) self).
  { unfold GeneralizedSigmaPoints.sigma_points. do 2 wp_step.
    case_decide; [lia|]. wp_step. apply wp_lift. rewrite Hcmp.
    lazy beta iota. by apply wp_raise. }
  unfold wp in Hwp.
  destruct (GeneralizedSigmaPoints.sigma_points x P self) as [[?|?] ?];
    [done|]. by destruct Hwp as [-> ->].
Qed.

(** X6. A call of [sigma_points] on an unconstrained instance assigns no
    attribute: whether it returns or raises, the scale parameters and the
    weights are those of the construction. *)
Theorem unconstrained_call_keeps_instance (self : t F) (x : pyvalue F)
    (P : pycov F) :
  self_positively_constrained self = false →
  (GeneralizedSigmaPoints.sigma_points x P self).2 = self.
Proof.
  intros Hpc.
  assert (Hwp : wp (GeneralizedSigmaPoints.sigma_points x P)
                   (λ _ g, g = self) (λ _ g, g = self) self).
  { unfold GeneralizedSigmaPoints.sigma_points.
    do 2 wp_step. case_decide; [by wp_step|].
    repeat (wp_step; try done).
    eapply wp_mono; [apply fill_sigmas_pure| |]; cbn beta; [|done].
    intros sigmas ? ->. rewrite Hpc. by wp_step. }
  unfold wp in Hwp.
  by destruct (GeneralizedSigmaPoints.sigma_points x P self) as [[?|?] ?].
Qed.

End generalized_calls.

Lemma generalized_different_mean_warns_witness :
  GeneralizedSigmaPoints.sigma_points (PyScalar 6%float) (CovScalar 1%float)
    (GeneralizedSigmaPoints.attributes 1 [[1%float]] (NdArray [0%float])
       (NdArray [1%float]) false None (NdArray [5%float]))
  = (Raise Warning,
     GeneralizedSigmaPoints.attributes 1 [[1%float]] (NdArray [0%float])
       (NdArray [1%float]) false None (NdArray [5%float])).
Proof.
  apply (generalized_different_mean_warns _ _ _ 5%float 6%float);
    reflexivity.
Defined.

Lemma unconstrained_call_keeps_instance_witness :
  (GeneralizedSigmaPoints.sigma_points (PyScalar 5%float) (CovScalar 1%float)
     (GeneralizedSigmaPoints.attributes 1 [[1%float]] (NdArray [0%float])
        (NdArray [1%float]) false None (NdArray [5%float]))).2
  = GeneralizedSigmaPoints.attributes 1 [[1%float]] (NdArray [0%float])
      (NdArray [1%float]) false None (NdArray [5%float]).
Proof. apply unconstrained_call_keeps_instance. reflexivity. Defined.

(** ** The number of points and of weights *)

Section shapes.
Context {F : Type} `{Num F}.


Lemma shape_zeros (r c : nat) : shape r c (zeros r c).
Proof.
  split; [apply length_replicate|].
  apply Forall_replicate, length_replicate.
Qed.

(** An assignment [m[i] = v] that returns keeps the shape of [m]. *)
Lemma set_row_shape (r c i : nat) (v : list F) (m m' : list (list F)) :
  shape r c m → set_row i v m = Ok m' → shape r c m'.
Proof.
  intros [Hlen Hrows]. unfold set_row.
  destruct (m !! i) as [row|] eqn:Hrow; [|done].
  pose proof (Forall_lookup_1 _ _ _ _ Hrows Hrow) as Hc.
  case_decide as Hv.
  - intros [= <-]. split; [by rewrite length_insert|].
    apply Forall_insert; [done|congruence].
  - destruct v as [|v0 [|? ?]]; try done.
    intros [= <-]. split; [by rewrite length_insert|].
    apply Forall_insert; [done|]. by rewrite length_replicate.
Qed.

(** A loop that returns has kept what each of its iterations keeps. *)
Lemma for_in_invariant {A S} (I : S → Prop) (l : list A)
    (body : A → S → res S) (s s' : S) :
  (∀ a s s', I s → body a s = Ok s' → I s') →
  I s → for_in l body s = Ok s' → I s'.
Proof.
  intros Hbody. revert s. induction l as [|a l IH]; intros s HI; cbn.
  - by intros [= <-].
  - destruct (body a s) as [s1|] eqn:Hs1; [|done]. cbn.
    apply IH. by eapply Hbody.
Qed.

Lemma points_loop_shape (n : nat) (U : list (list F)) (xv : list F)
    (subtract : list F → list F → res (list F)) (sigmas sigmas' : list (list F)) :
  shape (2 * n + 1) n sigmas →
  for_in (seq 0 n) (λ k sigmas,
      Uk ← getitem U k;
      r ← subtract xv (vneg Uk);
      sigmas ← set_row (k + 1) r sigmas;
      Uk ← getitem U k;
      r ← subtract xv Uk;
      set_row (n + k + 1) r sigmas) sigmas = Ok sigmas' →
  shape (2 * n + 1) n sigmas'.
Proof.
  apply for_in_invariant. intros k sig sig' Hsig.
  destruct (getitem U k) as [Uk|]; [|done]. cbn.
  destruct (subtract xv (vneg Uk)) as [rp|]; [|done]. cbn.
  destruct (set_row (k + 1) rp sig) as [sig1|] eqn:H1; [|done]. cbn.
  destruct (subtract xv Uk) as [rm|]; [|done]. cbn.
  intros H2. eapply set_row_shape; [|exact H2].
  by eapply set_row_shape.
Qed.

Lemma merwe_shape (self : MerweScaledSigmaPoints.t F) x P sigmas :
  MerweScaledSigmaPoints.sigma_points self x P = Ok sigmas →
  shape (2 * MerweScaledSigmaPoints.self_n self + 1)
        (MerweScaledSigmaPoints.self_n self) sigmas.
Proof.
  unfold MerweScaledSigmaPoints.sigma_points. case_decide; [done|].
  destruct (fpow2 _) as [a2|]; [|done]. cbn [mbind res_bind].
  destruct (MerweScaledSigmaPoints.self_sqrt _ _) as [U|]; [|done]. cbn.
  destruct (items _) as [xv|]; [|done]. cbn.
  destruct (set_row 0 xv _) as [sig0|] eqn:Hset0; [|done]. cbn.
  apply points_loop_shape. eapply set_row_shape; [|exact Hset0].
  apply shape_zeros.
Qed.

Lemma julier_shape (self : JulierSigmaPoints.t F) x P sigmas :
  JulierSigmaPoints.sigma_points self x P = Ok sigmas →
  shape (2 * JulierSigmaPoints.self_n self + 1)
        (JulierSigmaPoints.self_n self) sigmas.
Proof.
  unfold JulierSigmaPoints.sigma_points. case_decide as Hsize; [done|].
  assert (Hn : np_size (asarray_if_scalar x) = JulierSigmaPoints.self_n self).
  { destruct (decide (JulierSigmaPoints.self_n self = np_size x)) as [->|];
      [by destruct x|contradiction]. }
  rewrite Hn.
  destruct (JulierSigmaPoints.self_sqrt _ _) as [U|]; [|done]. cbn.
  destruct (items _) as [xv|]; [|done]. cbn.
  destruct (set_row 0 xv _) as [sig0|] eqn:Hset0; [|done]. cbn.
  apply points_loop_shape. eapply set_row_shape; [|exact Hset0].
  apply shape_zeros.
Qed.

Import GeneralizedSigmaPoints.

Lemma fill_sigmas_shape (self : t F) x P sigmas r c :
  shape r c sigmas →
  wp (fill_sigmas x P sigmas) (λ sig g, g = self ∧ shape r c sig)
     (λ _ g, g = self) self.
Proof.
  intros Hshape. unfold fill_sigmas. do 2 wp_step.
  apply (wp_for _ (λ sig g, g = self ∧ shape r c sig)); [|done].
  intros i sig g _ [-> Hsig].
  repeat (wp_step; try done).
  split; [done|].
  repeat match goal with
         | Hset : set_row _ _ _ = Ok _ |- _ =>
             apply set_row_shape with (r := r) (c := c) in Hset; [|done]
         end.
  done.
Qed.

(** When [_compute_weights] returns, [Wm] and [Wc] are one array of
    [2n+1] weights; when it raises, they are as they were. *)
Lemma compute_weights_lengths (b : bool) (J : t F → Prop) (n : nat)
    (self : t F) :
  (∀ g s, J g → J (with_s g s)) →
  self_n self = n → J self →
  wp (_compute_weights b)
     (λ _ g, self_n g = n ∧ length (self_Wm g) = 2 * n + 1 ∧
             self_Wc g = self_Wm g)
     (λ _ g, self_n g = n ∧ J g) self.
Proof.
  intros Hs Hn HJ. unfold _compute_weights.
  do 2 wp_step. do 8 (wp_step; try done). wp_step.
  eapply wp_mono;
    [apply (wp_for _ (λ w g, (self_n g = n ∧ J g) ∧ length w = 2 * n + 1)
                     (λ _ g, self_n g = n ∧ J g))| |].
  - intros i w g _ [[Hng Hg] Hw]. wp_step.
    eapply wp_mono with (Q := λ _ g, self_n g = n ∧ J g)
                        (E := λ _ g, self_n g = n ∧ J g).
    { destruct b; repeat (wp_step; try done). split; [done|by apply Hs]. }
    2: done.
    intros _ g1 [Hn1 Hg1]. cbn beta.
    repeat (wp_step; try done); try (split; [done|by apply Hs]).
    split; [split; [done|by apply Hs]|]. by rewrite !length_insert.
  - split; [done|]. rewrite Hn. apply length_replicate.
  - cbn beta. intros w g [[Hng Hg] Hw].
    repeat (wp_step; try done).
    cbn. by rewrite length_insert.
  - cbn beta. tauto.
Qed.


Lemma sigma_points_weights_ok x P (self : t F) :
  weights_ok self →
  wp (GeneralizedSigmaPoints.sigma_points x P)
     (λ _ g, weights_ok g) (λ _ g, weights_ok g) self.
Proof.
  intros Hok. unfold GeneralizedSigmaPoints.sigma_points.
  do 2 wp_step. case_decide; [by wp_step|].
  repeat (wp_step; try done).
  eapply wp_mono; [apply fill_sigmas_pure| |]; cbn beta; [|by intros ? ? ->].
  intros sigmas ? ->.
  destruct (self_positively_constrained self); [|by wp_step].
  wp_step.
  eapply wp_mono;
    [apply (redefine_scale_param_frame weights_ok)| |];
    cbn beta; [done|done| |done].
  intros _ g1 Hg1. wp_step.
  eapply wp_mono;
    [apply (compute_weights_lengths false weights_ok (self_n g1)); done| |];
    cbn beta; [|tauto].
  intros _ g2 (Hn2 & Hlen2 & Hc2).
  assert (Hok2 : weights_ok g2) by (split; [by rewrite Hn2|done]).
  eapply wp_mono; [apply fill_sigmas_pure| |]; cbn beta; by intros; subst.
Qed.

Lemma generalized_init_weights_ok n P S K pc k x (g : t F) :
  __init__ n P S K pc k x = Ok g → weights_ok g.
Proof.
  unfold __init__.
  set (self0 := attributes _ _ _ _ _ _ _).
  set (m := (_ ;; _)).
  assert (Hwp : wp m (λ _ g, weights_ok g) (λ _ _, True) self0).
  { unfold m. wp_step.
    eapply wp_mono;
      [apply (compute_weights_lengths true (λ _, True) n); done| |done].
    cbn beta. intros _ g1 (Hn1 & Hlen1 & Hc1).
    assert (Hok1 : weights_ok g1) by (split; [by rewrite Hn1|done]).
    destruct pc; [|by wp_step].
    wp_step. eapply wp_mono; [apply sigma_points_weights_ok, Hok1| |done].
    cbn beta. intros _ g2 Hg2. by wp_step. }
  unfold wp in Hwp. destruct (m self0) as [[[]|e] g']; [|done].
  by intros [= <-].
Qed.

End shapes.

Section sizes.
Context {F : Type} `{Num F}.

Lemma reachable_weights (gen : generator F) :
  reachable gen →
  length (Wm gen) = num_sigmas gen ∧ Wc gen = Wm gen ∨
  length (Wm gen) = num_sigmas gen ∧ length (Wc gen) = num_sigmas gen ∧
  ∃ g, gen = Scaled g.
Proof.
  induction 1 as [n alpha beta kappa sq sub g Hg|n kappa sq sub g Hg
                 |n alpha sq sub|n P S K pc k x g Hg|gen x P r gen' _ IH Hcall].
  - right.
    unfold MerweScaledSigmaPoints.__init__,
      MerweScaledSigmaPoints._compute_weights, pydiv in Hg.
    destruct (fpow2 alpha) as [a2|]; cbn [mbind res_bind] in Hg;
      [|discriminate].
    destruct (feqb _ f0); cbn [mbind res_bind] in Hg; [discriminate|].
    injection Hg as <-.
    unfold num_sigmas, MerweScaledSigmaPoints.num_sigmas.
    cbn [Wm Wc MerweScaledSigmaPoints.self_n MerweScaledSigmaPoints.self_Wm
         MerweScaledSigmaPoints.self_Wc].
    rewrite !length_insert, !length_replicate.
    split_and!; [done|done|by eexists].
  - left.
    unfold JulierSigmaPoints.__init__,
      JulierSigmaPoints._compute_weights, pydiv in Hg.
    destruct (feqb _ f0); cbn [mbind res_bind] in Hg; [discriminate|].
    injection Hg as <-.
    unfold num_sigmas, JulierSigmaPoints.num_sigmas.
    cbn [Wm Wc JulierSigmaPoints.self_n JulierSigmaPoints.self_Wm
         JulierSigmaPoints.self_Wc].
    rewrite !length_insert, !length_replicate. done.
  - left. cbn. unfold SimplexSigmaPoints.num_sigmas. cbn.
    by rewrite length_replicate.
  - left.
    destruct (generalized_init_weights_ok _ _ _ _ _ _ _ _ Hg) as [Hl Hc].
    done.
  - destruct gen as [g|g|g|g]; cbn in Hcall; try (by injection Hcall as _ <-).
    assert (Hok : weights_ok g).
    { destruct IH as [[Hm Hc]|(_ & _ & ? & ?)]; done. }
    pose proof (sigma_points_weights_ok x P g Hok) as Hwp.
    unfold GeneralizedSigmaPoints.wp in Hwp.
    destruct (GeneralizedSigmaPoints.sigma_points x P g) as [[sig|e] g'];
      injection Hcall as _ <-; destruct Hwp as [Hl Hc]; by left.
Qed.

(** X7. For each of the four generators, after construction and after any
    number of calls of [sigma_points], the arrays [Wm] and [Wc] have
    [num_sigmas()] entries. *)
Theorem weights_length (gen : generator F) :
  reachable gen →
  length (Wm gen) = num_sigmas gen ∧ length (Wc gen) = num_sigmas gen.
Proof.
  intros [[Hm Hc]|(Hm & Hc & _)]%reachable_weights; [|done].
  by rewrite Hc.
Qed.

(** X8. Whatever the injected [sqrt] and [subtract] are, an array returned by
    [sigma_points] of a [MerweScaledSigmaPoints], a [JulierSigmaPoints] or a
    [GeneralizedSigmaPoints] has [num_sigmas()] rows of [n] entries. *)
Theorem sigma_points_shape (gen : generator F) (x : pyvalue F) (P : pycov F)
    (sigmas : list (list F)) (gen' : generator F) :
  (∀ g, gen ≠ Simplex g) →
  sigma_points gen x P = (Ok sigmas, gen') →
  length sigmas = num_sigmas gen ∧
  Forall (λ row, length row = dimension gen) sigmas.
Proof.
  intros Hgen. destruct gen as [g|g|g|g]; cbn.
  - intros [= Hcall _]. by eapply merwe_shape.
  - intros [= Hcall _]. by eapply julier_shape.
  - by destruct (Hgen g).
  - destruct (GeneralizedSigmaPoints.sigma_points x P g) as [r g'] eqn:Hcall.
    intros [= -> _].
    assert (Hwp : GeneralizedSigmaPoints.wp
                    (GeneralizedSigmaPoints.sigma_points x P)
                    (λ sig _, shape (2 * GeneralizedSigmaPoints.self_n g + 1)
                                    (GeneralizedSigmaPoints.self_n g) sig)
                    (λ _ _, True) g).
    { unfold GeneralizedSigmaPoints.sigma_points.
      do 2 wp_step. case_decide; [by wp_step|].
      repeat (wp_step; try done).
      eapply wp_mono; [apply fill_sigmas_shape, shape_zeros| |done].
      cbn beta. intros sig1 ? [-> Hsig1].
      destruct (GeneralizedSigmaPoints.self_positively_constrained g);
        [|by wp_step].
      wp_step.
      eapply wp_mono;
        [apply (redefine_scale_param_frame
                  (λ g', GeneralizedSigmaPoints.self_n g'
                         = GeneralizedSigmaPoints.self_n g))| |];
        cbn beta; [done|done| |done].
      intros _ g1 Hg1. wp_step.
      eapply wp_mono;
        [apply (compute_weights_frame
                  (λ g', GeneralizedSigmaPoints.self_n g'
                         = GeneralizedSigmaPoints.self_n g)); done| |done].
      cbn beta. intros _ g2 Hg2.
      eapply wp_mono; [by apply fill_sigmas_shape| |done].
      cbn beta. by intros sig2 ? [_ Hsig2]. }
    exact (wp_returns _ _ _ _ _ _ Hwp Hcall).
Qed.

End sizes.

Lemma sigma_points_shape_witness :
  ∃ g, JulierSigmaPoints.__init__ 2 1%float None None = Ok g ∧
  ∃ sigmas,
    JulierSigmaPoints.sigma_points g (PyList [1%float; 2%float])
      (CovScalar 4%float) = Ok sigmas ∧
    length sigmas = num_sigmas (Symmetric g) ∧
    Forall (λ row, length row = dimension (Symmetric g)) sigmas.
Proof.
  eexists. split; [vm_compute; reflexivity|].
  eexists. split; [vm_compute; reflexivity|].
  eapply (sigma_points_shape _ (PyList [1%float; 2%float])
            (CovScalar 4%float)); [done|].
  vm_compute. reflexivity.
Defined.

Lemma weights_length_witness :
  length (Wm (Simplex (SimplexSigmaPoints.__init__ 2 1%float None None))) = 3 ∧
  length (Wc (Simplex (SimplexSigmaPoints.__init__ 2 1%float None None))) = 3.
Proof. apply weights_length, reach_Simplex. Defined.

(** ** The points of [JulierSigmaPoints] *)

Section julier_points.
Context {F : Type} `{Num F}.
Import JulierSigmaPoints.

(** X9. [sigma_points(x, P)] of a [JulierSigmaPoints] of dimension [n], for
    a mean [x] of [n] elements: when the injected [sqrt] returns [U] for
    [(n + kappa) * P] and the injected [subtract] returns rows of length [n]
    on the rows of [U], the call returns [2n+1] rows of length [n]; row [0]
    is [x], row [k+1] is [subtract(x, -U[k])] and row [n+k+1] is
    [subtract(x, U[k])], for every [k < n]. *)
Theorem julier_sigma_points_rows (self : t F) (x : pyvalue F) (P : pycov F)
    (xv : list F) (U : list (list F)) :
  let n := self_n self in
  np_size x = n →
  items (asarray_if_scalar x) = Ok xv →
  self_sqrt self (mscale (fnat n + self_kappa self)%num (as_matrix n P))
    = Ok U →
  (∀ k, k < n → ∃ Uk rp rm,
      U !! k = Some Uk ∧
      self_subtract self xv (vneg Uk) = Ok rp ∧ length rp = n ∧
      self_subtract self xv Uk = Ok rm ∧ length rm = n) →
  ∃ sigmas,
    sigma_points self x P = Ok sigmas ∧
    length sigmas = 2 * n + 1 ∧
    Forall (λ r, length r = n) sigmas ∧
    sigmas !! 0 = Some xv ∧
    ∀ k Uk, k < n → U !! k = Some Uk →
      getitem sigmas (k + 1) = self_subtract self xv (vneg Uk) ∧
      getitem sigmas (n + k + 1) = self_subtract self xv Uk.
Proof.
  intros n Hsize Hx HU Hsub. unfold sigma_points.
  rewrite decide_False by (fold n; lia).
  assert (Hn : np_size (asarray_if_scalar x) = n)
    by (rewrite <- Hsize; by destruct x).
  rewrite Hn, HU. cbn. rewrite Hx. cbn.
  assert (Hlen : length xv = n) by (rewrite <- Hsize; by apply items_length).
  assert (Hz : zeros (2 * n + 1) n !! 0 = Some (replicate n f0))
    by (apply lookup_replicate_2; lia).
  rewrite (set_row_returns _ _ _ _ Hz) by (by rewrite length_replicate).
  cbn.
  destruct (points_loop_returns n U xv (self_subtract self)
              (<[0 := xv]> (zeros (2 * n + 1) n)))
    as (sigmas & Hloop & Hl & Hr & Hfirst & Hk).
  - rewrite length_insert. apply length_replicate.
  - apply Forall_insert; [|done]. apply Forall_replicate, length_replicate.
  - exact Hsub.
  - exists sigmas. split_and!; try done.
    rewrite Hfirst. apply list_lookup_insert_eq.
    unfold zeros. rewrite length_replicate. lia.
Qed.

(** The array that [sigmas[0] = x] and the loop build with the default
    [subtract], for a square [U]. *)
Lemma symmetric_points_closed_form (n : nat) (xv : list F)
    (U : list (list F)) :
  length xv = n → length U = n → Forall (λ r, length r = n) U →
  (sigmas ← set_row 0 xv (zeros (2 * n + 1) n);
   for_in (seq 0 n) (λ k sigmas,
     Uk ← getitem U k;
     r ← np_subtract xv (vneg Uk);
     sigmas ← set_row (k + 1) r sigmas;
     Uk ← getitem U k;
     r ← np_subtract xv Uk;
     set_row (n + k + 1) r sigmas) sigmas)
  = Ok (xv :: map (λ u, zip_with fsub xv (vneg u)) U
           ++ map (λ u, zip_with fsub xv u) U).
Proof.
  intros Hlen HlenU HrowsU.
  assert (Hz : zeros (2 * n + 1) n !! 0 = Some (replicate n f0))
    by (apply lookup_replicate_2; lia).
  rewrite (set_row_returns _ _ _ _ Hz) by (by rewrite length_replicate).
  cbn.
  assert (HUk : ∀ k Uk, U !! k = Some Uk → length Uk = n)
    by (intros k Uk; apply (Forall_lookup_1 _ _ _ _ HrowsU)).
  destruct (points_loop_returns n U xv np_subtract
              (<[0 := xv]> (zeros (2 * n + 1) n)))
    as (sigmas & Hloop & Hl & Hr & Hfirst & Hk).
  - rewrite length_insert. apply length_replicate.
  - apply Forall_insert; [|done]. apply Forall_replicate, length_replicate.
  - intros k Hk. destruct (lookup_lt_is_Some_2 U k) as [Uk HUk']; [lia|].
    pose proof (HUk _ _ HUk') as HlenUk.
    exists Uk, (zip_with fsub xv (vneg Uk)), (zip_with fsub xv Uk).
    unfold vneg. rewrite !np_subtract_same_length
      by (rewrite ?length_map; congruence).
    rewrite !length_zip_with, !length_map. split_and!; try done; lia.
  - transitivity (Ok sigmas); [exact Hloop|].
    f_equal. apply list_eq. intros i.
    destruct (decide (i = 0)) as [->|Hi0].
    { rewrite Hfirst. cbn. apply list_lookup_insert_eq.
      unfold zeros. rewrite length_replicate. lia. }
    destruct i as [|i]; [done|]. rewrite (lookup_cons _ _ (S i)). cbn match.
    destruct (decide (i < n)) as [Hlt|Hge].
    + destruct (lookup_lt_is_Some_2 U i) as [Uk HUk']; [lia|].
      destruct (Hk i Uk Hlt HUk') as [Hp _].
      pose proof (HUk _ _ HUk') as HlenUk.
      rewrite np_subtract_same_length in Hp
        by (unfold vneg; rewrite length_map; congruence).
      unfold getitem in Hp. replace (i + 1) with (S i) in Hp by lia.
      rewrite lookup_app_l by (rewrite length_map; lia).
      rewrite list_lookup_fmap, HUk'. cbn.
      destruct (sigmas !! S i); congruence.
    + rewrite lookup_app_r by (rewrite length_map; lia).
      rewrite length_map, list_lookup_fmap.
      destruct (decide (i - length U < n)) as [Hlt|Hge'].
      * destruct (lookup_lt_is_Some_2 U (i - length U)) as [Uk HUk']; [lia|].
        destruct (Hk (i - length U) Uk Hlt HUk') as [_ Hm].
        pose proof (HUk _ _ HUk') as HlenUk.
        rewrite np_subtract_same_length in Hm by congruence.
        unfold getitem in Hm.
        replace (n + (i - length U) + 1) with (S i) in Hm by lia.
        rewrite HUk'. cbn. destruct (sigmas !! S i); congruence.
      * rewrite (lookup_ge_None_2 U) by lia. cbn.
        apply lookup_ge_None_2. lia.
Qed.

Lemma julier_points_closed_form (self : t F) (x : pyvalue F) (P : pycov F)
    (xv : list F) (U : list (list F)) :
  let n := self_n self in
  self_subtract self = np_subtract →
  np_size x = n →
  items (asarray_if_scalar x) = Ok xv →
  self_sqrt self (mscale (fnat n + self_kappa self)%num (as_matrix n P))
    = Ok U →
  length U = n →
  Forall (λ r, length r = n) U →
  sigma_points self x P
  = Ok (xv :: map (λ u, zip_with fsub xv (vneg u)) U
           ++ map (λ u, zip_with fsub xv u) U).
Proof.
  intros n Hsub Hsize Hx HU HlenU HrowsU. unfold sigma_points.
  rewrite decide_False by (fold n; lia).
  assert (Hn : np_size (asarray_if_scalar x) = n)
    by (rewrite <- Hsize; by destruct x).
  rewrite Hn, HU. cbn [mbind res_bind]. rewrite Hx. cbn [mbind res_bind].
  rewrite Hsub.
  apply symmetric_points_closed_form; try done.
  rewrite <- Hsize. by apply items_length.
Qed.

End julier_points.

Lemma julier_sigma_points_rows_witness :
  ∃ self, JulierSigmaPoints.__init__ 2 1%float None None = Ok self ∧
  ∃ sigmas,
    JulierSigmaPoints.sigma_points self
      (PyList [1%float; 2%float]) (CovScalar 4%float) = Ok sigmas ∧
    length sigmas = 5 ∧
    sigmas !! 0 = Some [1%float; 2%float].
Proof.
  eexists. split; [vm_compute; reflexivity|].
  match goal with
  | |- ∃ sigmas, JulierSigmaPoints.sigma_points ?g _ _ = _ ∧ _ =>
      edestruct (julier_sigma_points_rows g (PyList [1%float; 2%float])
                   (CovScalar 4%float) [1%float; 2%float])
        as (sigmas & Hcall & Hlen & _ & Hfirst & _)
  end.
  - reflexivity.
  - reflexivity.
  - vm_compute. reflexivity.
  - intros k Hk. change (k < 2) in Hk.
    destruct k as [|[|k]]; [| |lia]; do 3 eexists; vm_compute;
      split_and!; reflexivity.
  - exists sigmas. split_and!; [exact Hcall|exact Hlen|exact Hfirst].
Defined.

(** ** The moments of a symmetric set of points *)

Section symmetric_moments.
Open Scope R_scope.

(** The weighted mean of the points [x], [x - (-u)], [x - u], for the rows
    [u] of a square [U], with weights [w0] for the first and [c] for the
    others. *)
Lemma symmetric_weighted_mean (n : nat) (w0 c : R) (xv : list R)
    (U : list (list R)) :
  length xv = n → length U = n → Forall (λ r, length r = n) U →
  weighted_mean n (w0 :: replicate n c ++ replicate n c)
    (xv :: map (λ u, zip_with fsub xv (vneg u)) U
        ++ map (λ u, zip_with fsub xv u) U)
  = map (λ v, (w0 + 2 * INR n * c) * v) xv.
Proof.
  intros Hxlen HlenU HrowsU.
  assert (HUk : ∀ u, u ∈ U → length u = n) by (by apply Forall_forall).
  unfold weighted_mean.
  transitivity (map (λ v, (w0 + 2 * INR n * c) * v)
                    (map (at_ xv) (seq 0 n))).
  2: { by rewrite <- Hxlen, map_at_seq. }
  rewrite map_map.
  apply map_ext_in. intros j Hj%in_seq.
  cbn [zip_with]. rewrite np_sum_cons.
  rewrite zip_with_app by (rewrite length_replicate, length_map; done).
  rewrite np_sum_app.
  change (@map (list R)) with (@fmap list _ (list R)).
  rewrite !zip_with_fmap_r.
  rewrite !(np_sum_zip_replicate _ _ U n HlenU).
  rewrite (np_sum_map_ext _ (λ u, at_ xv j - - at_ u j)).
  2: { intros u Hu. unfold vneg. rewrite at_zip_with, at_map;
         rewrite ?length_map, ?Hxlen, ?(HUk u Hu); try done; lia. }
  rewrite (np_sum_map_ext (λ u, at_ (zip_with fsub xv u) j)
             (λ u, at_ xv j - at_ u j)).
  2: { intros u Hu. rewrite at_zip_with;
         rewrite ?Hxlen, ?(HUk u Hu); try done; lia. }
  rewrite <- Rmult_plus_distr_l, sum_plus_minus, HlenU. cbn. ring.
Qed.

(** Their weighted covariance about [x]: entry [(i, j)] is
    [2c * sum_u u[i] * u[j]]. *)
Lemma symmetric_weighted_covariance (n : nat) (w0 c : R) (xv : list R)
    (U : list (list R)) :
  length xv = n → length U = n → Forall (λ r, length r = n) U →
  weighted_covariance n (w0 :: replicate n c ++ replicate n c)
    (xv :: map (λ u, zip_with fsub xv (vneg u)) U
        ++ map (λ u, zip_with fsub xv u) U) xv
  = map (λ i, map (λ j, 2 * c * np_sum (map (λ u, at_ u i * at_ u j) U))
                  (seq 0 n)) (seq 0 n).
Proof.
  intros Hxlen HlenU HrowsU.
  assert (HUk : ∀ u, u ∈ U → length u = n) by (by apply Forall_forall).
  unfold weighted_covariance.
  apply map_ext_in. intros i Hi%in_seq.
  apply map_ext_in. intros j Hj%in_seq.
  cbn [zip_with]. rewrite np_sum_cons.
  rewrite zip_with_app by (rewrite length_replicate, length_map; done).
  rewrite np_sum_app.
  change (@map (list R)) with (@fmap list _ (list R)).
  rewrite !zip_with_fmap_r.
  rewrite (np_sum_zip_replicate
             (λ u, (at_ (zip_with fsub xv (vneg u)) i - at_ xv i)
                   * (at_ (zip_with fsub xv (vneg u)) j - at_ xv j))
             _ U n HlenU).
  rewrite (np_sum_zip_replicate
             (λ u, (at_ (zip_with fsub xv u) i - at_ xv i)
                   * (at_ (zip_with fsub xv u) j - at_ xv j))
             _ U n HlenU).
  rewrite (np_sum_map_ext _
             (λ u, (at_ xv i - - at_ u i - at_ xv i)
                   * (at_ xv j - - at_ u j - at_ xv j))).
  2: { intros u Hu. unfold vneg. rewrite !at_zip_with, !at_map;
         rewrite ?length_map, ?Hxlen, ?(HUk u Hu); try done; lia. }
  rewrite (np_sum_map_ext
             (λ u, (at_ (zip_with fsub xv u) i - at_ xv i)
                   * (at_ (zip_with fsub xv u) j - at_ xv j))
             (λ u, (at_ xv i - at_ u i - at_ xv i)
                   * (at_ xv j - at_ u j - at_ xv j))).
  2: { intros u Hu. rewrite !at_zip_with;
         rewrite ?Hxlen, ?(HUk u Hu); try done; lia. }
  rewrite <- Rmult_plus_distr_l, sum_outer_plus_minus. cbn.
  match goal with
  | |- context [np_sum (map ?f U)] => set (s := np_sum (map f U))
  end.
  change (np_sum (_ <$> U)) with s. ring.
Qed.

End symmetric_moments.

(** ** The points and weights of [JulierSigmaPoints] reproduce the mean and
       the covariance *)

Section julier_moments.
Import JulierSigmaPoints.
Open Scope R_scope.

(** The weights that the constructor computed. *)
Lemma julier_init_weights n kappa sqrt_method subtract (g : t R) :
  __init__ n kappa sqrt_method subtract = Ok g →
  let c := / 2 / (INR n + kappa) in
  INR n + kappa ≠ 0 ∧
  self_n g = n ∧ self_kappa g = kappa ∧
  self_sqrt g = default cholesky sqrt_method ∧
  self_subtract g = default np_subtract subtract ∧
  self_Wm g = kappa / (INR n + kappa) :: replicate n c ++ replicate n c ∧
  self_Wc g = self_Wm g.
Proof.
  unfold __init__, _compute_weights, pydiv.
  destruct (feqb _ f0) eqn:Hnz; cbn [mbind res_bind]; [discriminate|].
  intros [= <-]. cbn [self_n self_kappa self_sqrt self_subtract
                       self_Wm self_Wc].
  apply Reqb_false_inv in Hnz. split_and!; try done.
  match goal with
  | |- context [replicate ?k _] => replace k with (S (n + n)) by lia
  end.
  cbn [replicate insert list_insert]. by rewrite replicate_add.
Qed.

(** X10. For a [JulierSigmaPoints] built with the default [subtract] and any
    [sqrt_method], a mean [x] of [n] elements and an [n]-by-[n] covariance
    [P]: when [sqrt_method] returns, for [(n + kappa) * P], a square [U]
    with [U.T @ U] equal to its argument, the points that
    [sigma_points(x, P)] returns and the weights satisfy
    [sum_k Wm[k] * sigmas[k] = x] and
    [sum_k Wc[k] * outer(sigmas[k] - x, sigmas[k] - x) = P], over the
    reals. *)
Theorem julier_reconstructs_moments (n : nat) (kappa : R)
    sqrt_method (g : t R) (x : pyvalue R) (P : pycov R)
    (xv : list R) (U : list (list R)) :
  let Pm := as_matrix n P in
  __init__ n kappa sqrt_method None = Ok g →
  np_size x = n →
  items (asarray_if_scalar x) = Ok xv →
  length Pm = n → Forall (λ r, length r = n) Pm →
  self_sqrt g (mscale (INR n + kappa) Pm) = Ok U →
  length U = n → Forall (λ r, length r = n) U →
  dot (transpose U) U = Ok (mscale (INR n + kappa) Pm) →
  ∃ sigmas,
    sigma_points g x P = Ok sigmas ∧
    weighted_mean n (self_Wm g) sigmas = xv ∧
    weighted_covariance n (self_Wc g) sigmas xv = Pm.
Proof.
  intros Pm Hinit Hsize Hx HlenP HrowsP Hsqrt HlenU HrowsU Hgram.
  destruct (julier_init_weights _ _ _ _ _ Hinit)
    as (Hnz & Hn & Hk & _ & Hsub & HWm & HWc).
  assert (Hxlen : length xv = n) by (rewrite <- Hsize; by apply items_length).
  eexists. split; [|split].
  - apply (julier_points_closed_form g x P xv U); rewrite ?Hn, ?Hk; done.
  - rewrite HWm, symmetric_weighted_mean by done.
    etrans; [|apply map_id]. apply map_ext. intros v. field. exact Hnz.
  - rewrite HWc, HWm, symmetric_weighted_covariance by done.
    etrans; [|apply (map_entry_seq n Pm HlenP HrowsP)].
    apply map_ext_in. intros i Hi%in_seq.
    apply map_ext_in. intros j Hj%in_seq.
    rewrite <- (entry_gram n U _ i j HlenU HrowsU Hgram) by lia.
    rewrite entry_mscale.
    + field. exact Hnz.
    + lia.
    + intros r Hr. rewrite (Forall_lookup_1 _ _ _ _ HrowsP Hr). lia.
Qed.

Lemma julier_reconstructs_moments_witness :
  ∃ g sigmas,
    __init__ 1 0 None None = Ok g ∧
    sigma_points g (PyScalar 3) (CovScalar 4) = Ok sigmas ∧
    weighted_mean 1 (self_Wm g) sigmas = [3] ∧
    weighted_covariance 1 (self_Wc g) sigmas [3] = [[1 * 4]].
Proof.
  destruct (__init__ 1 0 None None) as [g|e] eqn:Hinit.
  2: { unfold __init__, _compute_weights, pydiv in Hinit.
       rewrite Reqb_false in Hinit; [discriminate|]. cbn. lra. }
  exists g.
  assert (Hsqrt : self_sqrt g = cholesky)
    by apply (julier_init_weights _ _ _ _ _ Hinit).
  destruct (julier_reconstructs_moments 1 0 None g (PyScalar 3)
              (CovScalar 4) [3]
              [[sqrt ((INR 1 + 0) * (1 * 4))]] Hinit)
    as (sigmas & Hcall & Hmean & Hcov).
  - reflexivity.
  - reflexivity.
  - reflexivity.
  - by repeat constructor.
  - rewrite Hsqrt. apply cholesky_1x1. cbn.
    match goal with |- 0 < ?e => replace e with 4 by ring end. lra.
  - reflexivity.
  - by repeat constructor.
  - unfold dot. rewrite decide_True by (by repeat constructor).
    unfold np_sum. cbn. decide_eval. repeat f_equal.
    rewrite Rplus_0_l. apply sqrt_sqrt. cbn.
    match goal with |- 0 <= ?e => replace e with 4 by ring end. lra.
  - exists sigmas. done.
Defined.

End julier_moments.

(** ** The points of [SimplexSigmaPoints] *)

Section simplex_points.
Context {F : Type} `{Num F}.
Import SimplexSigmaPoints.

Lemma ncols_shape (r c : nat) (m : list (list F)) :
  1 ≤ r → shape r c m → ncols m = c.
Proof.
  intros Hr [Hlen Hrows]. destruct m as [|row m]; [cbn in Hlen; lia|].
  by inversion Hrows.
Qed.

(** One iteration of the loop of [sigma_points] adds a row and a column to
    [Istar]. *)
Lemma Istar_step_shape (lam : F) (d r c : nat) (Istar : list (list F)) :
  1 ≤ r → shape r c Istar → shape (r + 1) (c + 1) (Istar_step lam d Istar).
Proof.
  intros Hr Hs. pose proof (ncols_shape _ _ _ Hr Hs) as Hc.
  destruct Hs as [Hlen Hrows]. unfold Istar_step. rewrite Hc. split.
  - rewrite length_app, length_map. cbn. lia.
  - apply Forall_app. split.
    + apply Forall_fmap. eapply Forall_impl; [exact Hrows|].
      intros row Hrow. cbn. rewrite length_app. cbn in Hrow |- *. lia.
    + repeat constructor. by rewrite length_insert, length_replicate.
Qed.

Lemma Istar_shape (lam : F) (m d r c : nat) (Istar : list (list F)) :
  1 ≤ r → shape r c Istar →
  shape (r + m) (c + m)
    (foldl (λ Istar d, Istar_step lam d Istar) Istar (seq d m)).
Proof.
  revert d r c Istar. induction m as [|m IH]; intros d r c Istar Hr Hs.
  - by rewrite !Nat.add_0_r.
  - cbn [seq foldl].
    replace (r + S m) with ((r + 1) + m) by lia.
    replace (c + S m) with ((c + 1) + m) by lia.
    apply IH; [lia|]. by apply Istar_step_shape.
Qed.

Lemma shape_mscale (a : F) (r c : nat) (m : list (list F)) :
  shape r c m → shape r c (mscale a m).
Proof.
  intros [Hlen Hrows]. unfold mscale. split; [by rewrite length_map|].
  apply Forall_fmap. eapply Forall_impl; [exact Hrows|].
  intros row Hrow. cbn in Hrow |- *. by rewrite length_map.
Qed.

Lemma shape_transpose (r c : nat) (m : list (list F)) :
  1 ≤ r → shape r c m → shape c r (transpose m).
Proof.
  intros Hr Hs. pose proof (ncols_shape _ _ _ Hr Hs) as Hc.
  destruct Hs as [Hlen Hrows]. unfold transpose. rewrite Hc. split.
  - by rewrite length_map, length_seq.
  - apply Forall_fmap, Forall_forall. intros j _. cbn.
    by rewrite length_map.
Qed.

Lemma mapM_cons {A B} (f : A → res B) (a : A) (l : list A) :
  mapM f (a :: l) = b ← f a; k ← mapM f l; Ok (b :: k).
Proof. reflexivity. Qed.

Lemma broadcast_singleton {C} (op : F → F → C) (v : F) (q : list F) :
  2 ≤ length q → broadcast op [v] q = Ok (map (op v) q).
Proof. intros Hq. unfold broadcast. by rewrite decide_False by (cbn; lia). Qed.

(** The default [subtract] on a column vector and a matrix with as many
    rows and at least two columns: each element of the vector is broadcast
    along its row. *)
Lemma np_subtract2_column (l : list F) (m : list (list F)) :
  length m = length l →
  Forall (λ row, 2 ≤ length row) m →
  np_subtract2 (map (λ v, [v]) l) m
  = Ok (zip_with (λ v q, map (fsub v) q) l m).
Proof.
  intros Hlen Hrows. unfold np_subtract2, broadcast2.
  rewrite decide_True by (by rewrite length_map).
  revert m Hlen Hrows. induction l as [|v l IH]; intros [|q m] Hlen Hrows;
    try done.
  cbn [map zip zip_with]. rewrite mapM_cons.
  inversion Hrows as [|? ? Hq Hrows']; subst.
  cbv beta iota. rewrite broadcast_singleton by done.
  cbn [mbind res_bind].
  change (zip ((λ v, [v]) <$> l) m) with (zip (map (λ v, [v]) l) m).
  rewrite IH; [done|by injection Hlen|done].
Qed.


Lemma simplex_Istar_shape (n : nat) :
  1 ≤ n → shape n (n + 1) (simplex_Istar n).
Proof.
  intros Hn. unfold simplex_Istar.
  replace n with (1 + (n - 1)) at 1 by lia.
  replace (n + 1) with (2 + (n - 1)) by lia.
  apply Istar_shape; [done|]. split; [done|]. by repeat constructor.
Qed.

(** With the default [subtract], for a mean given as an array or a scalar
    and a square [U]: the point [j] is [x - (-(U.T @ I)[:, j])], with
    [I = sqrt(n) * Istar]. *)
Lemma simplex_points_closed_form (self : t F) (x : pyvalue F) (P : pycov F)
    (l : list F) (U : list (list F)) :
  let n := self_n self in
  let I := mscale (fsqrt (fnat n)) (simplex_Istar n) in
  1 ≤ n →
  self_subtract self = np_subtract2 →
  asarray_if_scalar x = NdArray l → length l = n →
  self_sqrt self (as_matrix n P) = Ok U →
  shape n n U →
  sigma_points self x P
  = Ok (transpose
          (zip_with (λ v q, map (fsub v) q) l
             (map vneg
                (map (λ r, map (λ c, np_sum (zip_with fmul r c))
                               (transpose I))
                     (transpose U))))).
Proof.
  intros n I Hn Hsub Hx Hlen HU HsU.
  assert (Hsize : np_size x = n)
    by (destruct x; try done; cbn in Hx; by injection Hx as <-).
  assert (HsI : shape n (n + 1) I)
    by (apply shape_mscale, simplex_Istar_shape; done).
  pose proof (shape_transpose _ _ _ Hn HsU) as [HlenT HrowsT].
  unfold sigma_points. rewrite decide_False by (fold n; lia).
  fold n. rewrite Hx. cbn [reshape_column mbind res_bind]. rewrite HU.
  cbn [mbind res_bind]. fold (simplex_Istar n). fold I.
  unfold dot. rewrite decide_True by (by rewrite (proj1 HsI)).
  cbn [mbind res_bind]. rewrite Hsub.
  rewrite np_subtract2_column; [done| |].
  - by rewrite !length_map, HlenT.
  - apply Forall_fmap, Forall_fmap, Forall_forall. intros r _. cbn.
    unfold vneg. rewrite !length_map.
    rewrite (proj1 (shape_transpose _ _ _ Hn HsI)). lia.
Qed.

(** X11. For a [SimplexSigmaPoints] of dimension [n >= 1] with the default
    [subtract], a mean given as an array of [n] elements (or a scalar when
    [n = 1]) and a [sqrt] that returns an [n]-by-[n] matrix: [sigma_points]
    returns [n+1] points of [n] coordinates. *)
Theorem simplex_sigma_points_shape (self : t F) (x : pyvalue F)
    (P : pycov F) (l : list F) (U : list (list F)) :
  let n := self_n self in
  1 ≤ n →
  self_subtract self = np_subtract2 →
  asarray_if_scalar x = NdArray l → length l = n →
  self_sqrt self (as_matrix n P) = Ok U →
  length U = n → Forall (λ r, length r = n) U →
  ∃ sigmas,
    sigma_points self x P = Ok sigmas ∧
    length sigmas = num_sigmas self ∧
    Forall (λ row, length row = n) sigmas.
Proof.
  intros n Hn Hsub Hx Hlen HU HlenU HrowsU.
  assert (HsU : shape n n U) by done.
  eexists. split; [by apply (simplex_points_closed_form self x P l U)|].
  assert (HsI : shape n (n + 1) (mscale (fsqrt (fnat n)) (simplex_Istar n)))
    by (apply shape_mscale, simplex_Istar_shape; done).
  pose proof (shape_transpose _ _ _ Hn HsU) as [HlenT HrowsT].
  pose proof (shape_transpose _ _ _ Hn HsI) as [HlenTI _].
  apply (shape_transpose n (n + 1)); [done|]. split.
  - rewrite length_zip_with, !length_map, HlenT. lia.
  - apply Forall_forall. intros row Hrow.
    apply elem_of_lookup_zip_with in Hrow as (i & v & q & -> & _ & Hq).
    rewrite length_map.
    unfold vneg in Hq. rewrite !list_lookup_fmap in Hq.
    destruct (transpose U !! i); [|done]. injection Hq as <-.
    by rewrite !length_map.
Qed.

End simplex_points.

Lemma simplex_sigma_points_shape_witness :
  ∃ sigmas,
    SimplexSigmaPoints.sigma_points
      (SimplexSigmaPoints.__init__ 2 1%float None None)
      (NdArray [1%float; 2%float]) (CovScalar 4%float) = Ok sigmas ∧
    length sigmas = 3 ∧ Forall (λ row, length row = 2) sigmas.
Proof.
  eapply (simplex_sigma_points_shape
            (SimplexSigmaPoints.__init__ 2 1%float None None)
            (NdArray [1%float; 2%float]) (CovScalar 4%float)
            [1%float; 2%float]);
    [cbn; lia|reflexivity|reflexivity|reflexivity|vm_compute; reflexivity
    |reflexivity|by repeat constructor].
Defined.

(** ** The points and weights of [SimplexSigmaPoints] reproduce the mean *)

Section simplex_moments.
Import SimplexSigmaPoints.
Open Scope R_scope.

Lemma np_sum_map_plus {A} (f g : A → R) (l : list A) :
  np_sum (map (λ a, f a + g a) l) = np_sum (map f l) + np_sum (map g l).
Proof.
  induction l as [|a l IH]; cbn [map].
  - rewrite np_sum_nil. lra.
  - rewrite !np_sum_cons, IH. lra.
Qed.

Lemma np_sum_map_scale {A} (a : R) (f : A → R) (l : list A) :
  np_sum (map (λ b, a * f b) l) = a * np_sum (map f l).
Proof.
  induction l as [|b l IH]; cbn [map].
  - rewrite np_sum_nil. lra.
  - rewrite !np_sum_cons, IH. lra.
Qed.

Lemma np_sum_map_zero {A} (l : list A) : np_sum (map (λ _, 0) l) = 0.
Proof.
  induction l as [|b l IH]; cbn [map]; [done|].
  rewrite np_sum_cons, IH. lra.
Qed.

Lemma np_sum_at_seq (v : list R) (m : nat) :
  length v = m → np_sum (map (at_ v) (seq 0 m)) = np_sum v.
Proof. intros <-. by rewrite map_at_seq. Qed.

(** The sum over the columns of [I] of the products [a . I[:, j]] is the
    product of [a] with the sums of the rows of [I]. *)
Lemma sum_columns (a : list R) (I : list (list R)) (m : nat) :
  Forall (λ r, length r = m) I →
  np_sum (map (λ j, np_sum (zip_with Rmult a (map (λ r, at_ r j) I)))
              (seq 0 m))
  = np_sum (zip_with Rmult a (map np_sum I)).
Proof.
  intros Hrows. revert a. induction Hrows as [|r I Hr _ IH]; intros a.
  - cbn [map]. destruct a; cbn [zip_with]; apply np_sum_map_zero.
  - destruct a as [|a0 a]; [apply np_sum_map_zero|].
    cbn [map zip_with]. rewrite np_sum_cons, <- IH.
    rewrite <- (np_sum_at_seq r m Hr), <- np_sum_map_scale, <- np_sum_map_plus.
    apply np_sum_map_ext. intros j _. by rewrite np_sum_cons.
Qed.

Lemma insert_last_replicate (c : nat) (v y : R) :
  <[c := y]> (replicate (c + 1) v) = replicate c v ++ [y].
Proof.
  rewrite replicate_add, insert_app_r_alt by (rewrite length_replicate; lia).
  by rewrite length_replicate, Nat.sub_diag.
Qed.

(** Every row of [Istar] sums to zero. *)
Lemma Istar_step_rows_sum (lam : R) (d r : nat) (Istar : list (list R)) :
  (1 ≤ r)%nat → shape r d Istar →
  Forall (λ row, np_sum row = 0) Istar →
  Forall (λ row, np_sum row = 0) (Istar_step lam d Istar).
Proof.
  intros Hr Hs Hsum. unfold Istar_step.
  rewrite (ncols_shape _ _ _ Hr Hs).
  apply Forall_app. split.
  - apply Forall_fmap. eapply Forall_impl; [exact Hsum|].
    intros row Hrow. cbn in Hrow |- *.
    rewrite np_sum_app, Hrow, np_sum_cons, np_sum_nil. lra.
  - repeat constructor.
    rewrite insert_last_replicate, np_sum_app, np_sum_replicate,
      np_sum_cons, np_sum_nil.
    cbn. unfold Rdiv. ring.
Qed.

Lemma Istar_rows_sum (lam : R) (m d r : nat) (Istar : list (list R)) :
  (1 ≤ r)%nat → shape r d Istar →
  Forall (λ row, np_sum row = 0) Istar →
  Forall (λ row, np_sum row = 0)
    (foldl (λ Istar d, Istar_step lam d Istar) Istar (seq d m)).
Proof.
  revert d r Istar. induction m as [|m IH]; intros d r Istar Hr Hs Hsum;
    [done|].
  cbn [seq foldl]. apply (IH (S d) (r + 1)%nat); [lia| |].
  - replace (S d) with (d + 1)%nat by lia. by apply Istar_step_shape.
  - by eapply Istar_step_rows_sum.
Qed.

Lemma simplex_Istar_rows_sum (n : nat) :
  Forall (λ row, np_sum row = 0) (simplex_Istar n).
Proof.
  unfold simplex_Istar. apply (Istar_rows_sum _ _ 2 1);
    [done|split; [done|by repeat constructor]|].
  repeat constructor. rewrite !np_sum_cons, np_sum_nil. cbn.
  unfold Rdiv. ring.
Qed.

Lemma mscale_rows_sum (a : R) (I : list (list R)) :
  Forall (λ row, np_sum row = 0) I →
  Forall (λ row, np_sum row = 0) (mscale a I).
Proof.
  intros HI. apply Forall_fmap. eapply Forall_impl; [exact HI|].
  intros row Hrow. cbn in Hrow |- *.
  etrans; [apply (np_sum_map_scale a (λ b, b))|].
  rewrite map_id, Hrow. lra.
Qed.

Lemma zip_rows_sum_zero (a : list R) (I : list (list R)) :
  Forall (λ row, np_sum row = 0) I →
  np_sum (zip_with Rmult a (map np_sum I)) = 0.
Proof.
  intros HI. revert a.
  induction HI as [|row I Hrow _ IH]; intros [|a0 a]; cbn [map zip_with];
    try done.
  rewrite np_sum_cons, IH, Hrow. lra.
Qed.

(** X12. For a [SimplexSigmaPoints] of dimension [n >= 1] with the default
    [subtract], a mean given as an array of [n] elements (or a scalar when
    [n = 1]) and any [sqrt] that returns an [n]-by-[n] matrix: the points
    that [sigma_points(x, P)] returns and the weights [Wm] satisfy
    [sum_j Wm[j] * sigmas[j] = x], over the reals. *)
Theorem simplex_reconstructs_mean (n : nat) (alpha : R) sqrt_method
    (x : pyvalue R) (P : pycov R) (l : list R) (U : list (list R)) :
  let g := __init__ n alpha sqrt_method None in
  (1 ≤ n)%nat →
  asarray_if_scalar x = NdArray l → length l = n →
  self_sqrt g (as_matrix n P) = Ok U →
  length U = n → Forall (λ r, length r = n) U →
  ∃ sigmas,
    sigma_points g x P = Ok sigmas ∧
    weighted_mean n (self_Wm g) sigmas = l.
Proof.
  intros g Hn Hx Hlen HU HlenU HrowsU.
  assert (HsU : shape n n U) by done.
  set (I := mscale (sqrt (INR n)) (simplex_Istar n)).
  assert (HsI : shape n (n + 1) I)
    by (apply shape_mscale, simplex_Istar_shape; done).
  pose proof (shape_transpose _ _ _ Hn HsU) as [HlenT HrowsT].
  pose proof (ncols_shape _ _ _ Hn HsI) as HcI.
  eexists. split; [by apply (simplex_points_closed_form g x P l U)|].
  change (self_n g) with n.
  change (self_Wm g) with (replicate (n + 1) (1 / INR (n + 1))).
  change (mscale _ (simplex_Istar n)) with I.
  set (su := map (λ r, map (λ c, np_sum (zip_with fmul r c)) (transpose I))
                 (transpose U)).
  set (M := zip_with (λ v q, map (fsub v) q) l (map vneg su)).
  assert (HsM : shape n (n + 1) M).
  { split.
    - unfold M, su. rewrite length_zip_with, !length_map, HlenT. lia.
    - apply Forall_forall. intros row Hrow.
      apply elem_of_lookup_zip_with in Hrow as (i & v & q & -> & _ & Hq).
      rewrite length_map. unfold su, vneg in Hq.
      rewrite !list_lookup_fmap in Hq.
      destruct (transpose U !! i); [|done]. injection Hq as <-.
      rewrite !length_map.
      apply (shape_transpose _ _ _ Hn HsI). }
  unfold weighted_mean.
  etrans; [|apply (map_at_seq l)]. rewrite Hlen.
  apply map_ext_in. intros i Hi%in_seq.
  rewrite (np_sum_zip_replicate (λ s, at_ s i) _ _ (n + 1))
    by (apply (shape_transpose _ _ _ Hn HsM)).
  unfold transpose at 1. rewrite (ncols_shape _ _ _ Hn HsM), map_map.
  destruct (lookup_lt_is_Some_2 l i) as [xi Hxi]; [lia|].
  destruct (lookup_lt_is_Some_2 (transpose U) i) as [ri Hri]; [lia|].
  set (sui := map (λ c, np_sum (zip_with fmul ri c)) (transpose I)).
  assert (HMi : M !! i = Some (map (fsub xi) (map fopp sui))).
  { unfold M, su, vneg. rewrite lookup_zip_with, Hxi. cbn.
    by rewrite !list_lookup_fmap, Hri. }
  rewrite (np_sum_map_ext _ (at_ (map (fsub xi) (map fopp sui)))).
  2: { intros j _. unfold at_ at 1. rewrite list_lookup_fmap, HMi. done. }
  rewrite np_sum_at_seq by (unfold sui; rewrite !length_map;
                            apply (shape_transpose _ _ _ Hn HsI)).
  rewrite map_map.
  rewrite (np_sum_map_ext _ (λ q, xi + 1 * q)) by (intros; cbn; lra).
  rewrite np_sum_map_plus, np_sum_map_scale.
  assert (Hsu : np_sum (map (λ q, q) sui) = 0).
  { rewrite map_id. unfold sui, transpose at 1. rewrite HcI, map_map.
    transitivity
      (np_sum (map (λ j, np_sum (zip_with Rmult ri (map (λ r, at_ r j) I)))
                   (seq 0 (n + 1)))); [reflexivity|].
    rewrite (sum_columns ri I (n + 1) (proj2 HsI)).
    apply zip_rows_sum_zero, mscale_rows_sum, simplex_Istar_rows_sum. }
  rewrite Hsu.
  assert (Hconst : np_sum (map (λ _ : R, xi) sui) = INR (n + 1) * xi).
  { assert (Hl : length sui = (n + 1)%nat)
      by (unfold sui; rewrite length_map;
          apply (shape_transpose _ _ _ Hn HsI)).
    rewrite <- Hl. clear. induction sui as [|q sui IH]; cbn [map length].
    - rewrite np_sum_nil. cbn. lra.
    - rewrite np_sum_cons, IH, S_INR. lra. }
  rewrite Hconst. unfold at_. rewrite Hxi. cbn.
  field. apply not_0_INR. lia.
Qed.

End simplex_moments.

Section simplex_covariance.
Import SimplexSigmaPoints.
Open Scope R_scope.

Lemma rdot_comm (a b : list R) : rdot a b = rdot b a.
Proof.
  unfold rdot. revert b. induction a as [|x a IH]; intros [|y b]; try done.
  cbn [zip_with]. rewrite !np_sum_cons, IH. cbn. lra.
Qed.

Lemma rdot_at_seq (a b : list R) (m : nat) :
  length a = m → length b = m →
  np_sum (map (λ j, at_ a j * at_ b j) (seq 0 m)) = rdot a b.
Proof.
  intros Ha Hb. unfold rdot.
  rewrite <- (np_sum_at_seq (zip_with fmul a b) m)
    by (rewrite length_zip_with; lia).
  apply np_sum_map_ext. intros j Hj%elem_of_seq.
  rewrite at_zip_with by lia. done.
Qed.

Lemma orthogonal_rows_app (g : R) (m : list (list R)) (row : list R) :
  orthogonal_rows g m →
  Forall (λ r, rdot r row = 0) m →
  rdot row row = g →
  orthogonal_rows g (m ++ [row]).
Proof.
  intros Hm Hrow Hg. induction m as [|r m IH]; cbn [app orthogonal_rows].
  - done.
  - destruct Hm as (Hr & Hrm & Hm). inversion Hrow as [|? ? Hr0 Hrow']; subst.
    split_and!; [done| |by apply IH].
    apply Forall_app. split; [done|]. by repeat constructor.
Qed.

Lemma orthogonal_rows_fmap (g g' : R) (f : list R → list R)
    (m : list (list R)) :
  (∀ a b, a ∈ m → b ∈ m → rdot (f a) (f b) = g' * rdot a b) →
  orthogonal_rows g m → orthogonal_rows (g' * g) (map f m).
Proof.
  intros Hf. induction m as [|r m IH]; [done|].
  intros (Hr & Hrm & Hm). cbn [map orthogonal_rows]. split_and!.
  - rewrite Hf, Hr by left. done.
  - apply Forall_fmap, Forall_forall. intros r' Hr'. cbn.
    rewrite Hf; [|left|by right].
    rewrite (proj1 (Forall_forall _ _) Hrm r' Hr'). cbn. lra.
  - apply IH; [|done]. intros a b Ha Hb. apply Hf; by right.
Qed.

Lemma rdot_snoc (a b : list R) (x y : R) :
  length a = length b → rdot (a ++ [x]) (b ++ [y]) = rdot a b + x * y.
Proof.
  intros Hlen. unfold rdot. rewrite zip_with_app by done.
  rewrite np_sum_app. cbn [zip_with]. rewrite np_sum_cons, np_sum_nil.
  cbn. lra.
Qed.

Lemma rdot_replicate_r (a : list R) (v : R) :
  rdot a (replicate (length a) v) = v * np_sum a.
Proof.
  unfold rdot. induction a as [|x a IH]; cbn [length replicate zip_with].
  - rewrite np_sum_nil. lra.
  - rewrite !np_sum_cons, IH. cbn. lra.
Qed.

Lemma rdot_replicate (d : nat) (v w : R) :
  rdot (replicate d v) (replicate d w) = INR d * (v * w).
Proof.
  unfold rdot. induction d as [|d IH]; cbn [replicate zip_with].
  - rewrite np_sum_nil. cbn. lra.
  - rewrite np_sum_cons, IH, S_INR. cbn. lra.
Qed.

Lemma rdot_scale (c : R) (a b : list R) :
  rdot (map (Rmult c) a) (map (Rmult c) b) = c * c * rdot a b.
Proof.
  unfold rdot. revert b. induction a as [|x a IH]; intros [|y b];
    cbn [map zip_with]; rewrite ?np_sum_nil; try lra.
  rewrite !np_sum_cons, IH. cbn. lra.
Qed.

(** The rows of [Istar] are orthogonal, with square norm [1/lambda]. *)
Lemma Istar_step_orthogonal (lam : R) (d r : nat) (Istar : list (list R)) :
  0 < lam → (1 ≤ d)%nat → (1 ≤ r)%nat → shape r d Istar →
  Forall (λ row, np_sum row = 0) Istar →
  orthogonal_rows (/ lam) Istar →
  orthogonal_rows (/ lam) (Istar_step lam d Istar).
Proof.
  intros Hlam Hd Hr Hs Hsum Horth. unfold Istar_step.
  rewrite (ncols_shape _ _ _ Hr Hs), insert_last_replicate.
  destruct Hs as [Hlen Hrows].
  set (den := fsqrt (lam * fnat d * fnat (d + 1))%num).
  assert (Hd0 : 0 < INR d) by (apply lt_0_INR; lia).
  assert (Hd1 : 0 < INR (d + 1)) by (apply lt_0_INR; lia).
  assert (Hpos : 0 < lam * INR d * INR (d + 1))
    by (repeat apply Rmult_lt_0_compat; done).
  assert (Hden : den * den = lam * INR d * INR (d + 1))
    by (apply sqrt_sqrt; lra).
  assert (Hden0 : den ≠ 0).
  { intros Hz. rewrite Hz in Hden. lra. }
  clearbody den.
  apply orthogonal_rows_app.
  - replace (/ lam) with (1 * / lam) by lra.
    apply orthogonal_rows_fmap; [|done].
    intros a b Ha Hb. rewrite rdot_snoc.
    + cbn. lra.
    + rewrite (proj1 (Forall_forall _ _) Hrows a Ha).
      by rewrite (proj1 (Forall_forall _ _) Hrows b Hb).
  - apply Forall_fmap, Forall_forall. intros row Hrow. cbn.
    pose proof (proj1 (Forall_forall _ _) Hrows row Hrow) as Hl.
    pose proof (proj1 (Forall_forall _ _) Hsum row Hrow) as Hs0.
    cbn in Hl, Hs0.
    rewrite rdot_snoc by (by rewrite length_replicate).
    rewrite <- Hl, rdot_replicate_r, Hs0. cbn. lra.
  - rewrite rdot_snoc by done.
    rewrite rdot_replicate. cbn.
    rewrite plus_INR in Hden. cbn in Hden.

    apply (Rmult_eq_reg_r (den * den)); [|by apply Rmult_integral_contrapositive].
    transitivity (INR d + INR d * INR d); [field; done|].
    rewrite Hden. field. lra.
Qed.

Lemma Istar_orthogonal (lam : R) (m d r : nat) (Istar : list (list R)) :
  0 < lam → (1 ≤ d)%nat → (1 ≤ r)%nat → shape r d Istar →
  Forall (λ row, np_sum row = 0) Istar →
  orthogonal_rows (/ lam) Istar →
  orthogonal_rows (/ lam)
    (foldl (λ Istar d, Istar_step lam d Istar) Istar (seq d m)).
Proof.
  intros Hlam. revert d r Istar.
  induction m as [|m IH]; intros d r Istar Hd Hr Hs Hsum Horth; [done|].
  cbn [seq foldl]. apply (IH (S d) (r + 1)%nat); [lia|lia| | |].
  - replace (S d) with (d + 1)%nat by lia. by apply Istar_step_shape.
  - by eapply Istar_step_rows_sum.
  - by eapply Istar_step_orthogonal.
Qed.

Lemma simplex_Istar_orthogonal (n : nat) :
  (1 ≤ n)%nat →
  orthogonal_rows (INR (n + 1) / INR n) (simplex_Istar n).
Proof.
  intros Hn.
  assert (Hn0 : 0 < INR n) by (apply lt_0_INR; lia).
  assert (Hn1 : 0 < INR (n + 1)) by (apply lt_0_INR; lia).
  unfold simplex_Istar.
  set (lam := (fnat n / fnat (n + 1))%num).
  assert (Hlam : 0 < lam) by (by apply Rdiv_lt_0_compat).
  replace (INR (n + 1) / INR n) with (/ lam)
    by (unfold lam; cbn; field; lra).
  set (s := fsqrt (fnat 2 * lam)%num).
  assert (Hs : s * s = 2 * lam).
  { replace 2 with (INR 2) by (simpl; lra). unfold s.
    apply sqrt_sqrt. change (0 <= INR 2 * lam). simpl (INR 2). lra. }
  assert (Hs0 : s ≠ 0) by (intros Hz; rewrite Hz in Hs; lra).
  clearbody s lam.
  apply (Istar_orthogonal lam _ 2 1); [done|lia|done| | |].
  - split; [done|by repeat constructor].
  - repeat constructor. rewrite !np_sum_cons, np_sum_nil. cbn.
    unfold Rdiv. ring.
  - cbn [orthogonal_rows]. split_and!; [|done|done].
    unfold rdot. cbn [zip_with]. rewrite !np_sum_cons, np_sum_nil. cbn.
    transitivity (2 * / (s * s)); [by field|].
    rewrite Hs. field. lra.
Qed.

Lemma zip_with_zero (b : list R) {A} (f : A → R) (l : list A) :
  (∀ a, a ∈ l → f a = 0) → np_sum (zip_with Rmult b (map f l)) = 0.
Proof.
  revert b. induction l as [|a l IH]; intros [|b0 b] Hf; cbn [map zip_with];
    try done.
  rewrite np_sum_cons, IH, Hf; [lra|left|].
  intros a' Ha'. apply Hf. by right.
Qed.

(** The sum over the columns of [I], with weights [w], of the products
    [a . I[:, j]]. *)
Lemma sum_columns_weighted (w : nat → R) (a : list R) (I : list (list R))
    (m : nat) :
  np_sum (map (λ j, w j * np_sum (zip_with Rmult a (map (λ r, at_ r j) I)))
              (seq 0 m))
  = np_sum (zip_with Rmult a
              (map (λ r, np_sum (map (λ j, w j * at_ r j) (seq 0 m))) I)).
Proof.
  revert a. induction I as [|r I IH]; intros a.
  - cbn [map]. replace (zip_with Rmult a []) with (@nil R) by (by destruct a).
    rewrite np_sum_nil.
    rewrite (np_sum_map_ext _ (λ _, 0)) by (intros; lra).
    apply np_sum_map_zero.
  - destruct a as [|a0 a].
    { cbn [zip_with]. rewrite np_sum_nil.
      rewrite (np_sum_map_ext _ (λ _, 0)) by (intros; lra).
      apply np_sum_map_zero. }
    cbn [map zip_with]. rewrite np_sum_cons, <- IH.
    rewrite <- np_sum_map_scale, <- np_sum_map_plus.
    apply np_sum_map_ext. intros j _. rewrite np_sum_cons. lra.
Qed.

(** For a matrix [I] with orthogonal rows of square norm [g]:
    [sum_j (a . I[:, j]) * (b . I[:, j]) = g * (a . b)]. *)
Lemma gram_bilinear (g : R) (I : list (list R)) (m : nat) (a b : list R) :
  Forall (λ r, length r = m) I → orthogonal_rows g I →
  length a = length I → length b = length I →
  np_sum (map (λ j, np_sum (zip_with Rmult a (map (λ r, at_ r j) I))
                    * np_sum (zip_with Rmult b (map (λ r, at_ r j) I)))
              (seq 0 m))
  = g * rdot a b.
Proof.
  intros Hrows. revert a b.
  induction Hrows as [|r I Hr Hrows IH]; intros a b Horth Ha Hb.
  - destruct a, b; try done. cbn [map zip_with]. unfold rdot.
    cbn [zip_with]. rewrite np_sum_nil.
    rewrite (np_sum_map_ext _ (λ _, 0)) by (intros; lra).
    rewrite np_sum_map_zero. lra.
  - destruct a as [|a0 a], b as [|b0 b]; try done.
    destruct Horth as (Hg & Hrest & Horth).
    injection Ha as Ha. injection Hb as Hb.
    set (A := λ j, np_sum (zip_with Rmult a (map (λ r, at_ r j) I))).
    set (B := λ j, np_sum (zip_with Rmult b (map (λ r, at_ r j) I))).
    rewrite (np_sum_map_ext _
               (λ j, a0 * b0 * (at_ r j * at_ r j)
                     + (a0 * (at_ r j * B j)
                        + (b0 * (at_ r j * A j) + A j * B j)))).
    2: { intros j _. cbn [map zip_with]. rewrite !np_sum_cons.
         fold (A j) (B j). lra. }
    rewrite (np_sum_map_plus (λ j, a0 * b0 * (at_ r j * at_ r j))).
    rewrite (np_sum_map_plus (λ j, a0 * (at_ r j * B j))).
    rewrite (np_sum_map_plus (λ j, b0 * (at_ r j * A j))).
    rewrite !np_sum_map_scale.
    rewrite (rdot_at_seq r r m Hr Hr), Hg.
    unfold A, B. rewrite (IH a b Horth Ha Hb), !sum_columns_weighted.
    rewrite !zip_with_zero.
    + unfold rdot. cbn [zip_with]. rewrite np_sum_cons. cbn. lra.
    + intros r' Hr'. rewrite (rdot_at_seq r r' m Hr).
      * exact (proj1 (Forall_forall _ _) Hrest r' Hr').
      * exact (proj1 (Forall_forall _ _) Hrows r' Hr').
    + intros r' Hr'. rewrite (rdot_at_seq r r' m Hr).
      * exact (proj1 (Forall_forall _ _) Hrest r' Hr').
      * exact (proj1 (Forall_forall _ _) Hrows r' Hr').
Qed.

Lemma mscale_orthogonal (c g : R) (I : list (list R)) :
  orthogonal_rows g I → orthogonal_rows (c * c * g) (mscale c I).
Proof.
  intros HI. apply orthogonal_rows_fmap; [|done].
  intros a b _ _. apply rdot_scale.
Qed.

(** X13. For a [SimplexSigmaPoints] of dimension [n >= 1] with the default
    [subtract], a mean given as an array of [n] elements (or a scalar when
    [n = 1]) and an [n]-by-[n] covariance [P]: when [sqrt] returns a square
    [U] with [U.T @ U = P], the points that [sigma_points(x, P)] returns and
    the weights [Wc] satisfy
    [sum_j Wc[j] * outer(sigmas[j] - x, sigmas[j] - x) = P], over the
    reals. *)
Theorem simplex_reconstructs_covariance (n : nat) (alpha : R) sqrt_method
    (x : pyvalue R) (P : pycov R) (l : list R) (U : list (list R)) :
  let g := __init__ n alpha sqrt_method None in
  let Pm := as_matrix n P in
  (1 ≤ n)%nat →
  asarray_if_scalar x = NdArray l → length l = n →
  length Pm = n → Forall (λ r, length r = n) Pm →
  self_sqrt g Pm = Ok U →
  length U = n → Forall (λ r, length r = n) U →
  dot (transpose U) U = Ok Pm →
  ∃ sigmas,
    sigma_points g x P = Ok sigmas ∧
    weighted_covariance n (self_Wc g) sigmas l = Pm.
Proof.
  intros g Pm Hn Hx Hlen HlenP HrowsP HU HlenU HrowsU Hgram.
  assert (HsU : shape n n U) by done.
  set (I := mscale (sqrt (INR n)) (simplex_Istar n)).
  assert (HsI : shape n (n + 1) I)
    by (apply shape_mscale, simplex_Istar_shape; done).
  assert (Hn0 : 0 < INR n) by (apply lt_0_INR; lia).
  assert (Hn1 : 0 < INR (n + 1)) by (apply lt_0_INR; lia).
  assert (HoI : orthogonal_rows (INR (n + 1)) I).
  { replace (INR (n + 1))
      with (sqrt (INR n) * sqrt (INR n) * (INR (n + 1) / INR n))
      by (rewrite sqrt_sqrt by lra; field; lra).
    by apply mscale_orthogonal, simplex_Istar_orthogonal. }
  pose proof (shape_transpose _ _ _ Hn HsU) as [HlenT HrowsT].
  pose proof (ncols_shape _ _ _ Hn HsI) as HcI.
  pose proof (ncols_shape _ _ _ Hn HsU) as HcU.
  eexists. split; [by apply (simplex_points_closed_form g x P l U)|].
  change (self_n g) with n.
  change (self_Wc g) with (replicate (n + 1) (1 / INR (n + 1))).
  change (mscale _ (simplex_Istar n)) with I.
  set (su := map (λ r, map (λ c, np_sum (zip_with fmul r c)) (transpose I))
                 (transpose U)).
  set (M := zip_with (λ v q, map (fsub v) q) l (map vneg su)).
  assert (HsM : shape n (n + 1) M).
  { split.
    - unfold M, su. rewrite length_zip_with, !length_map, HlenT. lia.
    - apply Forall_forall. intros row Hrow.
      apply elem_of_lookup_zip_with in Hrow as (i & v & q & -> & _ & Hq).
      rewrite length_map. unfold su, vneg in Hq.
      rewrite !list_lookup_fmap in Hq.
      destruct (transpose U !! i); [|done]. injection Hq as <-.
      rewrite !length_map.
      apply (shape_transpose _ _ _ Hn HsI). }
  assert (Hentry : ∀ i j, (i < n)%nat → (j < n + 1)%nat →
            at_ (map (λ r, default 0 (r !! j)) M) i
            = at_ l i - - np_sum (zip_with Rmult (map (λ u, at_ u i) U)
                                           (map (λ r, at_ r j) I))).
  { intros i j Hi Hj.
    destruct (lookup_lt_is_Some_2 l i) as [xi Hxi]; [lia|].
    unfold at_ at 1 2. rewrite list_lookup_fmap, Hxi.
    unfold M, su, vneg, transpose. rewrite HcI, HcU.
    rewrite lookup_zip_with, Hxi. cbn.
    rewrite !list_lookup_fmap, lookup_seq_lt by lia. cbn.
    rewrite !list_lookup_fmap, lookup_seq_lt by lia. done. }
  unfold weighted_covariance.
  etrans; [|apply (map_entry_seq n Pm HlenP HrowsP)].
  apply map_ext_in. intros i Hi%in_seq.
  apply map_ext_in. intros i' Hi'%in_seq.
  rewrite (np_sum_zip_replicate
             (λ s, (at_ s i - at_ l i) * (at_ s i' - at_ l i')) _ _ (n + 1))
    by (apply (shape_transpose _ _ _ Hn HsM)).
  unfold transpose at 1. rewrite (ncols_shape _ _ _ Hn HsM), map_map.
  rewrite (np_sum_map_ext _
             (λ j, np_sum (zip_with Rmult (map (λ u, at_ u i) U)
                                          (map (λ r, at_ r j) I))
                   * np_sum (zip_with Rmult (map (λ u, at_ u i') U)
                                            (map (λ r, at_ r j) I)))).
  2: { intros j Hj%elem_of_seq. rewrite !Hentry by lia. lra. }
  rewrite (gram_bilinear (INR (n + 1)) I (n + 1));
    [|apply HsI|done|by rewrite length_map, (proj1 HsI)
     |by rewrite length_map, (proj1 HsI)].
  rewrite (entry_gram n U Pm i i' HlenU HrowsU Hgram) by lia.
  unfold rdot.
  change (@map (list R)) with (@fmap list _ (list R)).
  rewrite zip_with_fmap_l, zip_with_fmap_r, zip_with_diag.
  cbn. field. lra.
Qed.

End simplex_covariance.

Section generalized_weights.
Context {F : Type} `{Num F}.
Import GeneralizedSigmaPoints.

Lemma compute_weights_balanced (b : bool) (self : t F) :
  length (self_s self) = 2 * self_n self + 1 →
  wp (_compute_weights b)
     (λ _ g, self_n g = self_n self ∧ balanced g ∧
             (b = false → ∀ i, i ≤ self_n self →
                               self_s g !! i = self_s self !! i))
     (λ _ _, True) self.
Proof.
  intros Hlen. set (n := self_n self) in *. unfold _compute_weights.
  apply wp_bind, wp_get. fold n.
  apply wp_bind, wp_lift. destruct (items (self_S self)) as [Sv|]; [|done].
  apply wp_bind, wp_lift. destruct (broadcast _ Sv _) as [S_|]; [|done].
  apply wp_bind, wp_lift. destruct (items (self_K self)) as [Kv|]; [|done].
  apply wp_bind, wp_lift. destruct (broadcast _ Kv _) as [K_|]; [|done].
  apply wp_bind.
  eapply wp_mono;
    [apply (wp_for_range _ (λ j w g,
       ∃ s', g = with_s self s' ∧ length s' = 2 * n + 1 ∧
             length w = 2 * n + 1 ∧ w !! 0 = Some f0 ∧
             (b = false → ∀ i, i ≤ n → s' !! i = self_s self !! i) ∧
             ∀ i, 1 ≤ i ≤ j → ∃ si sin win,
               s' !! i = Some si ∧ s' !! (i + n) = Some sin ∧
               w !! (i + n) = Some win ∧
               w !! i = Some (sin / si * win)%num ∧
               win = (f1 / (sin * (si + sin)))%num)
       (λ _ _, True))| |done].
  - intros j w g Hj (s' & -> & Hs' & Hw & Hw0 & Hkeep & Hdone).
    set (i := 1 + j). wp_step.
    eapply wp_mono with
      (Q := λ _ g, ∃ s1, g = with_s self s1 ∧ length s1 = 2 * n + 1 ∧
                         (b = false → s1 = s') ∧
                         ∀ i', i' ≠ i → s1 !! i' = s' !! i')
      (E := λ _ _, True).
    { destruct b.
      - repeat (wp_step; try done). cbn [self_s with_s] in *.
        eexists. split; [reflexivity|]. rewrite length_insert.
        split_and!; [done|done|].
        intros i' Hi'. by rewrite list_lookup_insert_ne.
      - wp_step. by exists s'. }
    2: done.
    intros _ g1 (s1 & -> & Hs1 & Hb1 & Hother). cbn beta.
    wp_step. apply wp_get_s. cbn [self_s with_s].
    destruct (s1 !! i) as [si|] eqn:Hsi; [|done].
    wp_step. apply wp_lift. destruct (getitem S_ (i - 1)) as [Si|]; [|done].
    wp_step. apply wp_set_s. cbn [self_s with_s].
    destruct (s1 !! (i + n)) as [old|] eqn:Hold; [|done].
    wp_step. apply wp_get_s. cbn [self_s with_s].
    rewrite list_lookup_insert_eq by (apply lookup_lt_Some in Hold; lia).
    wp_step. apply wp_get_s. cbn [self_s with_s].
    rewrite list_lookup_insert_ne by lia. rewrite Hsi.
    set (sin := (si + Si)%num).
    wp_step. apply wp_setitem.
    destruct (w !! (i + n)) as [oldw|] eqn:Holdw; [|done].
    wp_step. apply wp_lift. unfold getitem.
    rewrite list_lookup_insert_eq by (apply lookup_lt_Some in Holdw; lia).
    apply wp_setitem.
    destruct (<[i + n := _]> w !! i) as [oldi|] eqn:Holdi; [|done].
    exists (<[i + n := sin]> s1).
    rewrite !length_insert. split_and!; try done.
    + rewrite !list_lookup_insert_ne by lia. done.
    + intros Hb i' Hi'. rewrite list_lookup_insert_ne by lia.
      rewrite (Hb1 Hb). by apply Hkeep.
    + intros i' Hi'. destruct (decide (i' = i)) as [->|Hne].
      * exists si, sin, (f1 / (sin * (si + sin)))%num.
        split_and!; try done.
        -- rewrite list_lookup_insert_ne by lia. done.
        -- apply list_lookup_insert_eq. apply lookup_lt_Some in Hold. lia.
        -- rewrite list_lookup_insert_ne by lia.
           apply list_lookup_insert_eq. apply lookup_lt_Some in Holdw. lia.
        -- apply list_lookup_insert_eq. rewrite length_insert. lia.
      * destruct (Hdone i') as (si' & sin' & win' & ? & ? & ? & ? & ?);
          [unfold i in *; lia|].
        exists si', sin', win'. unfold i in *.
        rewrite !list_lookup_insert_ne by lia.
        rewrite !Hother by lia. done.
  - exists (self_s self). split_and!; try done.
    + by destruct self.
    + apply length_replicate.
    + apply lookup_replicate_2. lia.
    + intros i Hi. lia.
  - cbn beta. intros w g (s' & -> & Hs' & Hw & Hw0 & Hkeep & Hdone).
    wp_step. apply wp_setitem. rewrite Hw0. apply wp_set_weights.
    split; [done|]. split.
    + unfold balanced.
      cbn [self_n self_s self_Wm self_Wc with_s with_weights].
      fold n. rewrite !length_insert. split_and!; try done.
      * rewrite list_insert_insert_eq, (list_insert_id w 0 f0 Hw0).
        apply list_lookup_insert_eq. lia.
      * intros i Hi.
        destruct (Hdone i Hi) as (si & sin & win & ? & ? & ? & ? & ?).
        exists si, sin, win. rewrite !list_lookup_insert_ne by lia. done.
    + intros Hb i Hi. cbn [self_s with_s with_weights]. by apply Hkeep.
Qed.

(** [_redefine_scale_param] keeps the dimension and the number of scale
    parameters. *)
Lemma redefine_scale_param_length (sigmas : list (list F)) (self : t F) :
  wp (_redefine_scale_param sigmas)
     (λ _ g, self_n g = self_n self ∧
             length (self_s g) = length (self_s self))
     (λ _ _, True) self.
Proof.
  unfold _redefine_scale_param.
  eapply wp_mono;
    [apply (wp_for _ (λ _ g, self_n g = self_n self ∧
                             length (self_s g) = length (self_s self))
                     (λ _ _, True))| |done]; [|done|done].
  intros i [] g _ [Hn Hl]. repeat (wp_step; try done).
  cbn [self_n self_s with_s]. by rewrite length_insert.
Qed.

(** A call of [sigma_points] that returns leaves weights that fit the scale
    parameters, and has filled the rows with these scale parameters. *)
Lemma sigma_points_filled (self : t F) (x : pyvalue F) (P : pycov F)
    (xv : list F) :
  let n := self_n self in
  balanced self →
  items (asarray_if_scalar x) = Ok xv →
  length (as_matrix n P) = n →
  wp (GeneralizedSigmaPoints.sigma_points x P)
     (λ sig g, self_n g = n ∧ balanced g ∧
               (self_positively_constrained self = false → g = self) ∧
               filled g (as_matrix n P) xv n sig)
     (λ _ _, True) self.
Proof.
  intros n Hbal Hx HlenP. unfold GeneralizedSigmaPoints.sigma_points.
  do 2 wp_step. case_decide as Hsize; [by wp_step|]. fold n.
  assert (Hxlen : length xv = n).
  { rewrite (items_length _ _ Hx). fold n in Hsize.
    destruct (decide (n = np_size x)); [done|contradiction]. }
  wp_step. apply wp_lift.
  destruct (py_ne _ _ ≫= truth) as [[|]|]; [by wp_step| |done].
  wp_step. apply wp_lift. wp_step.
  eapply wp_mono; [apply (fill_sigmas_rows self _ _ xv)| |done]; try done.
  { apply length_replicate. }
  { apply Forall_replicate, length_replicate. }
  cbn beta. fold n. intros sig1 ? [-> Hfill1].
  destruct (self_positively_constrained self) eqn:Hpc; [|by wp_step].
  wp_step.
  eapply wp_mono; [apply redefine_scale_param_length| |done].
  cbn beta. intros [] g1 [Hn1 Hl1]. wp_step.
  eapply wp_mono; [apply (compute_weights_balanced false g1)| |done].
  { rewrite Hl1, Hn1. apply Hbal. }
  cbn beta. intros [] g2 (Hn2 & Hbal2 & _).
  destruct Hfill1 as (Hl & Hr & _). fold n in Hl, Hr.
  eapply wp_mono; [apply (fill_sigmas_rows g2 _ _ xv)| |done]; try done;
    rewrite ?Hn2, ?Hn1; try done.
  cbn beta. intros sig2 ? [-> Hfill2]. rewrite ?Hn2, ?Hn1 in Hfill2.
  split_and!; [unfold n; congruence|done|done|done].
Qed.


End generalized_weights.

Section generalized_fill.
Context {F : Type} `{Num F}.
Import GeneralizedSigmaPoints.

Lemma column_at (m : list (list F)) (n k : nat) :
  Forall (λ r, length r = n) m → k < n →
  column m (Z.of_nat k) = Ok (map (λ r, at_ r k) m).
Proof.
  intros Hrows Hk. induction Hrows as [|r m Hr _ IH]; [done|].
  rewrite column_cons, IH. unfold py_index.
  rewrite decide_True by lia. cbn [mbind res_bind]. rewrite Nat2Z.id.
  unfold getitem, at_.
  destruct (lookup_lt_is_Some_2 r k) as [v Hv]; [lia|].
  rewrite Hv. cbn. by rewrite Hv.
Qed.

(** The loop of [sigma_points] returns, for [2n+1] scale parameters, a mean
    of [n] elements and an [n]-by-[n] covariance: row [0] is the mean, and
    the rows [i] and [i+n] are [x - s[i]*sqrt(P[:, i-1])] and
    [x + s[i+n]*sqrt(P[:, i-1])]. *)
Lemma fill_sigmas_returns (self : t F) (x : pyvalue F) (P : list (list F))
    (xv : list F) (sigmas : list (list F)) :
  let n := self_n self in
  items x = Ok xv →
  length xv = n →
  shape n n P →
  length (self_s self) = 2 * n + 1 →
  shape (2 * n + 1) n sigmas →
  wp (fill_sigmas x P sigmas)
     (λ sig g, g = self ∧ shape (2 * n + 1) n sig ∧
               (1 ≤ n → sig !! 0 = Some xv) ∧
               ∀ i, 1 ≤ i ≤ n → ∃ si sin,
                 self_s self !! i = Some si ∧
                 self_s self !! (i + n) = Some sin ∧
                 sig !! i = Some (zip_with fsub xv
                   (vscale si (map fsqrt (map (λ r, at_ r (i - 1)) P)))) ∧
                 sig !! (i + n) = Some (zip_with fadd xv
                   (vscale sin (map fsqrt (map (λ r, at_ r (i - 1)) P)))))
     (λ _ _, False) self.
Proof.
  intros n Hx Hxlen [HlenP HrowsP] Hs [Hlen Hrows]. unfold fill_sigmas.
  do 2 wp_step. fold n.
  eapply wp_mono;
    [apply (wp_for_range _ (λ j sig g,
       g = self ∧ shape (2 * n + 1) n sig ∧
       (1 ≤ j → sig !! 0 = Some xv) ∧
       ∀ i, 1 ≤ i ≤ j → ∃ si sin,
         self_s self !! i = Some si ∧
         self_s self !! (i + n) = Some sin ∧
         sig !! i = Some (zip_with fsub xv
           (vscale si (map fsqrt (map (λ r, at_ r (i - 1)) P)))) ∧
         sig !! (i + n) = Some (zip_with fadd xv
           (vscale sin (map fsqrt (map (λ r, at_ r (i - 1)) P)))))
       (λ _ _, False))| |done].
  2: { split_and!; try done; lia. }
  2: { cbn beta. tauto. }
  intros j sig g Hj (-> & [Hl Hr] & Hfirst & Hdone).
  set (i := 1 + j).
  wp_step. apply wp_lift. rewrite Hx.
  destruct (lookup_lt_is_Some_2 sig 0) as [r0 Hr0]; [lia|].
  wp_step. apply wp_lift.
  rewrite (set_row_returns _ _ r0)
    by (try done; rewrite Hxlen; symmetry;
        exact (Forall_lookup_1 _ _ _ _ Hr Hr0)).
  assert (Hr1 : Forall (λ r, length r = n) (<[0 := xv]> sig))
    by (by apply Forall_insert).
  destruct (lookup_lt_is_Some_2 (self_s self) i) as [si Hsi]; [lia|].
  destruct (lookup_lt_is_Some_2 (self_s self) (i + n)) as [sin Hsin];
    [unfold i; lia|].
  wp_step. apply wp_get_s. rewrite Hsi.
  wp_step. apply wp_lift.
  replace (i - 1) with j by (unfold i; lia).
  rewrite (column_at P n j HrowsP Hj).
  set (c := map (λ r, at_ r j) P).
  assert (Hclen : length c = n) by (unfold c; by rewrite length_map).
  wp_step. apply wp_lift.
  rewrite broadcast_same_length
    by (unfold vscale; rewrite !length_map; lia).
  set (rl := zip_with fsub xv (vscale si (map fsqrt c))).
  assert (Hrl : length rl = n)
    by (unfold rl, vscale; rewrite length_zip_with, !length_map; lia).
  destruct (lookup_lt_is_Some_2 (<[0 := xv]> sig) i) as [ri Hri];
    [rewrite length_insert; unfold i; lia|].
  wp_step. apply wp_lift.
  rewrite (set_row_returns _ _ ri)
    by (try done; rewrite Hrl; symmetry;
        exact (Forall_lookup_1 _ _ _ _ Hr1 Hri)).
  assert (Hr2 : Forall (λ r, length r = n) (<[i := rl]> (<[0 := xv]> sig)))
    by (by apply Forall_insert).
  wp_step. apply wp_get_s. rewrite Hsin.
  wp_step. apply wp_lift.
  wp_step. apply wp_lift.
  rewrite broadcast_same_length
    by (unfold vscale; rewrite !length_map; lia).
  set (ru := zip_with fadd xv (vscale sin (map fsqrt c))).
  assert (Hru : length ru = n)
    by (unfold ru, vscale; rewrite length_zip_with, !length_map; lia).
  destruct (lookup_lt_is_Some_2 (<[i := rl]> (<[0 := xv]> sig)) (i + n))
    as [rn Hrn]; [rewrite !length_insert; unfold i; lia|].
  apply wp_lift.
  rewrite (set_row_returns _ _ rn)
    by (try done; rewrite Hru; symmetry;
        exact (Forall_lookup_1 _ _ _ _ Hr2 Hrn)).
  split; [done|]. split.
  { split; [by rewrite !length_insert|by apply Forall_insert]. }
  split.
  - intros _. rewrite !list_lookup_insert_ne by (unfold i; lia).
    apply list_lookup_insert_eq. lia.
  - intros i' Hi'. destruct (decide (i' = i)) as [->|Hne].
    + exists si, sin. replace (i - 1) with j by (unfold i; lia).
      split_and!; try done.
      * rewrite list_lookup_insert_ne by (unfold i; lia).
        apply list_lookup_insert_eq. rewrite length_insert. unfold i. lia.
      * apply list_lookup_insert_eq. rewrite !length_insert. unfold i. lia.
    + destruct (Hdone i') as (si' & sin' & ? & ? & Hlo & Hup);
        [unfold i in *; lia|].
      exists si', sin'. split_and!; try done.
      * rewrite !list_lookup_insert_ne by (unfold i in *; lia). done.
      * rewrite !list_lookup_insert_ne by (unfold i in *; lia). done.
Qed.

End generalized_fill.

Section generalized_moments.
Import GeneralizedSigmaPoints.
Open Scope R_scope.

Lemma np_sum_seq_shift (h : nat → R) (a n m : nat) :
  np_sum (map h (seq (a + n) m)) = np_sum (map (λ i, h (i + n)%nat) (seq a m)).
Proof.
  revert a. induction m as [|m IH]; intros a; [done|].
  cbn [seq map]. rewrite !np_sum_cons. f_equal.
  exact (IH (S a)).
Qed.

(** A sum over [2n+1] indices, as the term [0] and the pairs [(i, i+n)]. *)
Lemma sum_split (h : nat → R) (n : nat) :
  np_sum (map h (seq 0 (2 * n + 1)))
  = h 0%nat + np_sum (map (λ i, h i + h (i + n)%nat) (seq 1 n)).
Proof.
  replace (2 * n + 1)%nat with (1 + (n + n))%nat by lia.
  rewrite seq_app, (seq_app n n). cbn [seq app map].
  rewrite np_sum_cons, map_app, np_sum_app, np_sum_map_plus. f_equal. f_equal.
  exact (np_sum_seq_shift h 1 n n).
Qed.

Lemma sum_by_pairs (n : nat) (W : list R) (sig : list (list R))
    (f : list R → R) :
  length W = (2 * n + 1)%nat → length sig = (2 * n + 1)%nat →
  np_sum (zip_with (λ w s, w * f s) W sig)
  = at_ W 0 * f (default [] (sig !! 0%nat))
    + np_sum (map (λ i, at_ W i * f (default [] (sig !! i))
                        + at_ W (i + n) * f (default [] (sig !! (i + n)%nat)))
                  (seq 1 n)).
Proof.
  intros HW Hsig.
  rewrite <- (np_sum_at_seq _ (2 * n + 1))
    by (rewrite length_zip_with; lia).
  rewrite (np_sum_map_ext _ (λ k, at_ W k * f (default [] (sig !! k)))).
  2: { intros k Hk%elem_of_seq. unfold at_. rewrite lookup_zip_with.
       destruct (lookup_lt_is_Some_2 W k) as [w ->]; [lia|].
       destruct (lookup_lt_is_Some_2 sig k) as [r ->]; [lia|]. done. }
  apply (sum_split (λ k, at_ W k * f (default [] (sig !! k)))).
Qed.

Lemma np_sum_map_scale_r {A} (a : R) (f : A → R) (l : list A) :
  np_sum (map (λ b, f b * a) l) = np_sum (map f l) * a.
Proof.
  rewrite (np_sum_map_ext _ (λ b, a * f b)) by (intros; lra).
  rewrite np_sum_map_scale. lra.
Qed.

Lemma balanced_sum (g : t R) : balanced g → np_sum (self_Wm g) = 1.
Proof.
  intros (_ & _ & _ & H0 & _). destruct (self_Wm g) as [|w0 W]; [done|].
  cbn [insert list_insert] in H0. injection H0 as ->.
  rewrite !np_sum_cons. cbn. lra.
Qed.

Lemma np_sum_single (h : nat → R) (l : list nat) (k : nat) :
  NoDup l → k ∈ l → (∀ i, i ∈ l → i ≠ k → h i = 0) →
  np_sum (map h l) = h k.
Proof.
  intros Hnd. induction Hnd as [|a l Ha _ IH]; intros Hk Hz.
  - by apply elem_of_nil in Hk.
  - cbn [map]. rewrite np_sum_cons.
    destruct (decide (a = k)) as [->|Hne].
    + rewrite (np_sum_map_ext _ (λ _, 0)), np_sum_map_zero; [lra|].
      intros i Hi. apply Hz; [by right|]. intros ->. done.
    + rewrite (Hz a), IH; [lra| | |left|done].
      * apply elem_of_cons in Hk as [->|Hk]; done.
      * intros i Hi. apply Hz. by right.
Qed.

(** X15. For an unconstrained [GeneralizedSigmaPoints] of dimension [n]
    whose weights fit its scale parameters, with no [s[i]] equal to zero,
    called with a mean of [n] elements that passes the consistency test and
    an [n]-by-[n] covariance with no negative entry: [sigma_points] returns,
    leaves the instance as it was, and
    [sum_k Wm[k] * sigmas[k] = x], over the reals. *)
Theorem generalized_reconstructs_mean (self : t R) (x : pyvalue R)
    (P : pycov R) (xv : list R) :
  let n := self_n self in
  let Pm := as_matrix n P in
  self_positively_constrained self = false →
  balanced self →
  np_size x = n →
  items (asarray_if_scalar x) = Ok xv →
  py_ne (asarray_if_scalar x) (self_x self) ≫= truth = Ok false →
  length Pm = n → Forall (λ r, length r = n) Pm →
  Forall (Forall (λ v, 0 <= v)) Pm →
  (∀ i si, (1 ≤ i ≤ n)%nat → self_s self !! i = Some si → si ≠ 0) →
  ∃ sigmas,
    GeneralizedSigmaPoints.sigma_points x P self = (Ok sigmas, self) ∧
    weighted_mean n (self_Wm self) sigmas = xv.
Proof.
  intros n Pm Hpc Hbal Hsize Hx Hne HlenP HrowsP _ Hs0.
  assert (Hxlen : length xv = n) by (rewrite <- Hsize; by apply items_length).
  pose proof Hbal as (Hls & HlW & _ & HW0 & Hrel). fold n in Hls, HlW, Hrel.
  assert (Hwp : wp (GeneralizedSigmaPoints.sigma_points x P)
            (λ sig g, g = self ∧
                      weighted_mean n (self_Wm self) sig = xv)
            (λ _ _, False) self).
  { unfold GeneralizedSigmaPoints.sigma_points.
    do 2 wp_step. rewrite decide_False by (fold n; lia). fold n Pm.
    wp_step. apply wp_lift.
    destruct (py_ne _ _ ≫= truth) as [[|]|] eqn:Hne'; [congruence| |congruence].
    wp_step. apply wp_lift. wp_step.
    eapply wp_mono;
      [apply (fill_sigmas_returns self _ Pm xv)| |done]; try done.
    { apply shape_zeros. }
    cbn beta. fold n.
    intros sig ? (-> & [Hlsig Hrsig] & Hfirst & Hrows).
    rewrite Hpc. wp_step. split; [done|].
    unfold weighted_mean.
    etrans; [|apply (map_at_seq xv)]. rewrite Hxlen.
    apply map_ext_in. intros j Hj%in_seq.
    rewrite (sum_by_pairs n _ _ (λ s, at_ s j)) by done.
    rewrite (Hfirst ltac:(lia)). cbn [default]. unfold Datatypes.id.
    rewrite (np_sum_map_ext _
               (λ i, (at_ (self_Wm self) i + at_ (self_Wm self) (i + n))
                     * at_ xv j)).
    2: { intros i Hi%elem_of_seq.
         destruct (Hrel i) as (si & sin & win & Hsi & Hsin & Hwin & Hwi & _);
           [lia|].
         destruct (Hrows i) as (si' & sin' & Hsi' & Hsin' & Hlo & Hup);
           [lia|].
         assert (si' = si) as -> by congruence.
         assert (sin' = sin) as -> by congruence.
         pose proof (Hs0 i si ltac:(lia) Hsi) as Hnz.
         assert (HWi : at_ (self_Wm self) i = sin / si * win)
           by (unfold at_; by rewrite Hwi).
         assert (HWin : at_ (self_Wm self) (i + n) = win)
           by (unfold at_; by rewrite Hwin).
         rewrite Hlo, Hup, HWi, HWin. cbn [default].
         unfold vscale, Datatypes.id.
         rewrite !at_zip_with, !at_map
           by (rewrite ?length_map; lia).
         cbn. field. exact Hnz. }
    rewrite np_sum_map_scale_r.
    rewrite <- Rmult_plus_distr_r.
    rewrite <- (sum_split (at_ (self_Wm self)) n).
    rewrite <- HlW, np_sum_at_seq by done.
    rewrite (balanced_sum self Hbal). lra. }
  unfold wp in Hwp.
  destruct (GeneralizedSigmaPoints.sigma_points x P self) as [[sig|e] g];
    [|done].
  destruct Hwp as [-> Hmean]. by exists sig.
Qed.

Lemma at_column (m : list (list R)) (j k : nat) :
  at_ (map (λ r, at_ r k) m) j = entry m j k.
Proof.
  unfold at_, entry. rewrite list_lookup_fmap. by destruct (m !! j).
Qed.

Lemma entry_nonneg (m : list (list R)) (j k : nat) :
  Forall (Forall (λ v, 0 <= v)) m → 0 <= entry m j k.
Proof.
  intros Hm. unfold entry.
  destruct (m !! j) as [r|] eqn:Hr; cbn; [|lra].
  destruct (r !! k) as [v|] eqn:Hv; cbn; [|lra].
  exact (Forall_lookup_1 _ _ _ _ (Forall_lookup_1 _ _ _ _ Hm Hr) Hv).
Qed.

(** X16. Under the same conditions, when moreover no
    [s[i+n] * (s[i] + s[i+n])] is zero and the covariance is diagonal:
    [sum_k Wc[k] * outer(sigmas[k] - x, sigmas[k] - x) = P], over the
    reals.  (The points are built from the elementwise square roots of the
    columns of [P].) *)
Theorem generalized_reconstructs_covariance (self : t R) (x : pyvalue R)
    (P : pycov R) (xv : list R) :
  let n := self_n self in
  let Pm := as_matrix n P in
  self_positively_constrained self = false →
  balanced self →
  np_size x = n →
  items (asarray_if_scalar x) = Ok xv →
  py_ne (asarray_if_scalar x) (self_x self) ≫= truth = Ok false →
  length Pm = n → Forall (λ r, length r = n) Pm →
  Forall (Forall (λ v, 0 <= v)) Pm →
  (∀ j l, (j < n)%nat → (l < n)%nat → j ≠ l → entry Pm j l = 0) →
  (∀ i si sin, (1 ≤ i ≤ n)%nat →
     self_s self !! i = Some si → self_s self !! (i + n)%nat = Some sin →
     si ≠ 0 ∧ sin * (si + sin) ≠ 0) →
  ∃ sigmas,
    GeneralizedSigmaPoints.sigma_points x P self = (Ok sigmas, self) ∧
    weighted_covariance n (self_Wc self) sigmas xv = Pm.
Proof.
  intros n Pm Hpc Hbal Hsize Hx Hne HlenP HrowsP Hpos Hdiag Hs0.
  assert (Hxlen : length xv = n) by (rewrite <- Hsize; by apply items_length).
  pose proof Hbal as (Hls & HlW & HWc & HW0 & Hrel).
  fold n in Hls, HlW, Hrel.
  assert (Hwp : wp (GeneralizedSigmaPoints.sigma_points x P)
            (λ sig g, g = self ∧
                      weighted_covariance n (self_Wc self) sig xv = Pm)
            (λ _ _, False) self).
  { unfold GeneralizedSigmaPoints.sigma_points.
    do 2 wp_step. rewrite decide_False by (fold n; lia). fold n Pm.
    wp_step. apply wp_lift.
    destruct (py_ne _ _ ≫= truth) as [[|]|] eqn:Hne';
      [congruence| |congruence].
    wp_step. apply wp_lift. wp_step.
    eapply wp_mono;
      [apply (fill_sigmas_returns self _ Pm xv)| |done]; try done.
    { apply shape_zeros. }
    cbn beta. fold n.
    intros sig ? (-> & [Hlsig Hrsig] & Hfirst & Hrows).
    rewrite Hpc. wp_step. split; [done|].
    rewrite HWc. unfold weighted_covariance.
    etrans; [|apply (map_entry_seq n Pm HlenP HrowsP)].
    apply map_ext_in. intros j Hj%in_seq.
    apply map_ext_in. intros l Hl%in_seq.
    rewrite (sum_by_pairs n _ _
               (λ s, (at_ s j - at_ xv j) * (at_ s l - at_ xv l))) by done.
    rewrite (Hfirst ltac:(lia)). cbn [default]. unfold Datatypes.id.
    rewrite (np_sum_map_ext _
               (λ i, sqrt (entry Pm j (i - 1)) * sqrt (entry Pm l (i - 1)))).
    2: { intros i Hi%elem_of_seq.
         destruct (Hrel i) as (si & sin & win & Hsi & Hsin & Hwin & Hwi & Hw);
           [lia|].
         destruct (Hrows i) as (si' & sin' & Hsi' & Hsin' & Hlo & Hup);
           [lia|].
         assert (si' = si) as -> by congruence.
         assert (sin' = sin) as -> by congruence.
         destruct (Hs0 i si sin ltac:(lia) Hsi Hsin) as [Hnz Hnz'].
         assert (HWi : at_ (self_Wm self) i = sin / si * win)
           by (unfold at_; by rewrite Hwi).
         assert (HWin : at_ (self_Wm self) (i + n) = win)
           by (unfold at_; by rewrite Hwin).
         rewrite Hlo, Hup, HWi, HWin. cbn [default].
         unfold vscale, Datatypes.id.
         rewrite !at_zip_with, !at_map
           by (rewrite ?length_map; lia).
         rewrite !at_column. rewrite Hw. cbn.
         assert (sin ≠ 0) by (intros ->; apply Hnz'; ring).
         assert (si + sin ≠ 0) by (intros Hz; apply Hnz'; rewrite Hz; ring).
         field. split_and!; done. }
    destruct (decide (j = l)) as [->|Hjl].
    - rewrite (np_sum_single _ _ (l + 1)).
      + replace (l + 1 - 1)%nat with l by lia.
        rewrite sqrt_sqrt by (by apply entry_nonneg). lra.
      + apply NoDup_seq.
      + apply elem_of_seq. lia.
      + intros i Hi%elem_of_seq Hil.
        rewrite (Hdiag l (i - 1)%nat) by lia. rewrite sqrt_0. lra.
    - rewrite (np_sum_map_ext _ (λ _, 0)), np_sum_map_zero.
      + rewrite (Hdiag j l) by lia. lra.
      + intros i Hi%elem_of_seq.
        destruct (decide (i - 1 = j)%nat) as [Hij|Hij].
        * rewrite (Hdiag l (i - 1)%nat) by lia. rewrite sqrt_0. lra.
        * rewrite (Hdiag j (i - 1)%nat) by lia. rewrite sqrt_0. lra. }
  unfold wp in Hwp.
  destruct (GeneralizedSigmaPoints.sigma_points x P self) as [[sig|e] g];
    [|done].
  destruct Hwp as [-> Hcov]. by exists sig.
Qed.

End generalized_moments.

Section generalized_no_mean.
Context {F : Type} `{Num F}.
Import GeneralizedSigmaPoints.

(** X17. On a [GeneralizedSigmaPoints] of dimension [n >= 1] that was built
    without a mean ([x=None], the default), every call of [sigma_points]
    raises and leaves the instance as it was: the size of the mean is wrong,
    or [x != None] is true or has no truth value, or the mean given is
    [None] itself and cannot be subtracted from. *)
Theorem generalized_no_mean_raises (self : t F) (x : pyvalue F)
    (P : pycov F) :
  self_x self = PyNone →
  1 ≤ self_n self →
  ∃ e, GeneralizedSigmaPoints.sigma_points x P self = (Raise e, self).
Proof.
  intros Hx Hn.
  assert (Hwp : wp (GeneralizedSigmaPoints.sigma_points x P)
                   (λ _ _, False) (λ _ g, g = self) self).
  { unfold GeneralizedSigmaPoints.sigma_points. do 2 wp_step.
    case_decide as Hsize; [by wp_step|]. rewrite Hx.
    destruct x as [|v|l|l|l]; cbn [asarray_if_scalar].
    - wp_step. apply wp_lift. cbn [py_ne mbind res_bind truth].
      wp_step. apply wp_lift. cbn [py_ne mbind res_bind truth].
      wp_step. unfold fill_sigmas. do 2 wp_step.
      destruct (self_n self) as [|n']; [lia|]. cbn [seq for_M].
      wp_step. wp_step. by apply wp_lift.
    - wp_step. apply wp_lift. cbn [py_ne mbind res_bind truth map].
      by apply wp_raise.
    - wp_step. apply wp_lift. cbn [py_ne mbind res_bind truth].
      by apply wp_raise.
    - wp_step. apply wp_lift. cbn [py_ne mbind res_bind truth].
      by apply wp_raise.
    - cbn [np_size] in Hsize.
      wp_step. apply wp_lift.
      destruct l as [|a [|b l]]; cbn [length] in Hsize; [lia| |done].
      cbn [py_ne mbind res_bind truth map]. by apply wp_raise. }
  unfold wp in Hwp.
  destruct (GeneralizedSigmaPoints.sigma_points x P self) as [[?|e] g];
    [done|]. subst g. by eexists.
Qed.

End generalized_no_mean.

Lemma generalized_no_mean_raises_witness :
  ∃ e,
    GeneralizedSigmaPoints.sigma_points (PyScalar 5%float) (CovScalar 1%float)
      (GeneralizedSigmaPoints.attributes 1 [[1%float]] (NdArray [0%float])
         (NdArray [1%float]) false None PyNone)
    = (Raise e,
       GeneralizedSigmaPoints.attributes 1 [[1%float]] (NdArray [0%float])
         (NdArray [1%float]) false None PyNone).
Proof. apply generalized_no_mean_raises; [reflexivity|cbn; lia]. Defined.

Section simplex_witnesses.
Import SimplexSigmaPoints.
Open Scope R_scope.

Lemma simplex_reconstructs_mean_witness :
  ∃ sigmas,
    sigma_points (__init__ 1 1 None None) (PyScalar 3) (CovScalar 4)
      = Ok sigmas ∧
    weighted_mean 1 (self_Wm (__init__ 1 1 None None)) sigmas = [3].
Proof.
  apply (simplex_reconstructs_mean 1 1 None (PyScalar 3) (CovScalar 4) [3]
           [[sqrt (1 * 4)]]).
  - lia.
  - reflexivity.
  - reflexivity.
  - apply (cholesky_1x1 (1 * 4)). lra.
  - reflexivity.
  - by repeat constructor.
Defined.

Lemma simplex_reconstructs_covariance_witness :
  ∃ sigmas,
    sigma_points (__init__ 1 1 None None) (PyScalar 3) (CovScalar 4)
      = Ok sigmas ∧
    weighted_covariance 1 (self_Wc (__init__ 1 1 None None)) sigmas [3]
      = [[1 * 4]].
Proof.
  apply (simplex_reconstructs_covariance 1 1 None (PyScalar 3) (CovScalar 4)
           [3] [[sqrt (1 * 4)]]).
  - lia.
  - reflexivity.
  - reflexivity.
  - reflexivity.
  - by repeat constructor.
  - apply (cholesky_1x1 (1 * 4)). lra.
  - reflexivity.
  - by repeat constructor.
  - unfold dot. rewrite decide_True by (by repeat constructor).
    unfold np_sum. cbn. decide_eval. repeat f_equal.
    rewrite Rplus_0_l. apply sqrt_sqrt. lra.
Defined.

End simplex_witnesses.

Section generalized_witnesses.
Import GeneralizedSigmaPoints.
Open Scope R_scope.


Lemma unit_instance_balanced : balanced unit_instance.
Proof.
  unfold balanced. cbn [unit_instance self_n self_s self_Wm self_Wc].
  split_and!; try done.
  - cbn. f_equal. unfold np_sum. cbn. lra.
  - intros i Hi. assert (i = 1%nat) as -> by lia.
    exists 1, 1, (/ 2). split_and!; try done.
    + cbn. f_equal. field.
    + cbn. field.
Qed.

Lemma unit_instance_test :
  py_ne (asarray_if_scalar (PyScalar 5)) (self_x unit_instance) ≫= truth
  = Ok false.
Proof.
  cbn [asarray_if_scalar unit_instance self_x py_ne].
  unfold broadcast. cbn. by rewrite Reqb_true.
Qed.

Lemma generalized_reconstructs_mean_witness :
  ∃ sigmas,
    GeneralizedSigmaPoints.sigma_points (PyScalar 5) (CovScalar 4)
      unit_instance = (Ok sigmas, unit_instance) ∧
    weighted_mean 1 (self_Wm unit_instance) sigmas = [5].
Proof.
  apply (generalized_reconstructs_mean unit_instance (PyScalar 5)
           (CovScalar 4) [5]).
  - reflexivity.
  - exact unit_instance_balanced.
  - reflexivity.
  - reflexivity.
  - exact unit_instance_test.
  - reflexivity.
  - by repeat constructor.
  - constructor; [|constructor]. constructor; [|constructor].
    change (0 <= 1 * 4). lra.
  - intros i si Hi. assert (i = 1%nat) as -> by (cbn in Hi; lia).
    intros [= <-]. lra.
Defined.

Lemma generalized_reconstructs_covariance_witness :
  ∃ sigmas,
    GeneralizedSigmaPoints.sigma_points (PyScalar 5) (CovScalar 4)
      unit_instance = (Ok sigmas, unit_instance) ∧
    weighted_covariance 1 (self_Wc unit_instance) sigmas [5] = [[1 * 4]].
Proof.
  apply (generalized_reconstructs_covariance unit_instance (PyScalar 5)
           (CovScalar 4) [5]).
  - reflexivity.
  - exact unit_instance_balanced.
  - reflexivity.
  - reflexivity.
  - exact unit_instance_test.
  - reflexivity.
  - by repeat constructor.
  - constructor; [|constructor]. constructor; [|constructor].
    change (0 <= 1 * 4). lra.
  - intros j l Hj Hl Hjl. cbn in Hj, Hl. lia.
  - intros i si sin Hi. assert (i = 1%nat) as -> by (cbn in Hi; lia).
    intros [= <-] [= <-]. split; lra.
Defined.

End generalized_witnesses.


(** ** The weights of [GeneralizedSigmaPoints] are recomputed to the same
       values, and a correction that is not needed changes nothing *)

Section generalized_recompute.
Context {F : Type} `{Num F}.
Import GeneralizedSigmaPoints.






End generalized_recompute.


Section generalized_no_correction.
Context {F : Type} `{Num F}.
Import GeneralizedSigmaPoints.

(** The rows that the loop of [sigma_points] assigns determine the array. *)
Lemma filled_rows_unique (n : nat) (s : list F) (xv : list F)
    (P sig sig' : list (list F)) :
  let rows (sig : list (list F)) :=
    shape (2 * n + 1) n sig ∧
    (1 ≤ n → sig !! 0 = Some xv) ∧
    ∀ i, 1 ≤ i ≤ n → ∃ si sin,
      s !! i = Some si ∧ s !! (i + n) = Some sin ∧
      sig !! i = Some (zip_with fsub xv
        (vscale si (map fsqrt (map (λ r, at_ r (i - 1)) P)))) ∧
      sig !! (i + n) = Some (zip_with fadd xv
        (vscale sin (map fsqrt (map (λ r, at_ r (i - 1)) P)))) in
  rows sig → rows sig' → sig = sig'.
Proof.
  intros rows ([Hl Hr] & H0 & Hi) ([Hl' Hr'] & H0' & Hi').
  apply list_eq_same_length with (2 * n + 1); [done|done|].
  intros k r r' Hk Hrk Hrk'.
  destruct (decide (n = 0)) as [->|Hn].
  { pose proof (Forall_lookup_1 _ _ _ _ Hr Hrk) as Hlen.
    pose proof (Forall_lookup_1 _ _ _ _ Hr' Hrk') as Hlen'.
    cbn beta in Hlen, Hlen'.
    destruct r, r'; done. }
  destruct (decide (k = 0)) as [->|Hk0].
  { rewrite H0 in Hrk by lia. rewrite H0' in Hrk' by lia. congruence. }
  destruct (decide (k ≤ n)) as [Hkn|Hkn].
  - destruct (Hi k) as (si & sin & Hsi & _ & Hlo & _); [lia|].
    destruct (Hi' k) as (si' & sin' & Hsi' & _ & Hlo' & _); [lia|].
    congruence.
  - destruct (Hi (k - n)) as (si & sin & _ & Hsin & _ & Hup); [lia|].
    destruct (Hi' (k - n)) as (si' & sin' & _ & Hsin' & _ & Hup'); [lia|].
    replace (k - n + n) with k in * by lia. congruence.
Qed.

(** [_redefine_scale_param] on rows without a negative minimum. *)
Lemma redefine_scale_param_nonnegative (sigmas : list (list F))
    (self : t F) :
  (∀ row, row ∈ sigmas → ∃ m, np_min row = Ok m ∧ fltb m f0 = false) →
  wp (_redefine_scale_param sigmas) (λ _ g, g = self) (λ _ _, False) self.
Proof.
  intros Hrows. unfold _redefine_scale_param.
  apply (wp_for _ (λ _ g, g = self)); [|done].
  intros i [] g Hi%elem_of_seq ->.
  destruct (lookup_lt_is_Some_2 sigmas i) as [row Hrow]; [lia|].
  destruct (Hrows row) as (m & Hm & Hneg); [by eapply list_elem_of_lookup_2|].
  wp_step. apply wp_lift. unfold getitem. rewrite Hrow.
  wp_step. apply wp_lift. rewrite Hm, Hneg. by wp_step.
Qed.

(** X20. The correction of a positively constrained
    [GeneralizedSigmaPoints] changes nothing when it is not needed.  For an
    instance as the constructor or a returning call leaves it, a mean of [n]
    elements that passes the consistency test and an [n]-by-[n] covariance:
    the unconstrained instance with the same attributes returns points, and
    when none of them has a negative coordinate the constrained instance
    returns the same points and keeps its scale parameters and weights. *)
Theorem correction_not_needed (self : t F) (x : pyvalue F) (P : pycov F)
    (xv : list F) :
  let n := self_n self in
  self_positively_constrained self = true →
  settled self →
  np_size x = n →
  items (asarray_if_scalar x) = Ok xv →
  py_ne (asarray_if_scalar x) (self_x self) ≫= truth = Ok false →
  shape n n (as_matrix n P) →
  ∃ sigmas,
    GeneralizedSigmaPoints.sigma_points x P (unconstrained self)
    = (Ok sigmas, unconstrained self) ∧
    ((∀ row, row ∈ sigmas → ∃ m, np_min row = Ok m ∧ fltb m f0 = false) →
     GeneralizedSigmaPoints.sigma_points x P self = (Ok sigmas, self)).
Proof.
  intros n Hpc [Hfix Hs] Hsize Hx Hne HP.
  assert (Hxlen : length xv = n)
    by (rewrite <- Hsize; by apply items_length).
  assert (Hz : shape (2 * n + 1) n (zeros (2 * n + 1) n)).
  { split; [apply length_replicate|].
    apply Forall_replicate, length_replicate. }
  pose proof (fill_sigmas_returns self _ _ xv _ Hx Hxlen HP Hs Hz) as Hfill.
  pose proof (fill_sigmas_returns (unconstrained self) _ _ xv _
                Hx Hxlen HP Hs Hz) as Hfill0.
  unfold wp in Hfill, Hfill0. cbn [self_n self_s unconstrained] in Hfill0.
  fold n in Hfill, Hfill0.
  destruct (fill_sigmas _ _ _ self) as [[sig|?] g] eqn:Hrun; [|done].
  destruct (fill_sigmas _ _ _ (unconstrained self)) as [[sig0|?] g0] eqn:Hrun0;
    [|done].
  destruct Hfill as (-> & Hrows), Hfill0 as (-> & Hrows0).
  assert (sig0 = sig) as -> by (by eapply filled_rows_unique).
  exists sig.
  assert (Hret : ∀ (g : t F) (m : M (list (list F))),
            wp m (λ s g', s = sig ∧ g' = g) (λ _ _, False) g →
            m g = (Ok sig, g)).
  { intros g m Hwp. unfold wp in Hwp.
    destruct (m g) as [[?|?] ?]; [|done]. by destruct Hwp as [-> ->]. }
  split.
  - apply Hret. unfold GeneralizedSigmaPoints.sigma_points.
    do 2 wp_step.
    cbn [self_n self_x self_positively_constrained unconstrained].
    fold n. case_decide as Hd; [congruence|].
    wp_step. apply wp_lift.
    destruct (py_ne _ _ ≫= truth) as [[|]|]; [congruence| |congruence].
    wp_step. apply wp_lift. wp_step. unfold wp at 1. rewrite Hrun0.
    by wp_step.
  - intros Hnonneg. apply Hret.
    unfold GeneralizedSigmaPoints.sigma_points.
    do 2 wp_step. fold n. case_decide as Hd; [congruence|].
    wp_step. apply wp_lift.
    destruct (py_ne _ _ ≫= truth) as [[|]|]; [congruence| |congruence].
    wp_step. apply wp_lift. wp_step. unfold wp at 1. rewrite Hrun, Hpc.
    wp_step.
    eapply wp_mono;
      [apply (redefine_scale_param_nonnegative sig self Hnonneg)| |done].
    cbn beta. intros [] ? ->. wp_step. unfold wp at 1. rewrite Hfix.
    eapply wp_mono;
      [apply (fill_sigmas_returns self _ _ xv sig Hx Hxlen HP Hs
                (proj1 Hrows))| |done].
    cbn beta. fold n. intros sig2 ? (-> & Hrows2).
    split; [by eapply filled_rows_unique|done].
Qed.

End generalized_no_correction.

Lemma correction_not_needed_witness :
  ∃ g sigmas,
    GeneralizedSigmaPoints.__init__ 1 (CovScalar 1%float) (PyScalar 0%float)
      (PyScalar 1%float) true (Some 1%float) (PyScalar 5%float) = Ok g ∧
    GeneralizedSigmaPoints.sigma_points (PyScalar 5%float) (CovScalar 1%float)
      (unconstrained g) = (Ok sigmas, unconstrained g) ∧
    GeneralizedSigmaPoints.sigma_points (PyScalar 5%float) (CovScalar 1%float)
      g = (Ok sigmas, g).
Proof.
  pose (g := {| GeneralizedSigmaPoints.self_n := 1;
                GeneralizedSigmaPoints.self_x := NdArray [5%float];
                GeneralizedSigmaPoints.self_P := [[1%float]];
                GeneralizedSigmaPoints.self_S := NdArray [0%float];
                GeneralizedSigmaPoints.self_K := NdArray [1%float];
                GeneralizedSigmaPoints.self_k := Some 1%float;
                GeneralizedSigmaPoints.self_positively_constrained := true;
                GeneralizedSigmaPoints.self_s := [0%float; 1%float; 1%float];
                GeneralizedSigmaPoints.self_Wm
                  := [0%float; 0.5%float; 0.5%float];
                GeneralizedSigmaPoints.self_Wc
                  := [0%float; 0.5%float; 0.5%float] |}).
  destruct (correction_not_needed g (PyScalar 5%float) (CovScalar 1%float)
              [5%float]) as (sigmas & Hfree & Hsame);
    [reflexivity|split; [vm_compute; reflexivity|reflexivity]|reflexivity
    |reflexivity|reflexivity|split; [reflexivity|by repeat constructor]|].
  exists g, sigmas. split; [vm_compute; reflexivity|].
  split; [exact Hfree|]. apply Hsame.
  vm_compute in Hfree. injection Hfree as <-.
  intros row Hrow. apply list_elem_of_In in Hrow.
  destruct Hrow as [<-|[<-|[<-|[]]]]; eexists; split; vm_compute; reflexivity.
Defined.
